(** * AtlasUtilities: rectangular mesh generation and NetCDF import

    A shallow embedding of [GenerateRectAtlasMesh.h] and
    [utils/AtlasFromNetcdf.cpp], and the properties of the two that the
    specification states.

    Conventions.
    - The containment predicate [TriangleInBB] only compares coordinates, so
      it is written over any coordinate type with the two comparisons
      [operator<] and [operator<=].  It is instantiated at IEEE binary64
      ([spec_float], where a comparison with a NaN is false) and at the real
      numbers.
    - The arithmetic of [AtlasMeshRect] is binary64 arithmetic: a finite
      [double] is the real number it denotes, and every operation of the
      source ([+], [-], [*], [/], [sqrt], a decimal literal) is the exact
      operation followed by the rounding [fl] to the nearest binary64, ties
      to even, subnormal numbers included (each operation is rounded to
      binary64 on its own, none is fused).  Infinities and NaN are not
      values of this model: a result beyond [DBL_MAX] is an overflow in the
      source, and the theorems that depend on the rounding bound their
      inputs so that every intermediate result stays far below it.
    - The unit conversion of the importer is computed on [spec_float] with
      the binary64 operations of the Standard Library, NaN and infinities
      included.
    - [int] and [idx_t] values are integers of [Z] and [size_t] values are
      natural numbers.  The conversions of a size to [int] wrap around, and
      so does the subtraction that turns a 1-based index into a 0-based one
      (it overflows at [INT_MIN] only, where the source is undefined; what
      is proved of its result excludes [INT_MIN]).  The products of [int]s
      are the mathematical ones.  Containers are lists. *)

From Stdlib Require Import Reals Lra Lia Psatz List ZArith String Bool Arith.
From Stdlib Require Import Floats.SpecFloat.
From Stdlib Require Import Permutation Sorted ROrderedType Zfloor.
Import ListNotations.

Set Implicit Arguments.

(** ** Coordinates *)

(** What the containment predicate needs of a coordinate type. [c0] is the
    value the model reads at an index outside an array (the source does not
    check indices). *)
Class Coord (T : Type) : Type := {
  c0 : T;
  cltb : T -> T -> bool;  (* operator< *)
  cleb : T -> T -> bool   (* operator<= *)
}.

(** [x > y] on the source's doubles. *)
Definition cgtb {T} `{Coord T} (x y : T) : bool := cltb y x.

(** The two mixed transitivity laws of [<] and [<=]. *)
Class CoordOrder (T : Type) {C : Coord T} : Prop := {
  leb_ltb_trans : forall a b c : T, cleb a b = true -> cltb b c = true -> cltb a c = true;
  ltb_leb_trans : forall a b c : T, cltb a b = true -> cleb b c = true -> cltb a c = true
}.

Arguments CoordOrder T {C}.

(** Transitivity of [<] alone. *)
Class CoordStrict (T : Type) {C : Coord T} : Prop := {
  ltb_trans : forall a b c : T, cltb a b = true -> cltb b c = true -> cltb a c = true
}.

Arguments CoordStrict T {C}.

(** IEEE binary64, as the source's [double]. *)
Definition binary64 : Type := spec_float.

#[export] Instance Coord_binary64 : Coord binary64 := {
  c0 := S754_zero false;
  cltb := SFltb;
  cleb := SFleb
}.

(** The binary64 value nearest to [m * 2^e]. *)
Definition b64 (m e : Z) : binary64 := binary_normalize 53 1024 m e false.

Definition Rltb (x y : R) : bool := if Rlt_dec x y then true else false.
Definition Rleb (x y : R) : bool := if Rle_dec x y then true else false.

#[export] Instance Coord_R : Coord R := {
  c0 := 0%R;
  cltb := Rltb;
  cleb := Rleb
}.

(** ** Doubles

    The finite binary64 numbers are the reals [m * 2^e] with [|m| < 2^53]
    and [e >= -1074].  [fl x] is the one nearest to [x], the one with an even
    [m] when two are as near: the result that an IEEE 754 operation returns
    for the exact result [x], as long as it does not overflow. *)

Definition bpow (e : Z) : R := powerRZ 2 e.

(** The integer nearest to [x], the even one of two. *)
Definition ZnearestE (x : R) : Z :=
  let f := Zfloor x in
  match Rcompare (x - IZR f) (/ 2) with
  | Lt => f
  | Eq => if Z.even f then f else (f + 1)%Z
  | Gt => (f + 1)%Z
  end.

(** The exponent [e] with [2^(e-1) <= |x| < 2^e]. *)
Definition mag (x : R) : Z := (Zfloor (ln (Rabs x) / ln 2) + 1)%Z.

(** The exponent of the last bit of the binary64 numbers around [x]: 53
    bits of precision, and no exponent below the subnormal one. *)
Definition cexp (x : R) : Z := Z.max (mag x - 53) (-1074).

Definition fl (x : R) : R :=
  (IZR (ZnearestE (x * bpow (- cexp x))) * bpow (cexp x))%R.

(** The unit roundoff and half the smallest subnormal number. *)
Definition u : R := bpow (-53).
Definition eta : R := bpow (-1075).

Definition format (x : R) : Prop :=
  exists m e : Z, x = (IZR m * bpow e)%R /\ (Z.abs m < 2 ^ 53)%Z /\ (-1074 <= e)%Z.

(** ** The mesh of [GenerateRectAtlasMesh.h]

    The part of [atlas::Mesh] that the generator reads and writes: the [xy]
    field of the nodes and the cell-to-node connectivity of the (triangle)
    cells. *)
Module Rect.

Section Generic.
Context {T : Type} `{Coord T}.

Definition Point : Type := (T * T)%type.

Record Mesh : Type := mkMesh {
  xy : list Point;                           (* mesh.nodes().xy() *)
  node_connectivity : list (nat * nat * nat) (* mesh.cells().node_connectivity() *)
}.

Definition nodes_size (mesh : Mesh) : nat := List.length (xy mesh).
Definition cells_size (mesh : Mesh) : nat := List.length (node_connectivity mesh).

(** [cellToNode(cellIdx, k)] for k = 0, 1, 2. *)
Definition cellToNode (mesh : Mesh) (cellIdx : nat) : nat * nat * nat :=
  nth cellIdx (node_connectivity mesh) (0, 0, 0)%nat.

(** The lambda [getXY] of [TriangleInBB]. *)
Definition getXY (mesh : Mesh) (nodeIdx : nat) : Point :=
  nth nodeIdx (xy mesh) (c0, c0).

(** The lambda [inBB] of [TriangleInBB]. *)
Definition inBB (bblo bbhi : Point) (x y : T) : bool :=
  cgtb x (fst bblo) && cgtb y (snd bblo) && cltb x (fst bbhi) && cltb y (snd bbhi).

Definition TriangleInBB (mesh : Mesh) (cellIdx : nat) (bblo bbhi : Point) : bool :=
  let '(node0, node1, node2) := cellToNode mesh cellIdx in
  let '(x0, y0) := getXY mesh node0 in
  let '(x1, y1) := getXY mesh node1 in
  let '(x2, y2) := getXY mesh node2 in
  inBB bblo bbhi x0 y0 || inBB bblo bbhi x1 y1 || inBB bblo bbhi x2 y2.

(** A cell index of the mesh whose three node indices are node indices of
    the mesh. *)
Definition valid_cell (mesh : Mesh) (cellIdx : nat) : Prop :=
  (cellIdx < cells_size mesh)%nat /\
  let '(node0, node1, node2) := cellToNode mesh cellIdx in
  (node0 < nodes_size mesh)%nat /\ (node1 < nodes_size mesh)%nat /\
  (node2 < nodes_size mesh)%nat.

(** The vertices of a cell, and a point strictly inside a box. *)
Definition cell_vertices (mesh : Mesh) (cellIdx : nat) : list Point :=
  let '(node0, node1, node2) := cellToNode mesh cellIdx in
  [getXY mesh node0; getXY mesh node1; getXY mesh node2].

Definition strictly_inside (bblo bbhi p : Point) : Prop :=
  (cltb (fst bblo) (fst p) = true /\ cltb (fst p) (fst bbhi) = true) /\
  (cltb (snd bblo) (snd p) = true /\ cltb (snd p) (snd bbhi) = true).

(** Box [(lo1, hi1)] lies in box [(lo2, hi2)], componentwise. *)
Definition box_in (lo1 hi1 lo2 hi2 : Point) : Prop :=
  cleb (fst lo2) (fst lo1) = true /\ cleb (snd lo2) (snd lo1) = true /\
  cleb (fst hi1) (fst hi2) = true /\ cleb (snd hi1) (snd hi2) = true.

End Generic.

Arguments Point T : clear implicits.
Arguments Mesh T : clear implicits.

(** A binary64 mesh of one triangle, (1,1) (3,1) (1,3), and two boxes, the
    first (0,0)-(2,2) inside the second (-1,-1)-(4,4). *)
Definition example_triangle : Mesh binary64 :=
  mkMesh [(b64 1 0, b64 1 0); (b64 3 0, b64 1 0); (b64 1 0, b64 3 0)] [(0, 1, 2)%nat].
Definition example_lo1 : Point binary64 := (b64 0 0, b64 0 0).
Definition example_hi1 : Point binary64 := (b64 2 0, b64 2 0).
Definition example_lo2 : Point binary64 := (b64 (-1) 0, b64 (-1) 0).
Definition example_hi2 : Point binary64 := (b64 4 0, b64 4 0).

(** ** [AtlasMeshRect] *)

Local Open Scope R_scope.

(** [std::numeric_limits<double>::max()], the largest finite binary64. *)
Definition DBL_MAX : R := (2 - / 2 ^ 52) * 2 ^ 1023.

(** The largest [int]. *)
Definition INT_MAX : Z := 2147483647%Z.

(** Modelled from the spec: [atlas::grid::LinearSpacing(start, end, N,
    endpoint)] is code of the Atlas library.  It yields [N] samples from
    [start] in equal steps, the step being [(end - start) / N] when the right
    endpoint is not included.  For the spacings of [AtlasMeshRect] the
    samples are the integers [0 .. N - 1], which are doubles. *)
Definition LinearSpacing (start end_ : R) (N : nat) (endpoint : bool) : list R :=
  let step := if endpoint then (end_ - start) / (INR N - 1) else (end_ - start) / INR N in
  map (fun i => start + INR i * step) (seq 0 N).

(** Index of lattice point (i, j) in a row-major lattice of rows of [nx]
    points. *)
Definition node_id (nx i j : nat) : nat := (j * nx + i)%nat.

(** The two triangles of the lattice cell whose low corner is (i, j).  Both
    have the diagonal from (i, j) to (i+1, j+1) as an edge. *)
Definition tri_up (nx i j : nat) : nat * nat * nat :=
  (node_id nx i j, node_id nx i (j + 1), node_id nx (i + 1) (j + 1)).
Definition tri_down (nx i j : nat) : nat * nat * nat :=
  (node_id nx i j, node_id nx (i + 1) (j + 1), node_id nx (i + 1) j).

(** Modelled from the spec: [atlas::StructuredGrid] with
    [atlas::StructuredMeshGenerator{Config("angle", -1.)}.generate] is code of
    the Atlas library.  The spec has it produce the lattice of the two
    spacings, row by row, and two right triangles per lattice cell, all cells
    split the same way (the source: "simple right triangles with strict
    up/down orientation").  The diagonal is the one from (i, j) to
    (i+1, j+1): it is the diagonal that the Geometry Transform of the spec
    (4.1) turns into an edge of unit length. *)
Definition StructuredMeshGenerator_generate (x y : list R) : Mesh R :=
  let nx := List.length x in
  let ny := List.length y in
  mkMesh
    (flat_map (fun yj => map (fun xi => (xi, yj)) x) y)
    (flat_map (fun j => flat_map (fun i => [tri_up nx i j; tri_down nx i j])
                                 (seq 0 (nx - 1)))
              (seq 0 (ny - 1))).

(** The body of the first loop of [AtlasMeshRect]: the shear that makes the
    right triangles equilateral. *)
Definition shear (p : Point R) : Point R :=
  let '(x, y) := p in
  let x' := fl (x - fl (0.5 * y)) in
  let y' := fl (fl (y * fl (sqrt 3)) / 2) in
  (x', y').

Definition GeometryTransform (mesh : Mesh R) : Mesh R :=
  mkMesh (map shear (xy mesh)) (node_connectivity mesh).

(** Position of the first occurrence of [n] in [l]. *)
Fixpoint index_of (n : nat) (l : list nat) : nat :=
  match l with
  | [] => 0%nat
  | m :: l' => if Nat.eqb n m then 0%nat else S (index_of n l')
  end.

Definition cell_nodes (c : nat * nat * nat) : list nat :=
  let '(n0, n1, n2) := c in [n0; n1; n2].

(** Modelled from the spec: [AtlasExtractSubMeshMinimal] is declared in
    [AtlasExtractSubmesh.h], which is not among the sources.  The spec (6):
    the output has exactly the listed cells, in the given order, and exactly
    the nodes those cells reference, renumbered from 0, with the cell-to-node
    connectivity rewritten to the new numbering.  The retained nodes are
    taken in ascending order of their old index. *)
Definition AtlasExtractSubMeshMinimal (mesh : Mesh R) (keep : list nat) : Mesh R :=
  let keptCells := map (cellToNode mesh) keep in
  let referenced := flat_map cell_nodes keptCells in
  let keepNodes :=
    filter (fun n => existsb (Nat.eqb n) referenced) (seq 0 (nodes_size mesh)) in
  let renumber := fun n => index_of n keepNodes in
  mkMesh (map (getXY mesh) keepNodes)
         (map (fun c => let '(n0, n1, n2) := c in (renumber n0, renumber n1, renumber n2))
              keptCells).

(** *** The stages of [AtlasMeshRect] *)

(** Lines 62-93: the structured mesh, sheared. *)
Definition transformedMesh (ny : Z) : Mesh R :=
  let nx := (3 * ny)%Z in
  let x := LinearSpacing 0 (IZR nx) (Z.to_nat nx) false in
  let y := LinearSpacing 0 (IZR ny) (Z.to_nat ny) false in
  GeometryTransform (StructuredMeshGenerator_generate x y).

(** Lines 95-96. *)
Definition newHeight (ny : Z) : R := fl (fl (IZR (ny - 1) * fl (sqrt 3)) / 2).
Definition length (ny : Z) : R := fl (newHeight ny * 2).

Definition lo : Point R := (0, - DBL_MAX).
Definition hi (ny : Z) : Point R :=
  let nx := (3 * ny)%Z in
  (fl (length ny + fl (fl (length ny / IZR nx) * fl 0.1)), DBL_MAX).

(** Lines 98-105: the cells with a vertex in the selection box, in ascending
    order. *)
Definition keep (ny : Z) : list nat :=
  let mesh := transformedMesh ny in
  filter (fun cellIdx => TriangleInBB mesh cellIdx lo (hi ny)) (seq 0 (cells_size mesh)).

(** Line 107. *)
Definition rectMesh (ny : Z) : Mesh R :=
  AtlasExtractSubMeshMinimal (transformedMesh ny) (keep ny).

(** Lines 109-120: the scan for [(xMin, yMin, xMax, yMax)]. *)
Definition scan (nodes : list (Point R)) : R * R * R * R :=
  fold_left
    (fun acc p =>
       let '(xMin, yMin, xMax, yMax) := acc in
       let '(x, y) := p in
       (Rmin x xMin, Rmin y yMin, Rmax x xMax, Rmax y yMax))
    nodes (DBL_MAX, DBL_MAX, - DBL_MAX, - DBL_MAX).

(** Lines 121-122. *)
Definition lX (nodes : list (Point R)) : R :=
  let '(xMin, yMin, xMax, yMax) := scan nodes in fl (xMax - xMin).
Definition lY (nodes : list (Point R)) : R :=
  let '(xMin, yMin, xMax, yMax) := scan nodes in fl (yMax - yMin).

(** Lines 123-129. *)
Definition recenter (nodes : list (Point R)) : list (Point R) :=
  let '(xMin, yMin, xMax, yMax) := scan nodes in
  map (fun p => let '(x, y) := p in
                (fl (fl (x - xMin) - fl (lX nodes / 2)),
                 fl (fl (y - yMin) - fl (lY nodes / 2))))
      nodes.

(** Line 132. *)
Definition scale (nodes : list (Point R)) : R := fl (180 / lY nodes).

(** Lines 133-138.  The second and third loop read the extent of the scan,
    which is not recomputed after the re-centring. *)
Definition rescale (k : R) (nodes : list (Point R)) : list (Point R) :=
  map (fun p => let '(x, y) := p in (fl (x * k), fl (y * k))) nodes.

(** Lines 108-138: the Bounding-Box Normalizer of the spec. *)
Definition BoundingBoxNormalizer (mesh : Mesh R) : Mesh R :=
  let nodes := xy mesh in
  mkMesh (rescale (scale nodes) (recenter nodes)) (node_connectivity mesh).

Definition AtlasMeshRect (ny : Z) : Mesh R :=
  BoundingBoxNormalizer (rectMesh ny).

(** *** Measures of a mesh used to state its properties *)

Definition xs (mesh : Mesh R) : list R := map fst (xy mesh).
Definition ys (mesh : Mesh R) : list R := map snd (xy mesh).

(** Largest and smallest element of a list (0 for the empty list). *)
Definition list_max (l : list R) : R := fold_right Rmax (hd 0 l) l.
Definition list_min (l : list R) : R := fold_right Rmin (hd 0 l) l.

Definition is_min (l : list R) (m : R) : Prop := In m l /\ forall v, In v l -> m <= v.
Definition is_max (l : list R) (m : R) : Prop := In m l /\ forall v, In v l -> v <= m.

(** The running minimum and maximum of the scan, from a sentinel. *)
Definition min_from (init : R) (l : list R) : R := fold_left (fun m v => Rmin v m) l init.
Definition max_from (init : R) (l : list R) : R := fold_left (fun m v => Rmax v m) l init.

(** The offset that the re-centring subtracts: the sum of the two doubles
    it subtracts on each axis. *)
Definition center (nodes : list (Point R)) : Point R :=
  let '(xMin, yMin, xMax, yMax) := scan nodes in
  (xMin + fl (lX nodes / 2), yMin + fl (lY nodes / 2)).

Definition distance (p q : Point R) : R :=
  sqrt ((fst p - fst q) * (fst p - fst q) + (snd p - snd q) * (snd p - snd q)).

(** The three vertices of a cell. *)
Definition vertices (mesh : Mesh R) (c : nat * nat * nat) : Point R * Point R * Point R :=
  let '(n0, n1, n2) := c in (getXY mesh n0, getXY mesh n1, getXY mesh n2).

(** All three edges of a cell have length [len]. *)
Definition equilateral (mesh : Mesh R) (len : R) (c : nat * nat * nat) : Prop :=
  let '(p0, p1, p2) := vertices mesh c in
  distance p0 p1 = len /\ distance p1 p2 = len /\ distance p0 p2 = len.

(** All three edges of a cell have length [len] up to [tol]. *)
Definition equilateral_within (tol : R) (mesh : Mesh R) (len : R) (c : nat * nat * nat)
  : Prop :=
  let '(p0, p1, p2) := vertices mesh c in
  Rabs (distance p0 p1 - len) <= tol /\ Rabs (distance p1 p2 - len) <= tol /\
  Rabs (distance p0 p2 - len) <= tol.

(** What the Bounding-Box Normalizer does to one coordinate, given the
    minimum of the axis, half the extent and the scale factor, and to one
    node of [nodes]. *)
Definition normalize_coordinate (vMin half k v : R) : R :=
  fl (fl (fl (v - vMin) - half) * k).

Definition normalize_point (nodes : list (Point R)) (p : Point R) : Point R :=
  let '(xMin, yMin, xMax, yMax) := scan nodes in
  (normalize_coordinate xMin (fl (lX nodes / 2)) (scale nodes) (fst p),
   normalize_coordinate yMin (fl (lY nodes / 2)) (scale nodes) (snd p)).

(** The nodes that the cells [keep] of a mesh reference, and the retained
    nodes, as in [AtlasExtractSubMeshMinimal]. *)
Definition referenced (mesh : Mesh R) (keep : list nat) : list nat :=
  flat_map cell_nodes (map (cellToNode mesh) keep).
Definition keepNodes (mesh : Mesh R) (keep : list nat) : list nat :=
  filter (fun n => existsb (Nat.eqb n) (referenced mesh keep)) (seq 0 (nodes_size mesh)).

(** Lattice point (i, j) after the shear. *)
Definition sheared (i j : nat) : Point R := shear (INR i, INR j).

(** [c] is one of the two triangles of lattice cell (i, j) of the mesh that
    [AtlasMeshRect ny] generates. *)
Definition cell_at (ny : Z) (i j : nat) (c : nat * nat * nat) : Prop :=
  let nx := Z.to_nat (3 * ny) in
  (i < nx - 1)%nat /\ (j < Z.to_nat ny - 1)%nat /\
  (c = tri_up nx i j \/ c = tri_down nx i j).

(** Every coordinate is a double of magnitude at most [bound]. *)
Definition double_nodes (bound : R) (nodes : list (Point R)) : Prop :=
  forall p, In p nodes ->
    (format (fst p) /\ Rabs (fst p) <= bound) /\ (format (snd p) /\ Rabs (snd p) <= bound).

(** A mesh that is not normalized: one triangle (0,0) (2,0) (1,3). *)
Definition example_raw : Mesh R :=
  mkMesh [(0, 0); (2, 0); (1, 3)] [(0, 1, 2)%nat].

(** A normalized mesh with a node whose x is lost when 1 is added to it:
    (-1,-90) (1,90) (2^-54,0). *)
Definition example_absorbed : Mesh R :=
  mkMesh [(-1, -90); (1, 90); (bpow (-54), 0)] [(0, 1, 2)%nat].

(** The example triangle with its nodes listed in another order. *)
Definition example_triangle_reordered : Mesh binary64 :=
  mkMesh [(b64 1 0, b64 3 0); (b64 1 0, b64 1 0); (b64 3 0, b64 1 0)] [(2, 0, 1)%nat].

(** A normalized mesh: one triangle (-60,-90) (60,-90) (0,90). *)
Definition example_normalized : Mesh R :=
  mkMesh [(-60, -90); (60, -90); (0, 90)] [(0, 1, 2)%nat].

End Rect.
(** ** The importer of [utils/AtlasFromNetcdf.cpp] *)
Module Netcdf.

Local Open Scope Z_scope.

(** *** Outcomes

    A call of the source either completes, or lets a
    [netCDF::exceptions::NcException] propagate, or does not complete in a
    defined way: an [assert] fails, or an index, count or [int] product is
    outside what the source and the containers it calls define. *)
Inductive result (A : Type) : Type :=
| Ok (a : A)
| Throw
| Aborted.

Arguments Throw {A}.
Arguments Aborted {A}.

Definition bind {A B : Type} (r : result A) (k : A -> result B) : result B :=
  match r with
  | Ok a => k a
  | Throw => Throw
  | Aborted => Aborted
  end.

Notation "x <- r ;; k" := (bind r (fun x => k))
  (at level 61, r at next level, right associativity).
Notation "' p <- r ;; k" := (bind r (fun x => let 'p := x in k))
  (at level 61, p pattern, r at next level, right associativity).

(** [try { ... } catch(NcException& e) { ...; return std::nullopt; }] *)
Definition try_catch {A : Type} (r : result (option A)) : result (option A) :=
  match r with
  | Throw => Ok None
  | _ => r
  end.

(** A loop [for(i = 0; i < n; i++)] whose body updates a state and may not
    complete. *)
Fixpoint for_loop {S : Type} (indices : list nat) (body : nat -> S -> result S) (s : S)
  : result S :=
  match indices with
  | [] => Ok s
  | i :: rest => s' <- body i s ;; for_loop rest body s'
  end.

(** *** The file

    The netCDF library is not among the sources; a file is what the importer
    can observe of it.  A variable has its dimension sizes and its values in
    storage order, as [getVar(double* )] and as [getVar(int* )] deliver them
    ([None]: the read throws).  [getVar(name)] of a file is [None] for a
    variable that [isNull]. *)
Record NcVar : Type := mkVar {
  dimSizes : list nat;
  asDouble : option (nat -> binary64);
  asInt : option (nat -> Z)
}.

Definition NcFile : Type := string -> option NcVar.

(** [netCDF::NcFile(filename, NcFile::read)]: [None] when the constructor
    throws. *)
Definition Disk : Type := string -> option NcFile.

Definition open (disk : Disk) (filename : string) : result NcFile :=
  match disk filename with
  | Some dataFile => Ok dataFile
  | None => Throw
  end.

(** [LoadField<loadT>], with [get] the read at type [loadT]. *)
Definition LoadField {loadT : Type} (get : NcVar -> option (nat -> loadT))
  (dataFile : NcFile) (name : string) : result (list loadT) :=
  match dataFile name with
  | None => Ok []
  | Some data =>
    match dimSizes data with
    | [size] =>
      match get data with
      | Some values => Ok (map values (seq 0 size))
      | None => Throw
      end
    | _ => Aborted  (* assert(data.getDimCount() == 1) *)
    end
  end.

(** [Load2DField<loadT>]: the values, [stride] and [elPerStride]. *)
Definition Load2DField {loadT : Type} (get : NcVar -> option (nat -> loadT))
  (dataFile : NcFile) (name : string) : result (list loadT * nat * nat) :=
  match dataFile name with
  | None => Ok ([], 0%nat, 0%nat)
  | Some data =>
    match dimSizes data with
    | [stride; elPerStride] =>
      match get data with
      | Some values => Ok (map values (seq 0 (stride * elPerStride)), stride, elPerStride)
      | None => Throw
      end
    | _ => Aborted  (* assert(data.getDimCount() == 2) *)
    end
  end.

(** *** Integers *)

Definition INT_MAX : Z := 2147483647.
Definition INT_MIN : Z := -2147483648.

(** Conversion of a [size_t] to [int] or [idx_t] (32 bits, two's
    complement). *)
Definition to_int (n : nat) : Z := (Z.of_nat n + 2 ^ 31) mod 2 ^ 32 - 2 ^ 31.

(** [a - b] on [int], in two's complement: the difference where it is an
    [int], and wrapped around where it is not (there the source's
    subtraction overflows). *)
Definition int_sub (a b : Z) : Z := (a - b + 2 ^ 31) mod 2 ^ 32 - 2 ^ 31.

(** *** The mesh

    The part of [atlas::Mesh] that the importer writes.  A connectivity table
    is the list of its rows. *)
Definition Connectivity : Type := list (list Z).

Record Nodes : Type := mkNodes {
  n_size : Z;
  lonlat : list (binary64 * binary64);
  n_global_index : list Z;
  remote_index : list Z;
  n_partition : list Z;
  ghost : list Z;
  flags : list Z;
  n_cell_connectivity : Connectivity;
  n_edge_connectivity : Connectivity
}.

Record Cells : Type := mkCells {
  c_size : Z;
  c_partition : list Z;
  c_global_index : list Z;
  c_node_connectivity : Connectivity;
  c_edge_connectivity : Connectivity
}.

Record Edges : Type := mkEdges {
  e_size : Z;
  e_cell_connectivity : Connectivity;
  e_node_connectivity : Connectivity
}.

Record Mesh : Type := mkMesh {
  nodes : Nodes;
  cells : Cells;
  edges : Edges
}.

(** [atlas::Mesh mesh;] *)
Definition empty_mesh : Mesh :=
  mkMesh (mkNodes 0 [] [] [] [] [] [] [] []) (mkCells 0 [] [] [] []) (mkEdges 0 [] []).

(** [a[i] = v] where the index is known to be in the array. *)
Fixpoint write {A : Type} (i : nat) (v : A) (a : list A) : list A :=
  match a, i with
  | [], _ => []
  | _ :: a', O => v :: a'
  | x :: a', S i' => x :: write i' v a'
  end.

(** [connectivity.set(row, values)]: the slots of the row are overwritten
    with as many of the values. *)
Definition set (connectivity : Connectivity) (row : nat) (values : list Z)
  : result Connectivity :=
  match nth_error connectivity row with
  | Some old => Ok (write row (firstn (List.length old) values) connectivity)
  | None => Aborted
  end.

Section Importer.

(** [connectivity.missing_value()], a constant of the Atlas library. *)
Variable missing_value : Z.

(** [connectivity.add(rows, cols, values)] with all values the missing
    value: the rows are appended. *)
Definition add_missing (connectivity : Connectivity) (rows cols : Z) : Connectivity :=
  connectivity ++ repeat (repeat missing_value (Z.to_nat cols)) (Z.to_nat rows).

(** [mesh.cells().add(new Triangle(), n)]: [n] more cells, each with a row
    of 3 in the cell-to-node connectivity, which [CellsFromNetCDF] goes on to
    [set]. *)
Definition cells_add (c : Cells) (nb_nodes nb_elements : Z) : result Cells :=
  if nb_elements <? 0 then Aborted
  else
    let n := Z.to_nat nb_elements in
    Ok (mkCells (c_size c + nb_elements)
                (c_partition c ++ repeat 0 n)
                (c_global_index c ++ repeat 0 n)
                (add_missing (c_node_connectivity c) nb_elements nb_nodes)
                (c_edge_connectivity c)).

(** [mesh.edges().add(new Line(), n)], likewise with rows of 2. *)
Definition edges_add (e : Edges) (nb_nodes nb_elements : Z) : result Edges :=
  if nb_elements <? 0 then Aborted
  else
    Ok (mkEdges (e_size e + nb_elements)
                (e_cell_connectivity e)
                (add_missing (e_node_connectivity e) nb_elements nb_nodes)).

Definition defaultPartition : Z := 0.

(** [M_PI] of [math.h], 3.14159265358979323846: the double
    [7074237752028440 * 2^-51]. *)
Definition M_PI : binary64 := b64 7074237752028440 (-51).

(** The operators [*] and [/] of [double]. *)
Definition mul (x y : binary64) : binary64 := SFmul 53 1024 x y.
Definition div (x y : binary64) : binary64 := SFdiv 53 1024 x y.

Definition radToLat (rad : binary64) : binary64 :=
  mul (div rad (mul (b64 1 (-1)) M_PI)) (b64 90 0).
Definition radToLon (rad : binary64) : binary64 := mul (div rad M_PI) (b64 180 0).

Definition NodesFromNetCDF (dataFile : NcFile) (mesh : Mesh) : result (bool * Mesh) :=
  lon <- LoadField asDouble dataFile "vlon" ;;
  lat <- LoadField asDouble dataFile "vlat" ;;
  if (List.length lon =? 0)%nat || (List.length lat =? 0)%nat then Ok (false, mesh)
  else if negb (List.length lon =? List.length lat)%nat then Ok (false, mesh)
  else
    let numNodes := to_int (List.length lat) in
    (* mesh.nodes().resize(numNodes), then every index is assigned *)
    if numNodes <? 0 then Aborted
    else
      let indices := seq 0 (Z.to_nat numNodes) in
      let nodes' :=
        mkNodes numNodes
          (map (fun nodeIdx =>
                  (radToLon (nth nodeIdx lon (b64 0 0)), radToLat (nth nodeIdx lat (b64 0 0))))
               indices)
          (map Z.of_nat indices)
          (map Z.of_nat indices)
          (map (fun _ => defaultPartition) indices)
          (map (fun _ => 0) indices)
          (map (fun _ => 0) indices)
          (n_cell_connectivity (nodes mesh))
          (n_edge_connectivity (nodes mesh)) in
      Ok (true, mkMesh nodes' (cells mesh) (edges mesh)).

(** The body of the loop of [CellsFromNetCDF]. *)
Definition cell_body (cellToVertex : list Z) (ncells : nat) (cellIdx : nat) (c : Cells)
  : result Cells :=
  let tri_nodes := [int_sub (nth (0 * ncells + cellIdx) cellToVertex 0) 1;
                    int_sub (nth (1 * ncells + cellIdx) cellToVertex 0) 1;
                    int_sub (nth (2 * ncells + cellIdx) cellToVertex 0) 1] in
  node_connectivity <- set (c_node_connectivity c) cellIdx tri_nodes ;;
  Ok (mkCells (c_size c)
              (write cellIdx defaultPartition (c_partition c))
              (write cellIdx (Z.of_nat cellIdx) (c_global_index c))
              node_connectivity
              (c_edge_connectivity c)).

Definition CellsFromNetCDF (dataFile : NcFile) (mesh : Mesh) : result (bool * Mesh) :=
  '(cellToVertex, vertexPerCell, ncells) <- Load2DField asInt dataFile "vertex_of_cell" ;;
  if negb (vertexPerCell =? 3)%nat then Ok (false, mesh)
  else
    c <- cells_add (cells mesh) 3 (to_int ncells) ;;
    c' <- for_loop (seq 0 ncells) (cell_body cellToVertex ncells) c ;;
    Ok (true, mkMesh (nodes mesh) c' (edges mesh)).

Definition AddNeighborList (dataFile : NcFile) (nbhListName : string) (yPerXExpected : nat)
  (connectivity : Connectivity) : result (bool * Connectivity) :=
  '(xToY, yPerX, numY) <- Load2DField asInt dataFile nbhListName ;;
  if negb (yPerX =? yPerXExpected)%nat then Ok (false, connectivity)
  else
    connectivity' <-
      for_loop (seq 0 numY)
        (fun elemIdx conn =>
           let yOfX :=
             map (fun innerIdx => int_sub (nth (innerIdx * numY + elemIdx) xToY 0) 1)
                 (seq 0 yPerX) in
           set conn elemIdx yOfX)
        connectivity ;;
    Ok (true, connectivity').

Definition AllocNbhTable (connectivity : Connectivity) (numElements nbhPerElem : Z)
  : result Connectivity :=
  let n := numElements * nbhPerElem in
  if (n <? 0) || (INT_MAX <? n) then Aborted
  else Ok (add_missing connectivity numElements nbhPerElem).

Definition AtlasMeshFromNetCDFMinimal (disk : Disk) (filename : string)
  : result (option Mesh) :=
  try_catch (
    let mesh := empty_mesh in
    dataFile <- open disk filename ;;
    '(ok, mesh) <- NodesFromNetCDF dataFile mesh ;;
    if negb ok then Ok None
    else
      '(ok, mesh) <- CellsFromNetCDF dataFile mesh ;;
      if negb ok then Ok None
      else Ok (Some mesh)).

Definition AtlasMeshFromNetCDFComplete (disk : Disk) (filename : string)
  : result (option Mesh) :=
  maybeMesh <- AtlasMeshFromNetCDFMinimal disk filename ;;
  match maybeMesh with
  | None => Ok None
  | Some mesh =>
    try_catch (
      dataFile <- open disk filename ;;
      edge_index <- LoadField asInt dataFile "edge_index" ;;
      let numEdgesA := to_int (List.length edge_index) in
      elat <- LoadField asInt dataFile "elat" ;;
      let numEdgesB := to_int (List.length elat) in
      if (numEdgesA =? 0) && (numEdgesB =? 0) then Ok None
      else
        let numEdges := Z.max numEdgesA numEdgesB in
        if negb (0 <? numEdges) then Aborted  (* assert(numEdges > 0) *)
        else
          e <- edges_add (edges mesh) 2 numEdges ;;
          let verticesPerEdge := 2 in
          let cellsPerEdge := 2 in
          let cellsPerNode := 6 in
          let edgesPerNode := 6 in
          let edgesPerCell := 3 in
          (* Edges *)
          t <- AllocNbhTable (e_cell_connectivity e) (e_size e) cellsPerEdge ;;
          '(ok, edge_cell) <- AddNeighborList dataFile "adjacent_cell_of_edge"
                                (Z.to_nat cellsPerEdge) t ;;
          if negb ok then Ok None
          else
          t <- AllocNbhTable (e_node_connectivity e) (e_size e) verticesPerEdge ;;
          '(ok, edge_node) <- AddNeighborList dataFile "edge_vertices"
                                (Z.to_nat verticesPerEdge) t ;;
          if negb ok then Ok None
          else
          (* Nodes *)
          let n := nodes mesh in
          t <- AllocNbhTable (n_cell_connectivity n) (n_size n) cellsPerNode ;;
          '(ok, node_cell) <- AddNeighborList dataFile "cells_of_vertex"
                                (Z.to_nat cellsPerNode) t ;;
          if negb ok then Ok None
          else
          t <- AllocNbhTable (n_edge_connectivity n) (n_size n) edgesPerNode ;;
          '(ok, node_edge) <- AddNeighborList dataFile "edges_of_vertex"
                                (Z.to_nat edgesPerNode) t ;;
          if negb ok then Ok None
          else
          (* Cells *)
          let c := cells mesh in
          t <- AllocNbhTable (c_edge_connectivity c) (c_size c) edgesPerCell ;;
          '(ok, cell_edge) <- AddNeighborList dataFile "edge_of_cell"
                                (Z.to_nat edgesPerCell) t ;;
          if negb ok then Ok None
          else
            Ok (Some (mkMesh
                        (mkNodes (n_size n) (lonlat n) (n_global_index n) (remote_index n)
                                 (n_partition n) (ghost n) (flags n) node_cell node_edge)
                        (mkCells (c_size c) (c_partition c) (c_global_index c)
                                 (c_node_connectivity c) cell_edge)
                        (mkEdges (e_size e) edge_cell edge_node))))
  end.

End Importer.

(** *** What a file holds, for stating the properties *)

(** The value at position [k], in storage order, of a variable read as
    [double] or as [int], and the dimension sizes of a variable. *)
Definition raw_double (dataFile : NcFile) (name : string) (k : nat) : option binary64 :=
  match dataFile name with
  | Some data => option_map (fun values => values k) (asDouble data)
  | None => None
  end.

Definition raw_int (dataFile : NcFile) (name : string) (k : nat) : option Z :=
  match dataFile name with
  | Some data => option_map (fun values => values k) (asInt data)
  | None => None
  end.

Definition dims_of (dataFile : NcFile) (name : string) : list nat :=
  match dataFile name with
  | Some data => dimSizes data
  | None => []
  end.

(** [pi / 2] as the source has it: [0.5 * M_PI], which is exact. *)
Definition half_pi : binary64 := b64 7074237752028440 (-52).

(** The mesh has the nodes of the file, [vlon] and [vlat] being of one
    non-zero size [numNodes]: as many as the [int] that [numNodes] converts
    to, all of them when [numNodes] is below 2^31, and node [nodeIdx] has
    the coordinates of the file in degrees, [rad / pi * 180] and
    [rad / (pi / 2) * 90] in double arithmetic with [M_PI] for pi. *)
Definition converted_nodes (dataFile : NcFile) (n : Nodes) : Prop :=
  exists numNodes,
    dims_of dataFile "vlon" = [numNodes] /\ dims_of dataFile "vlat" = [numNodes] /\
    (0 < numNodes)%nat /\
    n_size n = to_int numNodes /\
    List.length (lonlat n) = Z.to_nat (to_int numNodes) /\
    (Z.of_nat numNodes < 2 ^ 31 -> List.length (lonlat n) = numNodes) /\
    forall nodeIdx, (nodeIdx < List.length (lonlat n))%nat ->
      exists lon lat,
        raw_double dataFile "vlon" nodeIdx = Some lon /\
        raw_double dataFile "vlat" nodeIdx = Some lat /\
        nth nodeIdx (lonlat n) (b64 0 0, b64 0 0) =
        (mul (div lon M_PI) (b64 180 0), mul (div lat half_pi) (b64 90 0)).

(** The table has a row of [perElem] entries for each of the [numY]
    elements of the file's variable, and entry [(elem, inner)] is the
    file's value [v] at [inner * numY + elem] (column-major), less 1, for
    every [int] [v] but [INT_MIN], where [v - 1] is no [int]. *)
Definition converted_table (dataFile : NcFile) (name : string) (perElem : nat)
  (table : Connectivity) : Prop :=
  exists numY,
    dims_of dataFile name = [perElem; numY] /\
    (numY <= List.length table)%nat /\
    forall elem inner, (elem < numY)%nat -> (inner < perElem)%nat ->
      List.length (nth elem table []) = perElem /\
      exists v,
        raw_int dataFile name (inner * numY + elem) = Some v /\
        (INT_MIN < v <= INT_MAX -> nth inner (nth elem table []) 0 = v - 1).

(** The file has the variable, with these dimension sizes, and it can be
    read as [double], or as [int]. *)
Definition readable_double (dataFile : NcFile) (name : string) (dimensions : list nat)
  : Prop :=
  exists data values,
    dataFile name = Some data /\ dimSizes data = dimensions /\ asDouble data = Some values.

Definition readable_int (dataFile : NcFile) (name : string) (dimensions : list nat)
  : Prop :=
  exists data values,
    dataFile name = Some data /\ dimSizes data = dimensions /\ asInt data = Some values.

(** The size of a one-dimensional variable, 0 for any other or a missing
    one. *)
Definition field_size (dataFile : NcFile) (name : string) : nat :=
  match dims_of dataFile name with
  | [size] => size
  | _ => 0%nat
  end.

(** A table of [rows] rows, each of [cols] entries. *)
Definition table_shape (table : Connectivity) (rows : Z) (cols : nat) : Prop :=
  List.length table = Z.to_nat rows /\
  Forall (fun row => List.length row = cols) table.

(** The five neighbor tables of the file schema. *)
Definition neighbor_tables : list string :=
  ["adjacent_cell_of_edge"; "edge_vertices"; "cells_of_vertex"; "edges_of_vertex";
   "edge_of_cell"]%string.

(** *** An example file: one triangle, with its three edges

    Absent neighbors are padded with -1 in this file. *)
Definition ints (dimensions : list nat) (values : list Z) : NcVar :=
  mkVar dimensions (Some (fun k => b64 (nth k values 0) 0)) (Some (fun k => nth k values 0)).
Definition doubles (values : list binary64) : NcVar :=
  mkVar [List.length values] (Some (fun k => nth k values (b64 0 0))) None.

Definition minimal_file : NcFile :=
  fun name =>
    if String.eqb name "vlon" then Some (doubles [b64 0 0; b64 1 0; b64 0 0])
    else if String.eqb name "vlat" then Some (doubles [b64 0 0; b64 0 0; b64 1 0])
    else if String.eqb name "vertex_of_cell" then Some (ints [3; 1]%nat [1; 2; 3])
    else None.

Definition complete_file : NcFile :=
  fun name =>
    if String.eqb name "edge_index" then Some (ints [3%nat] [1; 2; 3])
    else if String.eqb name "adjacent_cell_of_edge" then
      Some (ints [2; 3]%nat [1; 1; 1; -1; -1; -1])
    else if String.eqb name "edge_vertices" then
      Some (ints [2; 3]%nat [1; 2; 3; 2; 3; 1])
    else if String.eqb name "cells_of_vertex" then
      Some (ints [6; 3]%nat [1; 1; 1; -1; -1; -1; -1; -1; -1; -1; -1; -1; -1; -1; -1;
                             -1; -1; -1])
    else if String.eqb name "edges_of_vertex" then
      Some (ints [6; 3]%nat [1; 1; 2; 3; 2; 3; -1; -1; -1; -1; -1; -1; -1; -1; -1;
                             -1; -1; -1])
    else if String.eqb name "edge_of_cell" then Some (ints [3; 1]%nat [1; 2; 3])
    else minimal_file name.

(** The file without one of its variables. *)
Definition without (name : string) (dataFile : NcFile) : NcFile :=
  fun name' => if String.eqb name' name then None else dataFile name'.

(** A disk that holds one file. *)
Definition disk_of (filename : string) (dataFile : NcFile) : Disk :=
  fun filename' => if String.eqb filename' filename then Some dataFile else None.

(** A file of one quadrilateral: [vertex_of_cell] has 4 rows. *)
Definition quad_file : NcFile :=
  fun name =>
    if String.eqb name "vlon" then Some (doubles [b64 0 0; b64 1 0; b64 1 0; b64 0 0])
    else if String.eqb name "vlat" then Some (doubles [b64 0 0; b64 0 0; b64 1 0; b64 1 0])
    else if String.eqb name "vertex_of_cell" then Some (ints [4; 1]%nat [1; 2; 3; 4])
    else None.

Definition example_disk : Disk := disk_of "grid.nc" complete_file.

(** The example file without its [edge_of_cell] table, and the file with
    nodes and cells only. *)
Definition example_disk_no_edge_of_cell : Disk :=
  disk_of "grid.nc" (without "edge_of_cell" complete_file).
Definition example_disk_minimal : Disk := disk_of "grid.nc" minimal_file.

(** The mesh that the importer returns for the example file, with the
    missing value -1. *)
Definition example_mesh : Mesh :=
  match AtlasMeshFromNetCDFComplete (-1) example_disk "grid.nc" with
  | Ok (Some mesh) => mesh
  | _ => empty_mesh
  end.

(** The mesh that [AtlasMeshFromNetCDFMinimal] returns for the file with
    nodes and cells only. *)
Definition example_minimal_mesh : Mesh :=
  match AtlasMeshFromNetCDFMinimal (-1) example_disk_minimal "grid.nc" with
  | Ok (Some mesh) => mesh
  | _ => empty_mesh
  end.

Definition example_disk_quad : Disk := disk_of "grid.nc" quad_file.

(** The [cells_of_vertex] table of the example, with absent neighbors
    padded with 0 instead of -1. *)
Definition zero_padded_file : NcFile :=
  fun name =>
    if String.eqb name "cells_of_vertex" then
      Some (ints [6; 3]%nat [1; 1; 1; 0; 0; 0; 0; 0; 0; 0; 0; 0; 0; 0; 0; 0; 0; 0])
    else complete_file name.

End Netcdf.


(** * Properties *)

Unset Implicit Arguments.

(** ** The order of the coordinates *)

Lemma Rltb_true (x y : R) : Rltb x y = true <-> (x < y)%R.
Proof. unfold Rltb. destruct (Rlt_dec x y); split; intros; try discriminate; tauto. Qed.

Lemma Rleb_true (x y : R) : Rleb x y = true <-> (x <= y)%R.
Proof. unfold Rleb. destruct (Rle_dec x y); split; intros; try discriminate; tauto. Qed.

#[export] Instance CoordOrder_R : CoordOrder R.
Proof.
  split; simpl; intros a b c; rewrite ?Rltb_true, ?Rleb_true; lra.
Qed.

Ltac order_cases :=
  repeat (change (Pos.compare_cont Eq) with Pos.compare in *;
          match goal with
          | |- context [(?a ?= ?b)%Z] => destruct (Z.compare_spec a b)
          | |- context [(?a ?= ?b)%positive] => destruct (Pos.compare_spec a b)
          | H : context [(?a ?= ?b)%Z] |- _ => destruct (Z.compare_spec a b)
          | H : context [(?a ?= ?b)%positive] |- _ => destruct (Pos.compare_spec a b)
          end;
          cbn [CompOpp] in *);
  try discriminate; try reflexivity; try lia.

Lemma SFleb_SFltb_trans (a b c : spec_float) :
  SFleb a b = true -> SFltb b c = true -> SFltb a c = true.
Proof.
  unfold SFleb, SFltb.
  destruct a as [sa|sa| |sa ma ea], b as [sb|sb| |sb mb eb], c as [sc|sc| |sc mc ec];
    simpl; try discriminate;
    try (destruct sa; simpl; try discriminate); try (destruct sb; simpl; try discriminate);
    try (destruct sc; simpl; try discriminate); try reflexivity;
    intros Hab Hbc; order_cases.
Qed.

Lemma SFltb_SFleb_trans (a b c : spec_float) :
  SFltb a b = true -> SFleb b c = true -> SFltb a c = true.
Proof.
  unfold SFleb, SFltb.
  destruct a as [sa|sa| |sa ma ea], b as [sb|sb| |sb mb eb], c as [sc|sc| |sc mc ec];
    simpl; try discriminate;
    try (destruct sa; simpl; try discriminate); try (destruct sb; simpl; try discriminate);
    try (destruct sc; simpl; try discriminate); try reflexivity;
    intros Hab Hbc; order_cases.
Qed.

#[export] Instance CoordOrder_binary64 : CoordOrder binary64.
Proof.
  split; simpl; intros a b c; [apply SFleb_SFltb_trans | apply SFltb_SFleb_trans].
Qed.

(** ** The containment predicate *)

Section Containment.
Context {T : Type} {C : Coord T} {O : CoordOrder T}.
Implicit Types (mesh : Rect.Mesh T) (p lo hi : Rect.Point T).

Lemma inBB_true lo hi (x y : T) :
  Rect.inBB lo hi x y = true <-> Rect.strictly_inside lo hi (x, y).
Proof.
  unfold Rect.inBB, Rect.strictly_inside, cgtb; simpl.
  rewrite !andb_true_iff. tauto.
Qed.

Lemma strictly_inside_monotone lo1 hi1 lo2 hi2 p :
  Rect.box_in lo1 hi1 lo2 hi2 ->
  Rect.strictly_inside lo1 hi1 p -> Rect.strictly_inside lo2 hi2 p.
Proof.
  intros (Hlx & Hly & Hhx & Hhy) ((Hx1 & Hx2) & (Hy1 & Hy2)).
  repeat split.
  - exact (leb_ltb_trans _ _ _ Hlx Hx1).
  - exact (ltb_leb_trans _ _ _ Hx2 Hhx).
  - exact (leb_ltb_trans _ _ _ Hly Hy1).
  - exact (ltb_leb_trans _ _ _ Hy2 Hhy).
Qed.

Lemma TriangleInBB_true mesh cellIdx lo hi :
  Rect.TriangleInBB mesh cellIdx lo hi = true <->
  exists p, In p (Rect.cell_vertices mesh cellIdx) /\ Rect.strictly_inside lo hi p.
Proof.
  unfold Rect.TriangleInBB, Rect.cell_vertices.
  destruct (Rect.cellToNode mesh cellIdx) as [[node0 node1] node2].
  destruct (Rect.getXY mesh node0) as [x0 y0], (Rect.getXY mesh node1) as [x1 y1],
    (Rect.getXY mesh node2) as [x2 y2].
  rewrite !orb_true_iff, !inBB_true. split.
  - intros [[H | H] | H]; eexists; (split; [ | exact H]); simpl; auto.
  - intros (p & Hin & Hp). simpl in Hin.
    destruct Hin as [<- | [<- | [<- | []]]]; auto.
Qed.

End Containment.

(** C3. [TriangleInBB] is true exactly when one of the three vertices of the
    cell is strictly inside the box on both axes, and it is monotonic in the
    box: for a valid cell index and a box [(lo1, hi1)] contained in
    [(lo2, hi2)], a cell selected for the first box is selected for the
    second.  This holds for every coordinate type whose [<] and [<=] are
    transitive, in particular binary64. *)
Theorem TriangleInBB_monotone :
  forall (T : Type) (C : Coord T) (O : CoordOrder T)
         (mesh : Rect.Mesh T) (cellIdx : nat) (lo1 hi1 lo2 hi2 : Rect.Point T),
    Rect.valid_cell mesh cellIdx ->
    Rect.box_in lo1 hi1 lo2 hi2 ->
    (forall lo hi,
        Rect.TriangleInBB mesh cellIdx lo hi = true <->
        exists p, In p (Rect.cell_vertices mesh cellIdx) /\ Rect.strictly_inside lo hi p) /\
    (Rect.TriangleInBB mesh cellIdx lo1 hi1 = true ->
     Rect.TriangleInBB mesh cellIdx lo2 hi2 = true).
Proof.
  intros T C O mesh cellIdx lo1 hi1 lo2 hi2 _ Hbox. split.
  - intros lo hi. apply TriangleInBB_true.
  - rewrite !TriangleInBB_true. intros (p & Hin & Hp).
    exists p. split; [exact Hin | ].
    exact (strictly_inside_monotone _ _ _ _ _ Hbox Hp).
Qed.

Lemma TriangleInBB_monotone_witness :
  Rect.TriangleInBB Rect.example_triangle 0 Rect.example_lo2 Rect.example_hi2 = true.
Proof.
  apply (TriangleInBB_monotone binary64 _ CoordOrder_binary64 Rect.example_triangle 0%nat
           Rect.example_lo1 Rect.example_hi1 Rect.example_lo2 Rect.example_hi2).
  - unfold Rect.valid_cell, Rect.cells_size, Rect.nodes_size; simpl; repeat split; lia.
  - repeat split; vm_compute; reflexivity.
  - vm_compute; reflexivity.
Defined.

(** ** Rounding to the nearest double *)

Section Rounding.
Local Open Scope R_scope.

Lemma Rabs_le_inv x a : Rabs x <= a -> - a <= x <= a.
Proof. unfold Rabs. destruct (Rcase_abs x); lra. Qed.

Lemma Rabs_lt_inv x a : Rabs x < a -> - a < x < a.
Proof. unfold Rabs. destruct (Rcase_abs x); lra. Qed.


Lemma bpow_gt_0 e : 0 < bpow e.
Proof. apply powerRZ_lt. lra. Qed.

Lemma bpow_add a b : bpow (a + b) = bpow a * bpow b.
Proof. apply powerRZ_add. lra. Qed.

Lemma bpow_0 : bpow 0 = 1.
Proof. reflexivity. Qed.

Lemma bpow_opp e : bpow (- e) = / bpow e.
Proof. apply powerRZ_neg'. Qed.

Lemma bpow_nonneg_IZR (k : Z) : (0 <= k)%Z -> bpow k = IZR (2 ^ k).
Proof.
  intros Hk. unfold bpow. rewrite <- (Z2Nat.id k Hk) at 1.
  rewrite <- pow_powerRZ. rewrite <- (Z2Nat.id k Hk) at 2.
  rewrite <- pow_IZR. reflexivity.
Qed.

Lemma bpow_ge_1 k : (0 <= k)%Z -> 1 <= bpow k.
Proof.
  intros Hk. rewrite bpow_nonneg_IZR by exact Hk. apply IZR_le.
  pose proof (Z.pow_pos_nonneg 2 k ltac:(lia) Hk). lia.
Qed.

Lemma bpow_le a b : (a <= b)%Z -> bpow a <= bpow b.
Proof.
  intros Hab. replace b with (a + (b - a))%Z by lia. rewrite bpow_add.
  pose proof (bpow_gt_0 a). pose proof (bpow_ge_1 (b - a) ltac:(lia)). nra.
Qed.

Lemma bpow_lt a b : (a < b)%Z -> bpow a < bpow b.
Proof.
  intros Hab. replace b with (a + 1 + (b - a - 1))%Z by lia. rewrite !bpow_add.
  pose proof (bpow_gt_0 a). pose proof (bpow_ge_1 (b - a - 1) ltac:(lia)).
  replace (bpow 1) with 2 by (unfold bpow; simpl; lra). nra.
Qed.

Lemma bpow_lt_inv a b : bpow a < bpow b -> (a < b)%Z.
Proof.
  intros H. destruct (Z_lt_le_dec a b) as [Hlt | Hle]; [exact Hlt | ].
  pose proof (bpow_le b a Hle). lra.
Qed.

Lemma bpow_le_inv a b : bpow a <= bpow b -> (a <= b)%Z.
Proof.
  intros H. destruct (Z_le_gt_dec a b) as [Hle | Hgt]; [exact Hle | ].
  pose proof (bpow_lt b a ltac:(lia)). lra.
Qed.

Lemma bpow_exp e : bpow e = exp (IZR e * ln 2).
Proof.
  unfold bpow. rewrite powerRZ_Rpower by lra. reflexivity.
Qed.


Lemma mag_spec x : x <> 0 -> bpow (mag x - 1) <= Rabs x < bpow (mag x).
Proof.
  intros Hx. unfold mag.
  assert (Hpos : 0 < Rabs x) by (apply Rabs_pos_lt; exact Hx).
  assert (Hln2 : 0 < ln 2) by (rewrite <- ln_1; apply ln_increasing; lra).
  set (t := ln (Rabs x) / ln 2).
  pose proof (Zfloor_bound t) as [Hlo Hhi].
  assert (Ht : t * ln 2 = ln (Rabs x)) by (unfold t; field; lra).
  assert (Hx' : Rabs x = exp (t * ln 2)) by (rewrite Ht, exp_ln; [reflexivity | exact Hpos]).
  clearbody t. rewrite !bpow_exp, Hx'.
  replace (Zfloor t + 1 - 1)%Z with (Zfloor t) by lia.
  rewrite plus_IZR. split.
  - destruct Hlo as [Hlo | Hlo].
    + left. apply exp_increasing. nra.
    + right. rewrite Hlo. reflexivity.
  - apply exp_increasing. simpl. nra.
Qed.

Lemma mag_unique x e : bpow (e - 1) <= Rabs x < bpow e -> mag x = e.
Proof.
  intros [Hlo Hhi].
  assert (Hx : x <> 0).
  { intros ->. rewrite Rabs_R0 in Hlo. pose proof (bpow_gt_0 (e - 1)). lra. }
  destruct (mag_spec x Hx) as [Mlo Mhi].
  assert (mag x - 1 < e)%Z by (apply bpow_lt_inv; lra).
  assert (e - 1 < mag x)%Z by (apply bpow_lt_inv; lra).
  lia.
Qed.

Lemma mag_opp x : mag (- x) = mag x.
Proof. unfold mag. rewrite Rabs_Ropp. reflexivity. Qed.

Lemma mag_le_abs x y : x <> 0 -> Rabs x <= Rabs y -> (mag x <= mag y)%Z.
Proof.
  intros Hx Hxy.
  assert (Hy : y <> 0).
  { intros ->. rewrite Rabs_R0 in Hxy. pose proof (Rabs_pos_lt x Hx). lra. }
  destruct (mag_spec x Hx), (mag_spec y Hy).
  assert (mag x - 1 < mag y)%Z by (apply bpow_lt_inv; lra). lia.
Qed.

Lemma mag_lt_bpow x e : x <> 0 -> Rabs x < bpow e -> (mag x <= e)%Z.
Proof.
  intros Hx H. destruct (mag_spec x Hx).
  assert (mag x - 1 < e)%Z by (apply bpow_lt_inv; lra). lia.
Qed.

Lemma mag_ge_bpow x e : bpow (e - 1) <= Rabs x -> (e <= mag x)%Z.
Proof.
  intros H.
  assert (Hx : x <> 0).
  { intros ->. rewrite Rabs_R0 in H. pose proof (bpow_gt_0 (e - 1)). lra. }
  destruct (mag_spec x Hx).
  assert (e - 1 < mag x)%Z by (apply bpow_lt_inv; lra). lia.
Qed.


Lemma Zn_cases x :
  let f := Zfloor x in
  (x - IZR f < / 2 /\ ZnearestE x = f) \/
  (x - IZR f = / 2 /\ ZnearestE x = (if Z.even f then f else f + 1)%Z) \/
  (/ 2 < x - IZR f /\ ZnearestE x = (f + 1)%Z).
Proof.
  intros f. unfold ZnearestE. fold f.
  destruct (Rcompare_spec (x - IZR f) (/ 2)); auto.
Qed.

Lemma Zn_bound x : Rabs (IZR (ZnearestE x) - x) <= / 2.
Proof.
  pose proof (Zfloor_bound x) as [Hlo Hhi].
  destruct (Zn_cases x) as [[H ->] | [[H ->] | [H ->]]].
  - apply Rabs_le. lra.
  - destruct (Z.even (Zfloor x)); [ | rewrite plus_IZR]; apply Rabs_le; lra.
  - rewrite plus_IZR. apply Rabs_le. lra.
Qed.

Lemma Zn_unique x n : Rabs (x - IZR n) < / 2 -> ZnearestE x = n.
Proof.
  intros H. apply Rabs_def2 in H. destruct H as [H1 H2].
  pose proof (Zfloor_bound x) as [Hlo Hhi].
  destruct (Zn_cases x) as [[H E] | [[H E] | [H E]]]; rewrite E.
  - assert (IZR (Zfloor x) - IZR n < 1) by lra.
    assert (IZR n - IZR (Zfloor x) < 1) by lra.
    rewrite <- minus_IZR in *. apply lt_IZR in H0, H3. lia.
  - exfalso. 
    assert (H0 : IZR (Zfloor x) - IZR n < 0) by lra.
    assert (H3 : IZR n - IZR (Zfloor x) < 1) by lra.
    rewrite <- minus_IZR in *. apply lt_IZR in H0, H3. lia.
  - assert (H0 : IZR (Zfloor x) - IZR n < 0) by lra.
    assert (H3 : IZR n - IZR (Zfloor x) < 2) by lra.
    rewrite <- minus_IZR in *. apply lt_IZR in H0, H3. lia.
Qed.

Lemma Zn_IZR n : ZnearestE (IZR n) = n.
Proof.
  apply Zn_unique. replace (IZR n - IZR n) with 0 by ring. rewrite Rabs_R0. lra.
Qed.

Lemma Zn_le x y : x <= y -> (ZnearestE x <= ZnearestE y)%Z.
Proof.
  intros Hxy. pose proof (Zfloor_le x y Hxy) as Hf.
  pose proof (Zfloor_bound x) as [Hxl Hxh]. pose proof (Zfloor_bound y) as [Hyl Hyh].
  destruct (Z.eq_dec (Zfloor x) (Zfloor y)) as [E | NE].
  - destruct (Zn_cases x) as [[H1 E1] | [[H1 E1] | [H1 E1]]];
      destruct (Zn_cases y) as [[H2 E2] | [[H2 E2] | [H2 E2]]];
      rewrite E1, E2, E in *; try (destruct (Z.even (Zfloor y))); try lia; exfalso; lra.
  - assert (Zfloor x + 1 <= Zfloor y)%Z by lia.
    assert (ZnearestE x <= Zfloor x + 1)%Z.
    { destruct (Zn_cases x) as [[H1 E1] | [[H1 E1] | [H1 E1]]]; rewrite E1;
        try (destruct (Z.even (Zfloor x))); lia. }
    assert (Zfloor y <= ZnearestE y)%Z.
    { destruct (Zn_cases y) as [[H1 E1] | [[H1 E1] | [H1 E1]]]; rewrite E1;
        try (destruct (Z.even (Zfloor y))); lia. }
    lia.
Qed.

Lemma Zn_opp x : ZnearestE (- x) = (- ZnearestE x)%Z.
Proof.
  pose proof (Zfloor_bound x) as [Hxl Hxh].
  destruct (Req_dec x (IZR (Zfloor x))) as [E | NE].
  - rewrite E, <- opp_IZR, !Zn_IZR. reflexivity.
  - assert (Hf : Zfloor (- x) = (- Zfloor x - 1)%Z).
    { apply Zfloor_eq. rewrite minus_IZR, opp_IZR. lra. }
    destruct (Zn_cases x) as [[H1 E1] | [[H1 E1] | [H1 E1]]];
      destruct (Zn_cases (- x)) as [[H2 E2] | [[H2 E2] | [H2 E2]]];
      rewrite E1, E2; rewrite Hf in *; rewrite ?minus_IZR, ?opp_IZR in *;
      try (exfalso; lra); try lia.
    replace (- Zfloor x - 1)%Z with (- (Zfloor x + 1))%Z by lia.
    rewrite Z.even_opp, Z.even_add. simpl (Z.even 1).
    destruct (Z.even (Zfloor x)); simpl; lia.
Qed.


Lemma cexp_opp x : cexp (- x) = cexp x.
Proof. unfold cexp. rewrite mag_opp. reflexivity. Qed.

Lemma fl_0 : fl 0 = 0.
Proof. unfold fl. rewrite Rmult_0_l. rewrite Zn_IZR. ring. Qed.

Lemma fl_opp x : fl (- x) = - fl x.
Proof.
  unfold fl. rewrite cexp_opp.
  replace (- x * bpow (- cexp x)) with (- (x * bpow (- cexp x))) by ring.
  rewrite Zn_opp, opp_IZR. ring.
Qed.

Lemma bpow_cancel e : bpow e * bpow (- e) = 1.
Proof. rewrite <- bpow_add. replace (e + - e)%Z with 0%Z by lia. reflexivity. Qed.

Lemma fl_scaled x m :
  x * bpow (- cexp x) = IZR m -> fl x = x.
Proof.
  intros H. unfold fl. rewrite H, Zn_IZR, <- H.
  rewrite Rmult_assoc, (Rmult_comm (bpow (- cexp x))), bpow_cancel. ring.
Qed.

Lemma Rabs_IZR_bpow m e : Rabs (IZR m * bpow e) = IZR (Z.abs m) * bpow e.
Proof.
  rewrite Rabs_mult, <- abs_IZR. rewrite (Rabs_pos_eq (bpow e)); [reflexivity | ].
  left. apply bpow_gt_0.
Qed.

Lemma format_fl x : format x -> fl x = x.
Proof.
  intros (m & e & -> & Hm & He).
  destruct (Z.eq_dec m 0) as [-> | Hm0]; [rewrite Rmult_0_l; apply fl_0 | ].
  set (x := IZR m * bpow e).
  assert (Hx : x <> 0).
  { unfold x. pose proof (bpow_gt_0 e). assert (IZR m <> 0) by (apply not_0_IZR; exact Hm0).
    nra. }
  assert (Hmag : (mag x <= e + 53)%Z).
  { apply mag_lt_bpow; [exact Hx | ]. unfold x. rewrite Rabs_IZR_bpow, bpow_add.
    rewrite (Rmult_comm (bpow e)). apply Rmult_lt_compat_r; [apply bpow_gt_0 | ].
    rewrite bpow_nonneg_IZR by lia. apply IZR_lt. exact Hm. }
  assert (Hc : (cexp x <= e)%Z) by (unfold cexp; lia).
  apply fl_scaled with (m := (m * 2 ^ (e - cexp x))%Z).
  unfold x in *. rewrite mult_IZR, <- bpow_nonneg_IZR by lia.
  rewrite Rmult_assoc, <- bpow_add. f_equal.
Qed.

Lemma scaled_lt x : x <> 0 -> Rabs (x * bpow (- cexp x)) < bpow 53.
Proof.
  intros Hx. destruct (mag_spec x Hx) as [_ Hhi].
  rewrite Rabs_mult, (Rabs_pos_eq (bpow _)) by (left; apply bpow_gt_0).
  apply Rlt_le_trans with (bpow (mag x) * bpow (- cexp x)).
  - apply Rmult_lt_compat_r; [apply bpow_gt_0 | exact Hhi].
  - rewrite <- bpow_add. apply bpow_le. unfold cexp. lia.
Qed.

Lemma Zn_abs_le x (n : Z) : Rabs x <= IZR n -> (Z.abs (ZnearestE x) <= n)%Z.
Proof.
  intros H. apply Rabs_le_inv in H. destruct H as [H1 H2].
  pose proof (Zn_le _ _ H2) as A. rewrite Zn_IZR in A.
  rewrite <- opp_IZR in H1. pose proof (Zn_le _ _ H1) as B. rewrite Zn_IZR in B.
  lia.
Qed.

Lemma fl_format x : format (fl x).
Proof.
  destruct (Req_dec x 0) as [-> | Hx].
  - rewrite fl_0. exists 0%Z, 0%Z. split; [ring | split; lia].
  - pose proof (scaled_lt x Hx) as Hs.
    set (n := ZnearestE (x * bpow (- cexp x))).
    assert (Hn : (Z.abs n <= 2 ^ 53)%Z).
    { apply Zn_abs_le. rewrite <- bpow_nonneg_IZR by lia. lra. }
    destruct (Z.eq_dec (Z.abs n) (2 ^ 53)) as [E | NE].
    + exists (n / 2)%Z, (cexp x + 1)%Z. split; [ | split].
      * unfold fl. fold n. rewrite bpow_add.
        replace (bpow 1) with 2 by (unfold bpow; simpl; lra).
        assert (En : n = (2 * (n / 2))%Z).
        { assert (n = 2 ^ 53 \/ n = - 2 ^ 53)%Z as [-> | ->] by lia; reflexivity. }
        rewrite En at 1. rewrite mult_IZR. ring.
      * assert (n = 2 ^ 53 \/ n = - 2 ^ 53)%Z as [-> | ->] by lia; reflexivity.
      * unfold cexp. lia.
    + exists n, (cexp x). split; [reflexivity | split; [lia | unfold cexp; lia]].
Qed.

Lemma fl_idem x : fl (fl x) = fl x.
Proof. apply format_fl, fl_format. Qed.

Lemma fl_nonneg x : 0 <= x -> 0 <= fl x.
Proof.
  intros Hx. unfold fl. apply Rmult_le_pos; [ | left; apply bpow_gt_0].
  apply IZR_le. rewrite <- (Zn_IZR 0). apply Zn_le.
  apply Rmult_le_pos; [exact Hx | left; apply bpow_gt_0].
Qed.

Lemma cexp_le x y : x <> 0 -> Rabs x <= Rabs y -> (cexp x <= cexp y)%Z.
Proof. intros Hx H. pose proof (mag_le_abs x y Hx H). unfold cexp. lia. Qed.

Lemma fl_le_pos x y : 0 < x -> x <= y -> fl x <= fl y.
Proof.
  intros Hx Hxy.
  assert (Hx0 : x <> 0) by lra. assert (Hy0 : y <> 0) by lra.
  assert (Habs : Rabs x <= Rabs y) by (rewrite !Rabs_pos_eq by lra; exact Hxy).
  pose proof (cexp_le x y Hx0 Habs) as Hc.
  destruct (Z.eq_dec (cexp x) (cexp y)) as [E | NE].
  - unfold fl. rewrite E. apply Rmult_le_compat_r; [left; apply bpow_gt_0 | ].
    apply IZR_le, Zn_le. apply Rmult_le_compat_r; [left; apply bpow_gt_0 | exact Hxy].
  - assert (Hlt : (cexp x < cexp y)%Z) by lia.
    assert (Hcy : cexp y = (mag y - 53)%Z) by (unfold cexp in *; lia).
    assert (Hmag : (mag x < mag y)%Z) by (unfold cexp in *; lia).
    destruct (mag_spec x Hx0) as [_ Hxhi]. destruct (mag_spec y Hy0) as [Hylo _].
    rewrite Rabs_pos_eq in Hxhi, Hylo by lra.
    apply Rle_trans with (bpow (mag y - 1)).
    + (* fl x <= bpow (mag x) <= bpow (mag y - 1) *)
      destruct (Z_le_gt_dec (cexp x) (mag x)) as [Hk | Hk].
      * apply Rle_trans with (bpow (mag x)); [ | apply bpow_le; lia].
        unfold fl. replace (bpow (mag x)) with (IZR (2 ^ (mag x - cexp x)) * bpow (cexp x)).
        2:{ rewrite <- bpow_nonneg_IZR by lia. rewrite <- bpow_add. f_equal. lia. }
        apply Rmult_le_compat_r; [left; apply bpow_gt_0 | ].
        apply IZR_le. rewrite <- (Zn_IZR (2 ^ (mag x - cexp x))). apply Zn_le.
        rewrite <- bpow_nonneg_IZR by lia.
        replace (mag x - cexp x)%Z with (mag x + - cexp x)%Z by lia. rewrite bpow_add.
        apply Rmult_le_compat_r; [left; apply bpow_gt_0 | lra].
      * apply Rle_trans with 0; [ | left; apply bpow_gt_0].
        unfold fl. 
        assert (Hz : (ZnearestE (x * bpow (- cexp x)) <= 0)%Z).
        { assert (Hs : x * bpow (- cexp x) <= / 2).
          { apply Rle_trans with (bpow (mag x) * bpow (- cexp x)).
            - apply Rmult_le_compat_r; [left; apply bpow_gt_0 | lra].
            - rewrite <- bpow_add. apply Rle_trans with (bpow (-1)).
              + apply bpow_le. lia.
              + unfold bpow. simpl. lra. }
          pose proof (Zn_le _ _ Hs) as Hn.
          assert (Hhalf : ZnearestE (/ 2) = 0%Z).
          { assert (Hf : Zfloor (/ 2) = 0%Z) by (apply Zfloor_eq; simpl; lra).
            destruct (Zn_cases (/ 2)) as [[H1 E1] | [[H1 E1] | [H1 E1]]];
              rewrite Hf in *; simpl in *; try lra; exact E1. }
          lia. }
        apply IZR_le in Hz. pose proof (bpow_gt_0 (cexp x)). nra.
    + (* bpow (mag y - 1) <= fl y *)
      unfold fl. rewrite Hcy.
      replace (bpow (mag y - 1)) with (IZR (2 ^ 52) * bpow (mag y - 53)).
      2:{ rewrite <- bpow_nonneg_IZR by lia. rewrite <- bpow_add. f_equal. lia. }
      apply Rmult_le_compat_r; [left; apply bpow_gt_0 | ].
      apply IZR_le. rewrite <- (Zn_IZR (2 ^ 52)) at 1. apply Zn_le.
      rewrite <- bpow_nonneg_IZR by lia.
      replace 52%Z with (mag y - 1 + - (mag y - 53))%Z at 1 by lia. rewrite bpow_add.
      apply Rmult_le_compat_r; [left; apply bpow_gt_0 | lra].
Qed.

Lemma fl_le x y : x <= y -> fl x <= fl y.
Proof.
  intros Hxy.
  destruct (Rlt_le_dec 0 x) as [Hx | Hx].
  - apply fl_le_pos; assumption.
  - destruct (Rle_lt_dec 0 y) as [Hy | Hy].
    + apply Rle_trans with 0; [ | apply fl_nonneg; exact Hy].
      replace x with (- - x) by ring. rewrite fl_opp.
      pose proof (fl_nonneg (- x) ltac:(lra)). lra.
    + replace x with (- - x) by ring. replace y with (- - y) by ring.
      rewrite (fl_opp (- x)), (fl_opp (- y)).
      pose proof (fl_le_pos (- y) (- x) ltac:(lra) ltac:(lra)). lra.
Qed.

Lemma fl_ge_const c x : fl c = c -> c <= x -> c <= fl x.
Proof. intros E H. rewrite <- E. apply fl_le. exact H. Qed.

Lemma fl_le_const c x : fl c = c -> x <= c -> fl x <= c.
Proof. intros E H. rewrite <- E. apply fl_le. exact H. Qed.

Lemma fl_error_cexp x : Rabs (fl x - x) <= / 2 * bpow (cexp x).
Proof.
  unfold fl. set (c := cexp x).
  replace (IZR (ZnearestE (x * bpow (- c))) * bpow c - x)
    with ((IZR (ZnearestE (x * bpow (- c))) - x * bpow (- c)) * bpow c).
  2:{ rewrite Rmult_minus_distr_r, Rmult_assoc, (Rmult_comm (bpow (- c))), bpow_cancel.
      ring. }
  rewrite Rabs_mult, (Rabs_pos_eq (bpow c)) by (left; apply bpow_gt_0).
  apply Rmult_le_compat_r; [left; apply bpow_gt_0 | apply Zn_bound].
Qed.

Lemma fl_error x : bpow (-1022) <= Rabs x -> Rabs (fl x - x) <= u * Rabs x.
Proof.
  intros Hx. pose proof (mag_ge_bpow x (-1021) Hx) as Hm.
  assert (Hx0 : x <> 0).
  { intros ->. rewrite Rabs_R0 in Hx. pose proof (bpow_gt_0 (-1022)). lra. }
  destruct (mag_spec x Hx0) as [Hlo _].
  eapply Rle_trans; [apply fl_error_cexp | ].
  replace (cexp x) with (-53 + 1 + (mag x - 1))%Z by (unfold cexp; lia).
  rewrite !bpow_add. replace (bpow 1) with 2 by (unfold bpow; simpl; lra).
  unfold u. pose proof (bpow_gt_0 (-53)). nra.
Qed.

Lemma fl_error_eta x : Rabs (fl x - x) <= u * Rabs x + eta.
Proof.
  pose proof (bpow_gt_0 (-1075)) as Heta. pose proof (bpow_gt_0 (-53)) as Hu.
  destruct (Req_dec x 0) as [-> | Hx0].
  { rewrite fl_0, Rminus_0_r, Rabs_R0. unfold eta. lra. }
  destruct (Rle_lt_dec (bpow (-1022)) (Rabs x)) as [H | H].
  - pose proof (fl_error x H). unfold eta. lra.
  - assert (Hc : cexp x = (-1074)%Z).
    { pose proof (mag_lt_bpow x (-1022) Hx0 H). unfold cexp. lia. }
    eapply Rle_trans; [apply fl_error_cexp | ]. rewrite Hc.
    replace (-1074)%Z with (1 + -1075)%Z by lia. rewrite bpow_add.
    replace (bpow 1) with 2 by (unfold bpow; simpl; lra).
    unfold eta, u. pose proof (Rabs_pos x). nra.
Qed.

Lemma fl_half x : bpow (-1021) <= Rabs x -> fl (x / 2) = fl x / 2.
Proof.
  intros Hx. pose proof (mag_ge_bpow x (-1020) Hx) as Hm.
  assert (Hx0 : x <> 0).
  { intros ->. rewrite Rabs_R0 in Hx. pose proof (bpow_gt_0 (-1021)). lra. }
  destruct (mag_spec x Hx0) as [Hlo Hhi].
  assert (Hmag : mag (x / 2) = (mag x - 1)%Z).
  { apply mag_unique. unfold Rdiv. rewrite Rabs_mult, (Rabs_pos_eq (/ 2)) by lra.
    replace (mag x - 1 - 1)%Z with (mag x - 1 + -1)%Z by lia.
    replace (mag x - 1)%Z with (mag x + -1)%Z at 2 by lia. rewrite !bpow_add.
    replace (bpow (-1)) with (/ 2) by (unfold bpow; simpl; lra). lra. }
  assert (Hc : cexp (x / 2) = (cexp x + -1)%Z) by (unfold cexp; rewrite Hmag; lia).
  unfold fl. rewrite Hc.
  replace (x / 2 * bpow (- (cexp x + -1))) with (x * bpow (- cexp x)).
  2:{ replace (- (cexp x + -1))%Z with (- cexp x + 1)%Z by lia. rewrite bpow_add.
      replace (bpow 1) with 2 by (unfold bpow; simpl; lra). field. }
  rewrite bpow_add. replace (bpow (-1)) with (/ 2) by (unfold bpow; simpl; lra). field.
Qed.

Lemma fl_double x : bpow (-1022) <= Rabs x -> fl (x * 2) = fl x * 2.
Proof.
  intros Hx. pose proof (mag_ge_bpow x (-1021) Hx) as Hm.
  assert (Hx0 : x <> 0).
  { intros ->. rewrite Rabs_R0 in Hx. pose proof (bpow_gt_0 (-1022)). lra. }
  destruct (mag_spec x Hx0) as [Hlo Hhi].
  assert (Hmag : mag (x * 2) = (mag x + 1)%Z).
  { apply mag_unique. rewrite Rabs_mult, (Rabs_pos_eq 2) by lra.
    replace (mag x + 1 - 1)%Z with (mag x - 1 + 1)%Z by lia.
    rewrite !bpow_add.
    replace (bpow 1) with 2 by (unfold bpow; simpl; lra). lra. }
  assert (Hc : cexp (x * 2) = (cexp x + 1)%Z) by (unfold cexp; rewrite Hmag; lia).
  unfold fl. rewrite Hc.
  replace (x * 2 * bpow (- (cexp x + 1))) with (x * bpow (- cexp x)).
  2:{ replace (- (cexp x + 1))%Z with (- cexp x + -1)%Z by lia. rewrite bpow_add.
      replace (bpow (-1)) with (/ 2) by (unfold bpow; simpl; lra). field. }
  rewrite bpow_add. replace (bpow 1) with 2 by (unfold bpow; simpl; lra). ring.
Qed.


Lemma fl_eval x (m e : Z) :
  bpow (e - 1) <= Rabs x < bpow e -> (-1074 <= e - 53)%Z ->
  Rabs (x * bpow (53 - e) - IZR m) < / 2 ->
  fl x = IZR m * bpow (e - 53).
Proof.
  intros Hx He Hm. pose proof (mag_unique x e Hx) as Hmag.
  unfold fl. replace (cexp x) with (e - 53)%Z by (unfold cexp; lia).
  replace (- (e - 53))%Z with (53 - e)%Z by lia.
  rewrite (Zn_unique _ m Hm). reflexivity.
Qed.

Lemma format_IZR (k : Z) : (Z.abs k < 2 ^ 53)%Z -> format (IZR k).
Proof. intros Hk. exists k, 0%Z. split; [rewrite bpow_0; ring | split; [exact Hk | lia]]. Qed.

Lemma format_opp x : format x -> format (- x).
Proof.
  intros (m & e & -> & Hm & He). exists (- m)%Z, e.
  split; [rewrite opp_IZR; ring | split; [lia | exact He]].
Qed.

End Rounding.

(** ** Extremes of lists of reals *)

Section Extremes.
Local Open Scope R_scope.

Lemma is_min_unique l m m' : Rect.is_min l m -> Rect.is_min l m' -> m = m'.
Proof. intros [Hin Hlb] [Hin' Hlb']. apply Rle_antisym; auto. Qed.

Lemma is_max_unique l m m' : Rect.is_max l m -> Rect.is_max l m' -> m = m'.
Proof. intros [Hin Hub] [Hin' Hub']. apply Rle_antisym; auto. Qed.

Lemma fold_right_Rmin d l :
  let m := fold_right Rmin d l in
  m <= d /\ (forall v, In v l -> m <= v) /\ (m = d \/ In m l).
Proof.
  induction l as [|a l IH]; simpl.
  - split; [lra | split; [tauto | auto]].
  - destruct IH as (Hd & Hlb & Hin).
    set (m := fold_right Rmin d l) in *.
    split; [ | split].
    + apply Rle_trans with m; [apply Rmin_r | exact Hd].
    + intros v [<- | Hv]; [apply Rmin_l | ].
      apply Rle_trans with m; [apply Rmin_r | auto].
    + unfold Rmin. destruct (Rle_dec a m); [right; left; reflexivity | ].
      destruct Hin; [left; assumption | right; right; assumption].
Qed.

Lemma fold_right_Rmax d l :
  let m := fold_right Rmax d l in
  d <= m /\ (forall v, In v l -> v <= m) /\ (m = d \/ In m l).
Proof.
  induction l as [|a l IH]; simpl.
  - split; [lra | split; [tauto | auto]].
  - destruct IH as (Hd & Hub & Hin).
    set (m := fold_right Rmax d l) in *.
    split; [ | split].
    + apply Rle_trans with m; [exact Hd | apply Rmax_r].
    + intros v [<- | Hv]; [apply Rmax_l | ].
      apply Rle_trans with m; [auto | apply Rmax_r].
    + unfold Rmax. destruct (Rle_dec a m).
      * destruct Hin; [left; assumption | right; right; assumption].
      * right; left; reflexivity.
Qed.

Lemma list_min_is_min l : l <> [] -> Rect.is_min l (Rect.list_min l).
Proof.
  destruct l as [|a l]; [congruence | intros _].
  unfold Rect.list_min. cbn [hd].
  destruct (fold_right_Rmin a (a :: l)) as (_ & Hlb & [Heq | Hin]).
  - split; [rewrite Heq; left; reflexivity | exact Hlb].
  - split; assumption.
Qed.

Lemma list_max_is_max l : l <> [] -> Rect.is_max l (Rect.list_max l).
Proof.
  destruct l as [|a l]; [congruence | intros _].
  unfold Rect.list_max. cbn [hd].
  destruct (fold_right_Rmax a (a :: l)) as (_ & Hub & [Heq | Hin]).
  - split; [rewrite Heq; left; reflexivity | exact Hub].
  - split; assumption.
Qed.

Lemma min_from_spec l : forall init,
  let m := Rect.min_from init l in
  m <= init /\ (forall v, In v l -> m <= v) /\ (m = init \/ In m l).
Proof.
  induction l as [|a l IH]; intros init; simpl.
  - split; [lra | split; [tauto | auto]].
  - destruct (IH (Rmin a init)) as (Hd & Hlb & Hin).
    fold (Rect.min_from (Rmin a init) l) in *.
    set (m := Rect.min_from (Rmin a init) l) in *.
    split; [ | split].
    + apply Rle_trans with (Rmin a init); [exact Hd | apply Rmin_r].
    + intros v [<- | Hv]; [ | auto].
      apply Rle_trans with (Rmin a init); [exact Hd | apply Rmin_l].
    + destruct Hin as [Heq | Hin]; [ | right; right; exact Hin].
      rewrite Heq. unfold Rmin. destruct (Rle_dec a init); [right; left | left]; reflexivity.
Qed.

Lemma max_from_spec l : forall init,
  let m := Rect.max_from init l in
  init <= m /\ (forall v, In v l -> v <= m) /\ (m = init \/ In m l).
Proof.
  induction l as [|a l IH]; intros init; simpl.
  - split; [lra | split; [tauto | auto]].
  - destruct (IH (Rmax a init)) as (Hd & Hub & Hin).
    fold (Rect.max_from (Rmax a init) l) in *.
    set (m := Rect.max_from (Rmax a init) l) in *.
    split; [ | split].
    + apply Rle_trans with (Rmax a init); [apply Rmax_r | exact Hd].
    + intros v [<- | Hv]; [ | auto].
      apply Rle_trans with (Rmax a init); [apply Rmax_l | exact Hd].
    + destruct Hin as [Heq | Hin]; [ | right; right; exact Hin].
      rewrite Heq. unfold Rmax. destruct (Rle_dec a init); [left | right; left]; reflexivity.
Qed.

(** With an element below the sentinel, the running minimum is the minimum
    of the list. *)
Lemma min_from_list_min init l v :
  In v l -> v <= init -> Rect.min_from init l = Rect.list_min l.
Proof.
  intros Hv Hle.
  assert (Hne : l <> []) by (intros ->; contradiction).
  apply is_min_unique with l; [ | apply list_min_is_min; exact Hne].
  destruct (min_from_spec l init) as (Hd & Hlb & [Heq | Hin]); split; auto.
  assert (Rect.min_from init l = v) as ->; [ | exact Hv].
  apply Rle_antisym; [auto | rewrite Heq; exact Hle].
Qed.

Lemma max_from_list_max init l v :
  In v l -> init <= v -> Rect.max_from init l = Rect.list_max l.
Proof.
  intros Hv Hle.
  assert (Hne : l <> []) by (intros ->; contradiction).
  apply is_max_unique with l; [ | apply list_max_is_max; exact Hne].
  destruct (max_from_spec l init) as (Hd & Hub & [Heq | Hin]); split; auto.
  assert (Rect.max_from init l = v) as ->; [ | exact Hv].
  apply Rle_antisym; [rewrite Heq; exact Hle | auto].
Qed.

(** A nondecreasing map commutes with the extremes. *)
Lemma list_max_map (f : R -> R) l :
  l <> [] -> (forall a b, a <= b -> f a <= f b) ->
  Rect.list_max (map f l) = f (Rect.list_max l).
Proof.
  intros Hne Hf.
  destruct (list_max_is_max _ Hne) as [Hin Hub].
  apply is_max_unique with (map f l).
  - apply list_max_is_max. destruct l; [congruence | discriminate].
  - split; [apply in_map; exact Hin | ].
    intros v Hv. apply in_map_iff in Hv. destruct Hv as (a & <- & Ha). auto.
Qed.

Lemma list_min_map (f : R -> R) l :
  l <> [] -> (forall a b, a <= b -> f a <= f b) ->
  Rect.list_min (map f l) = f (Rect.list_min l).
Proof.
  intros Hne Hf.
  destruct (list_min_is_min _ Hne) as [Hin Hlb].
  apply is_min_unique with (map f l).
  - apply list_min_is_min. destruct l; [congruence | discriminate].
  - split; [apply in_map; exact Hin | ].
    intros v Hv. apply in_map_iff in Hv. destruct Hv as (a & <- & Ha). auto.
Qed.

Lemma list_min_le_max l : l <> [] -> Rect.list_min l <= Rect.list_max l.
Proof.
  intros Hne. destruct (list_min_is_min _ Hne) as [Hin _].
  destruct (list_max_is_max _ Hne) as [_ Hub]. auto.
Qed.

End Extremes.

(** ** The Bounding-Box Normalizer *)

Section Normalizer.
Local Open Scope R_scope.
Implicit Types (nodes : list (Rect.Point R)).

Lemma DBL_MAX_ge : 2 ^ 1023 <= Rect.DBL_MAX.
Proof.
  unfold Rect.DBL_MAX.
  assert (H52 : 1 <= 2 ^ 52) by (apply pow_R1_Rle; lra).
  assert (Hinv : / 2 ^ 52 <= 1).
  { rewrite <- Rinv_1. apply Rinv_le_contravar; lra. }
  assert (Hpos : 0 < 2 ^ 1023) by (apply pow_lt; lra).
  set (a := / 2 ^ 52) in *. set (b := 2 ^ 1023) in *. nra.
Qed.

Lemma DBL_MAX_ge_pow (n : nat) : (n <= 1023)%nat -> 2 ^ n <= Rect.DBL_MAX.
Proof.
  intros Hn. apply Rle_trans with (2 ^ 1023); [ | apply DBL_MAX_ge].
  apply Rle_pow; [lra | exact Hn].
Qed.

Lemma DBL_MAX_pos : 0 < Rect.DBL_MAX.
Proof.
  apply Rlt_le_trans with (2 ^ 0); [simpl; lra | apply DBL_MAX_ge_pow; lia].
Qed.

Lemma scan_fold nodes : forall a b c d,
  fold_left
    (fun acc p =>
       let '(xMin, yMin, xMax, yMax) := acc in
       let '(x, y) := p in
       (Rmin x xMin, Rmin y yMin, Rmax x xMax, Rmax y yMax))
    nodes (a, b, c, d) =
  (Rect.min_from a (map fst nodes), Rect.min_from b (map snd nodes),
   Rect.max_from c (map fst nodes), Rect.max_from d (map snd nodes)).
Proof.
  induction nodes as [|[x y] nodes IH]; intros a b c d; simpl; [reflexivity | ].
  rewrite IH. reflexivity.
Qed.

Lemma scan_components nodes :
  Rect.scan nodes =
  (Rect.min_from Rect.DBL_MAX (map fst nodes), Rect.min_from Rect.DBL_MAX (map snd nodes),
   Rect.max_from (- Rect.DBL_MAX) (map fst nodes),
   Rect.max_from (- Rect.DBL_MAX) (map snd nodes)).
Proof. apply scan_fold. Qed.

(** The scan finds the extremes of the node set as soon as each axis has a
    coordinate that is not beyond the sentinels. *)
Lemma scan_extremes nodes (x1 x2 y1 y2 : R) :
  In x1 (map fst nodes) -> x1 <= Rect.DBL_MAX ->
  In x2 (map fst nodes) -> - Rect.DBL_MAX <= x2 ->
  In y1 (map snd nodes) -> y1 <= Rect.DBL_MAX ->
  In y2 (map snd nodes) -> - Rect.DBL_MAX <= y2 ->
  Rect.scan nodes =
  (Rect.list_min (map fst nodes), Rect.list_min (map snd nodes),
   Rect.list_max (map fst nodes), Rect.list_max (map snd nodes)).
Proof.
  intros. rewrite scan_components.
  rewrite min_from_list_min with (v := x1) by assumption.
  rewrite min_from_list_min with (v := y1) by assumption.
  rewrite max_from_list_max with (v := x2) by assumption.
  rewrite max_from_list_max with (v := y2) by assumption.
  reflexivity.
Qed.

(** What the passes compute from the result of the scan. *)
Lemma normalizer_unfold nodes (xMin yMin xMax yMax : R) :
  Rect.scan nodes = (xMin, yMin, xMax, yMax) ->
  Rect.lX nodes = fl (xMax - xMin) /\ Rect.lY nodes = fl (yMax - yMin) /\
  Rect.center nodes = (xMin + fl (fl (xMax - xMin) / 2), yMin + fl (fl (yMax - yMin) / 2)) /\
  Rect.scale nodes = fl (180 / fl (yMax - yMin)) /\
  Rect.recenter nodes =
    map (fun p => (fl (fl (fst p - xMin) - fl (fl (xMax - xMin) / 2)),
                   fl (fl (snd p - yMin) - fl (fl (yMax - yMin) / 2)))) nodes.
Proof.
  intros Hscan.
  assert (HX : Rect.lX nodes = fl (xMax - xMin)) by (unfold Rect.lX; rewrite Hscan; reflexivity).
  assert (HY : Rect.lY nodes = fl (yMax - yMin)) by (unfold Rect.lY; rewrite Hscan; reflexivity).
  repeat split; try assumption.
  - unfold Rect.center. rewrite Hscan, HX, HY. reflexivity.
  - unfold Rect.scale. rewrite HY. reflexivity.
  - unfold Rect.recenter. rewrite Hscan, HX, HY.
    apply map_ext. intros [x y]. reflexivity.
Qed.

Lemma map_id_on {A : Type} (f : A -> A) (l : list A) :
  (forall a, In a l -> f a = a) -> map f l = l.
Proof.
  induction l as [|a l IH]; simpl; intros H; [reflexivity | ].
  rewrite H by (left; reflexivity). rewrite IH; [reflexivity | ].
  intros b Hb. apply H. right. exact Hb.
Qed.

End Normalizer.

(** ** The structured mesh and its shear *)

Section Lattice.

Lemma length_flat_map_uniform {A B : Type} (f : A -> list B) (n : nat) (l : list A) :
  (forall a, In a l -> List.length (f a) = n) ->
  List.length (flat_map f l) = (List.length l * n)%nat.
Proof.
  induction l as [|a l IH]; intros Hlen; simpl; [reflexivity | ].
  rewrite length_app, IH, Hlen; auto with datatypes.
Qed.

Lemma nth_flat_map_uniform {A B : Type} (f : A -> list B) (n : nat) (da : A) (db : B)
  (l : list A) :
  (forall a, In a l -> List.length (f a) = n) ->
  forall j i, (j < List.length l)%nat -> (i < n)%nat ->
  nth (j * n + i) (flat_map f l) db = nth i (f (nth j l da)) db.
Proof.
  induction l as [|a l IH]; intros Hlen j i Hj Hi; simpl in Hj; [lia | ].
  assert (Ha : List.length (f a) = n) by (apply Hlen; left; reflexivity).
  simpl flat_map. destruct j as [|j].
  - simpl. apply app_nth1. lia.
  - replace (S j * n + i)%nat with (List.length (f a) + (j * n + i))%nat by (rewrite Ha; lia).
    rewrite app_nth2_plus. simpl nth. apply IH; [ | lia | exact Hi].
    intros b Hb. apply Hlen. right. exact Hb.
Qed.

Lemma seq_nth_0 (n i : nat) : (i < n)%nat -> nth i (seq 0 n) 0%nat = i.
Proof. intros Hi. rewrite seq_nth by exact Hi. reflexivity. Qed.

Lemma nth_map_seq {A : Type} (f : nat -> A) (n i : nat) (d : A) :
  (i < n)%nat -> nth i (map f (seq 0 n)) d = f i.
Proof.
  intros Hi. rewrite nth_indep with (d' := f 0%nat) by (rewrite length_map, length_seq; exact Hi).
  rewrite map_nth, seq_nth_0 by exact Hi. reflexivity.
Qed.

Local Open Scope R_scope.

(** The spacing of [AtlasMeshRect]: the points 0, 1, ..., n - 1. *)
Lemma LinearSpacing_unit (n : Z) :
  (0 < n)%Z ->
  Rect.LinearSpacing 0 (IZR n) (Z.to_nat n) false = map INR (seq 0 (Z.to_nat n)).
Proof.
  intros Hn. unfold Rect.LinearSpacing. apply map_ext. intros i.
  rewrite (INR_IZR_INZ (Z.to_nat n)), Z2Nat.id by lia.
  assert (IZR n <> 0) by (apply not_0_IZR; lia).
  field. assumption.
Qed.

Variables nx ny : nat.

Local Abbreviation grid :=
  (Rect.StructuredMeshGenerator_generate (map INR (seq 0 nx)) (map INR (seq 0 ny))).

Lemma grid_nodes_size : Rect.nodes_size grid = (ny * nx)%nat.
Proof.
  unfold Rect.nodes_size, Rect.StructuredMeshGenerator_generate. cbn [Rect.xy].
  rewrite length_flat_map_uniform with (n := nx).
  - rewrite length_map, length_seq. reflexivity.
  - intros a _. rewrite !length_map, length_seq. reflexivity.
Qed.

Lemma grid_getXY (i j : nat) :
  (i < nx)%nat -> (j < ny)%nat ->
  Rect.getXY grid (Rect.node_id nx i j) = (INR i, INR j).
Proof.
  intros Hi Hj.
  unfold Rect.getXY, Rect.StructuredMeshGenerator_generate, Rect.node_id.
  cbn [Rect.xy].
  rewrite nth_flat_map_uniform with (n := nx) (da := 0).
  - rewrite nth_map_seq by exact Hj.
    rewrite map_map, nth_map_seq by exact Hi. reflexivity.
  - intros a _. rewrite !length_map, length_seq. reflexivity.
  - rewrite length_map, length_seq. exact Hj.
  - exact Hi.
Qed.

Lemma grid_cells_size : Rect.cells_size grid = ((ny - 1) * ((nx - 1) * 2))%nat.
Proof.
  unfold Rect.cells_size, Rect.StructuredMeshGenerator_generate.
  cbn [Rect.node_connectivity]. rewrite !length_map, !length_seq.
  rewrite length_flat_map_uniform with (n := ((nx - 1) * 2)%nat).
  - rewrite length_seq. reflexivity.
  - intros j _. rewrite length_flat_map_uniform with (n := 2%nat).
    + rewrite length_seq. reflexivity.
    + intros i _. reflexivity.
Qed.

(** The cell at index [j * ((nx - 1) * 2) + i * 2] is the first triangle of
    lattice cell (i, j). *)
Lemma grid_cell_up (i j : nat) :
  (i < nx - 1)%nat -> (j < ny - 1)%nat ->
  Rect.cellToNode grid (j * ((nx - 1) * 2) + i * 2) = Rect.tri_up nx i j.
Proof.
  intros Hi Hj.
  unfold Rect.cellToNode, Rect.StructuredMeshGenerator_generate.
  cbn [Rect.node_connectivity]. rewrite !length_map, !length_seq.
  rewrite nth_flat_map_uniform with (n := ((nx - 1) * 2)%nat) (da := 0%nat).
  - rewrite seq_nth_0 by exact Hj.
    replace (i * 2)%nat with (i * 2 + 0)%nat by lia.
    rewrite nth_flat_map_uniform with (n := 2%nat) (da := 0%nat).
    + rewrite seq_nth_0 by exact Hi. reflexivity.
    + intros a _. reflexivity.
    + rewrite length_seq. exact Hi.
    + lia.
  - intros a _. rewrite length_flat_map_uniform with (n := 2%nat).
    + rewrite length_seq. reflexivity.
    + intros b _. reflexivity.
  - rewrite length_seq. exact Hj.
  - lia.
Qed.

(** Every cell is one of the two triangles of a lattice cell. *)
Lemma grid_cells_in (c : nat * nat * nat) :
  In c (Rect.node_connectivity grid) ->
  exists i j, (i < nx - 1)%nat /\ (j < ny - 1)%nat /\
              (c = Rect.tri_up nx i j \/ c = Rect.tri_down nx i j).
Proof.
  unfold Rect.StructuredMeshGenerator_generate. cbn [Rect.node_connectivity].
  rewrite !length_map, !length_seq.
  intros Hc. apply in_flat_map in Hc. destruct Hc as (j & Hj & Hc).
  apply in_flat_map in Hc. destruct Hc as (i & Hi & Hc).
  apply in_seq in Hj. apply in_seq in Hi.
  exists i, j. split; [lia | split; [lia | ]].
  simpl in Hc. destruct Hc as [<- | [<- | []]]; auto.
Qed.

End Lattice.

(** ** The submesh extraction *)

Section Extract.
Variables (mesh : Rect.Mesh R) (keep : list nat).

Local Abbreviation sub := (Rect.AtlasExtractSubMeshMinimal mesh keep).
Local Abbreviation renumber := (fun n => Rect.index_of n (Rect.keepNodes mesh keep)).

Lemma keepNodes_in (n : nat) :
  In n (Rect.keepNodes mesh keep) <->
  (n < Rect.nodes_size mesh)%nat /\ In n (Rect.referenced mesh keep).
Proof.
  unfold Rect.keepNodes. rewrite filter_In, in_seq, existsb_exists. split.
  - intros [Hn (m & Hm & Heq)]. apply Nat.eqb_eq in Heq. subst m. split; [lia | exact Hm].
  - intros [Hn Hr]. split; [lia | ]. exists n. split; [exact Hr | apply Nat.eqb_refl].
Qed.

Lemma referenced_in (n : nat) :
  In n (Rect.referenced mesh keep) <->
  exists cellIdx, In cellIdx keep /\ In n (Rect.cell_nodes (Rect.cellToNode mesh cellIdx)).
Proof.
  unfold Rect.referenced. rewrite in_flat_map. split.
  - intros (c & Hc & Hn). apply in_map_iff in Hc. destruct Hc as (cellIdx & <- & Hk).
    exists cellIdx. split; assumption.
  - intros (cellIdx & Hk & Hn). exists (Rect.cellToNode mesh cellIdx).
    split; [apply in_map; exact Hk | exact Hn].
Qed.

Lemma index_of_nth (n : nat) (l : list nat) :
  In n l -> (Rect.index_of n l < List.length l)%nat /\ nth (Rect.index_of n l) l 0%nat = n.
Proof.
  induction l as [|m l IH]; simpl; [tauto | ]. intros Hin.
  destruct (Nat.eqb_spec n m) as [-> | Hne].
  - split; [lia | reflexivity].
  - destruct Hin as [Heq | Hin]; [congruence | ].
    destruct (IH Hin). split; [lia | assumption].
Qed.

Lemma sub_xy : Rect.xy sub = map (Rect.getXY mesh) (Rect.keepNodes mesh keep).
Proof. reflexivity. Qed.

Lemma sub_cells :
  Rect.node_connectivity sub =
  map (fun c => let '(n0, n1, n2) := c in (renumber n0, renumber n1, renumber n2))
      (map (Rect.cellToNode mesh) keep).
Proof. reflexivity. Qed.

(** A retained node keeps its coordinates under its new number. *)
Lemma sub_getXY (n : nat) :
  In n (Rect.keepNodes mesh keep) ->
  (renumber n < Rect.nodes_size sub)%nat /\
  Rect.getXY sub (renumber n) = Rect.getXY mesh n.
Proof.
  intros Hin. destruct (index_of_nth _ _ Hin) as [Hlt Hnth].
  unfold Rect.nodes_size. rewrite sub_xy, length_map. split; [exact Hlt | ].
  unfold Rect.getXY at 1. rewrite sub_xy.
  rewrite nth_indep with (d' := Rect.getXY mesh 0%nat) by (rewrite length_map; exact Hlt).
  rewrite map_nth, Hnth. reflexivity.
Qed.

(** The nodes of the submesh are the nodes of the kept cells. *)
Lemma sub_xy_in (cellIdx n : nat) :
  In cellIdx keep -> In n (Rect.cell_nodes (Rect.cellToNode mesh cellIdx)) ->
  (n < Rect.nodes_size mesh)%nat ->
  In (Rect.getXY mesh n) (Rect.xy sub).
Proof.
  intros Hk Hn Hlt. rewrite sub_xy. apply in_map. apply keepNodes_in.
  split; [exact Hlt | ]. apply referenced_in. exists cellIdx. split; assumption.
Qed.

Lemma sub_xy_inv (p : Rect.Point R) :
  In p (Rect.xy sub) ->
  exists cellIdx n, In cellIdx keep /\
                    In n (Rect.cell_nodes (Rect.cellToNode mesh cellIdx)) /\
                    (n < Rect.nodes_size mesh)%nat /\ p = Rect.getXY mesh n.
Proof.
  rewrite sub_xy. intros Hp. apply in_map_iff in Hp. destruct Hp as (n & <- & Hn).
  apply keepNodes_in in Hn. destruct Hn as [Hlt Hr].
  apply referenced_in in Hr. destruct Hr as (cellIdx & Hk & Hn).
  exists cellIdx, n. auto.
Qed.

(** Every cell of the submesh is a kept cell with its vertices where they
    were. *)
Lemma sub_cell_vertices (c' : nat * nat * nat) :
  (forall cellIdx, In cellIdx keep -> Rect.valid_cell mesh cellIdx) ->
  In c' (Rect.node_connectivity sub) ->
  exists cellIdx, In cellIdx keep /\
    (let '(n0', n1', n2') := c' in
     (n0' < Rect.nodes_size sub)%nat /\ (n1' < Rect.nodes_size sub)%nat /\
     (n2' < Rect.nodes_size sub)%nat) /\
    Rect.vertices sub c' = Rect.vertices mesh (Rect.cellToNode mesh cellIdx).
Proof.
  intros Hvalid Hc. rewrite sub_cells in Hc.
  apply in_map_iff in Hc. destruct Hc as (c & <- & Hc).
  apply in_map_iff in Hc. destruct Hc as (cellIdx & <- & Hk).
  exists cellIdx. split; [exact Hk | ].
  destruct (Hvalid _ Hk) as [_ Hnodes].
  assert (Hkn : forall n, In n (Rect.cell_nodes (Rect.cellToNode mesh cellIdx)) ->
                          (n < Rect.nodes_size mesh)%nat ->
                          In n (Rect.keepNodes mesh keep)).
  { intros n Hn Hlt. apply keepNodes_in. split; [exact Hlt | ].
    apply referenced_in. exists cellIdx. split; assumption. }
  destruct (Rect.cellToNode mesh cellIdx) as [[n0 n1] n2].
  destruct Hnodes as (H0 & H1 & H2). simpl in Hkn.
  destruct (sub_getXY _ (Hkn n0 ltac:(auto) H0)) as [L0 E0].
  destruct (sub_getXY _ (Hkn n1 ltac:(auto) H1)) as [L1 E1].
  destruct (sub_getXY _ (Hkn n2 ltac:(auto) H2)) as [L2 E2].
  split; [auto | ].
  unfold Rect.vertices. rewrite E0, E1, E2. reflexivity.
Qed.

End Extract.

(** ** Doubles that an operation returns exactly *)

Section Exact.
Local Open Scope R_scope.

Lemma u_pos : 0 < u.
Proof. apply bpow_gt_0. Qed.

Lemma u_small : u <= / 1000000.
Proof.
  change u with (bpow (Z.opp 53)). rewrite bpow_opp, bpow_nonneg_IZR by lia.
  apply Rinv_le_contravar; [lra | ]. apply IZR_le. vm_compute. discriminate.
Qed.

Lemma bpow_neg_small (k : Z) : (k <= 0)%Z -> bpow k <= 1.
Proof. intros Hk. change 1 with (bpow 0). apply bpow_le. exact Hk. Qed.

Lemma format_half (k : Z) : (Z.abs k < 2 ^ 53)%Z -> format (IZR k / 2).
Proof.
  intros Hk. exists k, (-1)%Z. split; [ | split; [exact Hk | lia]].
  unfold bpow. simpl. field.
Qed.

Lemma format_quarter (k : Z) : (Z.abs k < 2 ^ 53)%Z -> format (IZR k / 4).
Proof.
  intros Hk. exists k, (-2)%Z. split; [ | split; [exact Hk | lia]].
  unfold bpow. simpl. field.
Qed.

Lemma format_twice x : format x -> format (x + x).
Proof.
  intros (m & e & -> & Hm & He). exists m, (e + 1)%Z.
  split; [ | split; [exact Hm | lia]].
  rewrite bpow_add. replace (bpow 1) with 2 by (unfold bpow; simpl; lra). ring.
Qed.

Lemma fl_INR (n : nat) : (Z.of_nat n < 2 ^ 53)%Z -> fl (INR n) = INR n.
Proof. intros Hn. rewrite INR_IZR_INZ. apply format_fl, format_IZR. lia. Qed.

(** Halving a double that is not subnormal is exact. *)
Lemma half_exact x : format x -> x = 0 \/ bpow (-1021) <= Rabs x -> fl (x / 2) = x / 2.
Proof.
  intros Hf [-> | Hx].
  - unfold Rdiv. rewrite Rmult_0_l. apply fl_0.
  - rewrite fl_half by exact Hx. rewrite (format_fl x Hf). reflexivity.
Qed.

(** A sum of two doubles that is below the normal numbers is a double. *)
Lemma format_plus_small a b :
  format a -> format b -> Rabs (a + b) < bpow (-1021) -> format (a + b).
Proof.
  intros (ma & ea & -> & Hma & Hea) (mb & eb & -> & Hmb & Heb) Hs.
  set (k := (ma * 2 ^ (ea + 1074) + mb * 2 ^ (eb + 1074))%Z).
  assert (E : IZR ma * bpow ea + IZR mb * bpow eb = IZR k * bpow (-1074)).
  { unfold k. rewrite plus_IZR, !mult_IZR, <- !bpow_nonneg_IZR by lia.
    rewrite Rmult_plus_distr_r, !Rmult_assoc, <- !bpow_add.
    f_equal; f_equal; f_equal; lia. }
  rewrite E in *. exists k, (-1074)%Z. split; [reflexivity | split; [ | lia]].
  rewrite Rabs_IZR_bpow in Hs.
  apply lt_IZR. rewrite <- bpow_nonneg_IZR by lia.
  apply Rmult_lt_reg_r with (bpow (-1074)); [apply bpow_gt_0 | ].
  rewrite <- bpow_add. exact Hs.
Qed.

(** The sum of two doubles is rounded with a relative error of at most
    [u], underflow or not. *)
Lemma fl_error_plus a b :
  format a -> format b -> Rabs (fl (a + b) - (a + b)) <= u * Rabs (a + b).
Proof.
  intros Ha Hb. pose proof u_pos as Hu.
  destruct (Rle_lt_dec (bpow (-1022)) (Rabs (a + b))) as [H | H].
  - apply fl_error. exact H.
  - rewrite format_fl.
    + replace (a + b - (a + b)) with 0 by ring. rewrite Rabs_R0.
      pose proof (Rabs_pos (a + b)). nra.
    + apply format_plus_small; try assumption.
      apply Rlt_trans with (bpow (-1022)); [exact H | apply bpow_lt; lia].
Qed.

(** A number that is at least 1 is rounded with a relative error of at
    most [u]. *)
Lemma fl_error_ge1 x : 1 <= x -> Rabs (fl x - x) <= u * x.
Proof.
  intros Hx. pose proof (fl_error x) as H. rewrite Rabs_pos_eq in H by lra.
  apply H. apply Rle_trans with 1; [apply bpow_neg_small; lia | exact Hx].
Qed.

Lemma fl_error_minus a b :
  format a -> format b -> Rabs (fl (a - b) - (a - b)) <= u * Rabs (a - b).
Proof. intros Ha Hb. apply (fl_error_plus a (- b) Ha (format_opp b Hb)). Qed.

End Exact.

(** ** The result of the normalizer *)

Section NormalizerResult.
Local Open Scope R_scope.
Variable nodes : list (Rect.Point R).

Local Abbreviation out := (Rect.rescale (Rect.scale nodes) (Rect.recenter nodes)).

Lemma normalizer_map : out = map (Rect.normalize_point nodes) nodes.
Proof.
  unfold Rect.rescale, Rect.recenter, Rect.normalize_point, Rect.normalize_coordinate.
  destruct (Rect.scan nodes) as [[[xMin yMin] xMax] yMax].
  rewrite map_map. apply map_ext. intros [x y]. reflexivity.
Qed.

Lemma normalizer_getXY (conn : list (nat * nat * nat)) (n : nat) :
  (n < List.length nodes)%nat ->
  Rect.getXY (Rect.BoundingBoxNormalizer (Rect.mkMesh nodes conn)) n =
  Rect.normalize_point nodes (Rect.getXY (Rect.mkMesh nodes conn) n).
Proof.
  intros Hn. unfold Rect.getXY, Rect.BoundingBoxNormalizer. cbn [Rect.xy].
  rewrite normalizer_map.
  rewrite nth_indep with (d' := Rect.normalize_point nodes (c0, c0))
    by (rewrite length_map; exact Hn).
  apply map_nth.
Qed.

Lemma normalizer_length : List.length out = List.length nodes.
Proof. rewrite normalizer_map. apply length_map. Qed.

Lemma normalize_coordinate_le (vMin half k a b : R) :
  0 <= k -> a <= b ->
  Rect.normalize_coordinate vMin half k a <= Rect.normalize_coordinate vMin half k b.
Proof.
  intros Hk Hab. unfold Rect.normalize_coordinate.
  apply fl_le. apply Rmult_le_compat_r; [exact Hk | ].
  apply fl_le. apply Rplus_le_compat_r. apply fl_le. lra.
Qed.

(** The two ends of an axis go to the two ends of the result. *)
Lemma normalize_coordinate_ends (vMin vMax k : R) :
  let l := fl (vMax - vMin) in
  l = 0 \/ bpow (-1021) <= Rabs l ->
  Rect.normalize_coordinate vMin (fl (l / 2)) k vMax = fl (l / 2 * k) /\
  Rect.normalize_coordinate vMin (fl (l / 2)) k vMin = - fl (l / 2 * k).
Proof.
  intros l Hl. unfold Rect.normalize_coordinate. fold l.
  assert (Hh : fl (l / 2) = l / 2) by (apply half_exact; [apply fl_format | exact Hl]).
  rewrite Hh. split.
  - replace (l - l / 2) with (l / 2) by field. rewrite <- Hh at 1. rewrite fl_idem, Hh.
    reflexivity.
  - replace (vMin - vMin) with 0 by ring. rewrite fl_0.
    replace (0 - l / 2) with (- (l / 2)) by ring. rewrite fl_opp, <- Hh at 1.
    rewrite fl_idem, Hh.
    replace (- (l / 2) * k) with (- (l / 2 * k)) by ring. apply fl_opp.
Qed.

Hypothesis Hscan :
  Rect.scan nodes =
  (Rect.list_min (map fst nodes), Rect.list_min (map snd nodes),
   Rect.list_max (map fst nodes), Rect.list_max (map snd nodes)).
Hypothesis Hne : nodes <> [].

Lemma normalize_point_eq (p : Rect.Point R) :
  Rect.normalize_point nodes p =
  (Rect.normalize_coordinate (Rect.list_min (map fst nodes)) (fl (Rect.lX nodes / 2))
     (Rect.scale nodes) (fst p),
   Rect.normalize_coordinate (Rect.list_min (map snd nodes)) (fl (Rect.lY nodes / 2))
     (Rect.scale nodes) (snd p)).
Proof. unfold Rect.normalize_point. rewrite Hscan. reflexivity. Qed.

Lemma lX_nonneg : 0 <= Rect.lX nodes.
Proof.
  destruct (normalizer_unfold _ _ _ _ _ Hscan) as (HX & _). rewrite HX.
  apply fl_nonneg.
  assert (Hnx : map fst nodes <> []) by (destruct nodes; [congruence | discriminate]).
  pose proof (list_min_le_max _ Hnx). lra.
Qed.

Lemma lY_nonneg : 0 <= Rect.lY nodes.
Proof.
  destruct (normalizer_unfold _ _ _ _ _ Hscan) as (_ & HY & _). rewrite HY.
  apply fl_nonneg.
  assert (Hny : map snd nodes <> []) by (destruct nodes; [congruence | discriminate]).
  pose proof (list_min_le_max _ Hny). lra.
Qed.

Lemma scale_nonneg : 0 <= Rect.scale nodes.
Proof.
  unfold Rect.scale. apply fl_nonneg. pose proof lY_nonneg as H.
  destruct H as [H | <-].
  - left. apply Rdiv_lt_0_compat; lra.
  - unfold Rdiv. rewrite Rinv_0. lra.
Qed.

Hypothesis HlX : Rect.lX nodes = 0 \/ bpow (-1021) <= Rect.lX nodes.
Hypothesis HlY : bpow (-1021) <= Rect.lY nodes.

(** The extremes of the output on both axes. *)
Lemma normalizer_extremes :
  Rect.list_max (map fst out) = fl (Rect.lX nodes / 2 * Rect.scale nodes) /\
  Rect.list_min (map fst out) = - fl (Rect.lX nodes / 2 * Rect.scale nodes) /\
  Rect.list_max (map snd out) = fl (Rect.lY nodes / 2 * Rect.scale nodes) /\
  Rect.list_min (map snd out) = - fl (Rect.lY nodes / 2 * Rect.scale nodes).
Proof.
  pose proof scale_nonneg as Hk. pose proof lX_nonneg as HX0. pose proof lY_nonneg as HY0.
  destruct (normalizer_unfold _ _ _ _ _ Hscan) as (HX & HY & _).
  assert (Hnx : map fst nodes <> []) by (destruct nodes; [congruence | discriminate]).
  assert (Hny : map snd nodes <> []) by (destruct nodes; [congruence | discriminate]).
  set (fx := Rect.normalize_coordinate (Rect.list_min (map fst nodes))
               (fl (Rect.lX nodes / 2)) (Rect.scale nodes)).
  set (fy := Rect.normalize_coordinate (Rect.list_min (map snd nodes))
               (fl (Rect.lY nodes / 2)) (Rect.scale nodes)).
  assert (Ex : map fst out = map fx (map fst nodes)).
  { rewrite normalizer_map, !map_map. apply map_ext. intros p.
    rewrite normalize_point_eq. reflexivity. }
  assert (Ey : map snd out = map fy (map snd nodes)).
  { rewrite normalizer_map, !map_map. apply map_ext. intros p.
    rewrite normalize_point_eq. reflexivity. }
  assert (Mx : forall a b, a <= b -> fx a <= fx b)
    by (intros a b Hab; apply normalize_coordinate_le; assumption).
  assert (My : forall a b, a <= b -> fy a <= fy b)
    by (intros a b Hab; apply normalize_coordinate_le; assumption).
  rewrite Ex, Ey.
  rewrite (list_max_map fx _ Hnx Mx), (list_min_map fx _ Hnx Mx),
    (list_max_map fy _ Hny My), (list_min_map fy _ Hny My).
  unfold fx, fy. rewrite HX, HY.
  destruct (normalize_coordinate_ends (Rect.list_min (map fst nodes))
              (Rect.list_max (map fst nodes)) (Rect.scale nodes)) as [A1 A2].
  { cbv zeta. rewrite <- HX. rewrite (Rabs_pos_eq _ HX0). exact HlX. }
  destruct (normalize_coordinate_ends (Rect.list_min (map snd nodes))
              (Rect.list_max (map snd nodes)) (Rect.scale nodes)) as [B1 B2].
  { cbv zeta. rewrite <- HY. rewrite (Rabs_pos_eq _ HY0). right. exact HlY. }
  cbv zeta in A1, A2, B1, B2. auto.
Qed.

(** The bounding box of the output is centred at the origin. *)
Lemma normalizer_centred :
  (Rect.list_max (map fst out) + Rect.list_min (map fst out)) / 2 = 0 /\
  (Rect.list_max (map snd out) + Rect.list_min (map snd out)) / 2 = 0.
Proof.
  destruct normalizer_extremes as (E1 & E2 & E3 & E4).
  rewrite E1, E2, E3, E4. split; lra.
Qed.

(** [fl (lY / 2 * scale)] is 90 up to two roundings. *)
Lemma half_height_scaled :
  Rect.lY nodes <= bpow 1000 ->
  Rabs (fl (Rect.lY nodes / 2 * Rect.scale nodes) - 90) <= 90 * (2 * u + u * u).
Proof.
  intros Hhi. pose proof u_pos as Hu. pose proof u_small as Hus.
  pose proof (bpow_gt_0 (-1021)) as H1021.
  unfold Rect.scale. set (l := Rect.lY nodes) in *.
  assert (Hl : 0 < l) by lra.
  set (q := 180 / l).
  assert (Hq : 0 < q) by (unfold q; apply Rdiv_lt_0_compat; lra).
  assert (Hlq : l / 2 * q = 90) by (unfold q; field; lra).
  assert (Hqn : bpow (-1022) <= Rabs q).
  { rewrite Rabs_pos_eq by lra.
    apply Rle_trans with (bpow (-1000)); [apply bpow_le; lia | ].
    unfold q. change (bpow (-1000)) with (bpow (Z.opp 1000)). rewrite bpow_opp.
    assert (H0 : 0 < bpow 1000) by apply bpow_gt_0.
    apply Rle_trans with (1 / l).
    - unfold Rdiv. rewrite Rmult_1_l. apply Rinv_le_contravar; assumption.
    - unfold Rdiv. apply Rmult_le_compat_r; [left; apply Rinv_0_lt_compat; exact Hl | lra]. }
  pose proof (fl_error q Hqn) as Hs. rewrite (Rabs_pos_eq q) in Hs by lra.
  apply Rabs_le_inv in Hs.
  set (s := fl q) in *. set (p := l / 2 * s).
  assert (Hp : 90 - 90 * u <= p <= 90 + 90 * u).
  { unfold p. replace (90 * u) with (l / 2 * (u * q)) by (rewrite <- Hlq; ring).
    rewrite <- Hlq. split; nra. }
  assert (Hpn : bpow (-1022) <= Rabs p).
  { rewrite Rabs_pos_eq by nra.
    apply Rle_trans with 1; [apply bpow_neg_small; lia | nra]. }
  pose proof (fl_error p Hpn) as He. rewrite (Rabs_pos_eq p) in He by nra.
  apply Rabs_le_inv in He. apply Rabs_le. split; nra.
Qed.

Lemma normalizer_extent :
  Rect.lY nodes <= bpow 1000 ->
  Rabs (Rect.list_max (map snd out) - Rect.list_min (map snd out) - 180)
  <= 180 * (2 * u + u * u).
Proof.
  intros Hhi. destruct normalizer_extremes as (_ & _ & E3 & E4). rewrite E3, E4.
  pose proof (half_height_scaled Hhi) as H. apply Rabs_le_inv in H.
  apply Rabs_le. lra.
Qed.

End NormalizerResult.

(** ** The mesh before normalization *)

(** [fl c = c] for a dyadic constant [c]. *)
Ltac fl_const :=
  apply format_fl;
  first [ apply format_IZR; vm_compute; reflexivity
        | match goal with
          | |- format (?a / 2) => apply (format_half _); vm_compute; reflexivity
          | |- format (?a / 4) => apply (format_quarter _); vm_compute; reflexivity
          end ].

(** [c] is a double, for a dyadic constant [c]. *)
Ltac fl_const_format :=
  first [ apply format_IZR; vm_compute; reflexivity
        | match goal with
          | |- format (?a / 2) => apply (format_half _); vm_compute; reflexivity
          | |- format (?a / 4) => apply (format_quarter _); vm_compute; reflexivity
          end ].

Section RectMesh.
Local Open Scope R_scope.
Variable ny : Z.
Hypothesis Hny : (2 <= ny)%Z.

Local Abbreviation NX := (Z.to_nat (3 * ny)).
Local Abbreviation NY := (Z.to_nat ny).
Local Abbreviation grid :=
  (Rect.StructuredMeshGenerator_generate (map INR (seq 0 NX)) (map INR (seq 0 NY))).
Local Abbreviation tmesh := (Rect.transformedMesh ny).

Lemma sqrt3_bounds : 1.7 < sqrt 3 < 1.8.
Proof.
  assert (H : sqrt 3 * sqrt 3 = 3) by (apply sqrt_sqrt; lra).
  assert (H0 : 0 <= sqrt 3) by apply sqrt_pos.
  split; nra.
Qed.

(** The double [sqrt(3)] of the source. *)
Lemma sqrt3_double : 3 / 2 <= fl (sqrt 3) <= 2.
Proof.
  pose proof sqrt3_bounds as Hs.
  assert (E1 : fl (3 / 2) = 3 / 2) by fl_const.
  assert (E2 : fl 2 = 2) by fl_const.
  split; [apply (fl_ge_const _ _ E1) | apply (fl_le_const _ _ E2)]; lra.
Qed.

Lemma transformed_eq : tmesh = Rect.GeometryTransform grid.
Proof.
  unfold Rect.transformedMesh. rewrite !LinearSpacing_unit by lia. reflexivity.
Qed.

Lemma transformed_nodes_size : Rect.nodes_size tmesh = (NY * NX)%nat.
Proof.
  rewrite transformed_eq. unfold Rect.nodes_size, Rect.GeometryTransform. cbn [Rect.xy].
  rewrite length_map. apply grid_nodes_size.
Qed.

Lemma transformed_cellToNode (cellIdx : nat) :
  Rect.cellToNode tmesh cellIdx = Rect.cellToNode grid cellIdx.
Proof. rewrite transformed_eq. reflexivity. Qed.

Lemma transformed_cells_size : Rect.cells_size tmesh = ((NY - 1) * ((NX - 1) * 2))%nat.
Proof. rewrite transformed_eq. apply grid_cells_size. Qed.

Lemma transformed_getXY (i j : nat) :
  (i < NX)%nat -> (j < NY)%nat ->
  Rect.getXY tmesh (Rect.node_id NX i j) = Rect.sheared i j.
Proof.
  intros Hi Hj. rewrite transformed_eq.
  unfold Rect.getXY, Rect.GeometryTransform. cbn [Rect.xy].
  assert (Hlt : (Rect.node_id NX i j < List.length (Rect.xy grid))%nat).
  { pose proof (grid_nodes_size NX NY) as E. unfold Rect.nodes_size in E. rewrite E.
    unfold Rect.node_id. nia. }
  rewrite nth_indep with (d' := Rect.shear (c0, c0)) by (rewrite length_map; exact Hlt).
  rewrite map_nth. unfold Rect.sheared. f_equal. apply grid_getXY; assumption.
Qed.

Local Abbreviation cell_at := (Rect.cell_at ny).

Lemma transformed_cell (cellIdx : nat) :
  (cellIdx < Rect.cells_size tmesh)%nat ->
  exists i j, cell_at i j (Rect.cellToNode tmesh cellIdx).
Proof.
  intros Hlt. rewrite transformed_cellToNode.
  rewrite transformed_eq in Hlt.
  apply (grid_cells_in NX NY). unfold Rect.cellToNode. apply nth_In. exact Hlt.
Qed.

Lemma cell_at_vertices (i j : nat) (c : nat * nat * nat) :
  cell_at i j c ->
  Rect.vertices tmesh c = (Rect.sheared i j, Rect.sheared i (j + 1), Rect.sheared (i + 1) (j + 1)) \/
  Rect.vertices tmesh c = (Rect.sheared i j, Rect.sheared (i + 1) (j + 1), Rect.sheared (i + 1) j).
Proof.
  intros (Hi & Hj & [-> | ->]); [left | right];
    unfold Rect.vertices, Rect.tri_up, Rect.tri_down;
    rewrite !transformed_getXY by lia; reflexivity.
Qed.

Lemma cell_at_valid (i j : nat) (c : nat * nat * nat) :
  cell_at i j c ->
  let '(n0, n1, n2) := c in
  (n0 < Rect.nodes_size tmesh)%nat /\ (n1 < Rect.nodes_size tmesh)%nat /\
  (n2 < Rect.nodes_size tmesh)%nat.
Proof.
  intros (Hi & Hj & [-> | ->]); unfold Rect.tri_up, Rect.tri_down, Rect.node_id;
    rewrite transformed_nodes_size; repeat split; nia.
Qed.

Lemma transformed_valid (cellIdx : nat) :
  (cellIdx < Rect.cells_size tmesh)%nat -> Rect.valid_cell tmesh cellIdx.
Proof.
  intros Hlt. split; [exact Hlt | ].
  destruct (transformed_cell cellIdx Hlt) as (i & j & Hc).
  exact (cell_at_valid i j _ Hc).
Qed.

Lemma keep_in (cellIdx : nat) :
  In cellIdx (Rect.keep ny) <->
  (cellIdx < Rect.cells_size tmesh)%nat /\
  Rect.TriangleInBB tmesh cellIdx Rect.lo (Rect.hi ny) = true.
Proof.
  unfold Rect.keep. rewrite filter_In, in_seq. split; intros [H1 H2]; split; auto; lia.
Qed.

Lemma keep_valid (cellIdx : nat) :
  In cellIdx (Rect.keep ny) -> Rect.valid_cell tmesh cellIdx.
Proof. intros H. apply keep_in in H. apply transformed_valid. tauto. Qed.

(** *** The rows of the sheared lattice *)

Lemma sheared_fst_def (i j : nat) :
  fst (Rect.sheared i j) = fl (INR i - fl (0.5 * INR j)).
Proof. reflexivity. Qed.

Lemma sheared_snd (i j : nat) :
  snd (Rect.sheared i j) = fl (fl (INR j * fl (sqrt 3)) / 2).
Proof. reflexivity. Qed.

Lemma sheared_origin : Rect.sheared 0 0 = (0, 0).
Proof.
  unfold Rect.sheared, Rect.shear. cbn [INR].
  rewrite !Rmult_0_l, !Rmult_0_r, fl_0, Rminus_0_r, fl_0.
  unfold Rdiv. rewrite Rmult_0_l, fl_0. reflexivity.
Qed.

Lemma row_nonneg (i j : nat) : 0 <= snd (Rect.sheared i j).
Proof.
  pose proof sqrt3_double as Hc. rewrite sheared_snd.
  apply fl_nonneg. apply Rle_mult_inv_pos; [ | lra].
  apply fl_nonneg. apply Rmult_le_pos; [apply pos_INR | lra].
Qed.

Lemma row_le (i i' j j' : nat) :
  (j <= j')%nat -> snd (Rect.sheared i j) <= snd (Rect.sheared i' j').
Proof.
  intros Hj. pose proof sqrt3_double as Hc. rewrite !sheared_snd.
  apply fl_le. apply Rmult_le_compat_r; [lra | ]. apply fl_le.
  apply Rmult_le_compat_r; [lra | ]. apply le_INR. exact Hj.
Qed.

(** Row 1 is at [sqrt(3) / 2], between 3/4 and 1. *)
Lemma row_1 (i : nat) : 3 / 4 <= snd (Rect.sheared i 1) <= 1.
Proof.
  pose proof sqrt3_double as Hc. rewrite sheared_snd. cbn [INR].
  rewrite Rmult_1_l, fl_idem.
  assert (E1 : fl (3 / 4) = 3 / 4) by fl_const.
  assert (E2 : fl 1 = 1) by fl_const.
  split; [apply (fl_ge_const _ _ E1) | apply (fl_le_const _ _ E2)]; lra.
Qed.

Lemma sheared_1_1 : fst (Rect.sheared 1 1) = 1 / 2.
Proof.
  rewrite sheared_fst_def. cbn [INR]. rewrite Rmult_1_r.
  assert (E1 : fl 0.5 = 0.5) by (replace 0.5 with (1 / 2) by lra; fl_const).
  rewrite E1. replace (1 - 0.5) with (1 / 2) by lra. fl_const.
Qed.

(** *** The selection box *)

Lemma newHeight_ge : 3 / 4 <= Rect.newHeight ny.
Proof.
  pose proof sqrt3_double as Hc. unfold Rect.newHeight.
  assert (H1 : 1 <= IZR (ny - 1)) by (apply IZR_le; lia).
  assert (E1 : fl (3 / 2) = 3 / 2) by fl_const.
  assert (E2 : fl (3 / 4) = 3 / 4) by fl_const.
  apply (fl_ge_const _ _ E2).
  assert (3 / 2 <= fl (IZR (ny - 1) * fl (sqrt 3))); [ | lra].
  apply (fl_ge_const _ _ E1). nra.
Qed.

Lemma length_ge : 3 / 2 <= Rect.length ny.
Proof.
  pose proof newHeight_ge as H. unfold Rect.length.
  assert (E1 : fl (3 / 2) = 3 / 2) by fl_const.
  apply (fl_ge_const _ _ E1). lra.
Qed.

Lemma hi_x_ge : 3 / 2 <= fst (Rect.hi ny).
Proof.
  pose proof length_ge as HL. unfold Rect.hi. cbn [fst].
  assert (E1 : fl (3 / 2) = 3 / 2) by fl_const.
  apply (fl_ge_const _ _ E1).
  assert (H3 : 0 < IZR (3 * ny)) by (apply IZR_lt; lia).
  assert (0 <= fl (fl (Rect.length ny / IZR (3 * ny)) * fl 0.1)); [ | lra].
  apply fl_nonneg. apply Rmult_le_pos; apply fl_nonneg; [ | lra].
  apply Rle_mult_inv_pos; lra.
Qed.

Lemma inside_box (p : Rect.Point R) :
  0 < fst p -> fst p < fst (Rect.hi ny) ->
  - Rect.DBL_MAX < snd p -> snd p < Rect.DBL_MAX ->
  Rect.strictly_inside Rect.lo (Rect.hi ny) p.
Proof.
  intros H1 H2 H3 H4. unfold Rect.strictly_inside. simpl.
  rewrite !Rltb_true. auto.
Qed.

(** The first triangle of lattice cell (i, j) is kept when its vertex
    (i+1, j+1) is in the box. *)
Lemma up_cell_kept (i j : nat) :
  (i < NX - 1)%nat -> (j < NY - 1)%nat ->
  Rect.strictly_inside Rect.lo (Rect.hi ny) (Rect.sheared (i + 1) (j + 1)) ->
  exists cellIdx, In cellIdx (Rect.keep ny) /\
                  Rect.cellToNode tmesh cellIdx = Rect.tri_up NX i j.
Proof.
  intros Hi Hj Hin. exists (j * ((NX - 1) * 2) + i * 2)%nat.
  assert (Hc : Rect.cellToNode tmesh (j * ((NX - 1) * 2) + i * 2) = Rect.tri_up NX i j).
  { rewrite transformed_cellToNode. apply grid_cell_up; assumption. }
  split; [ | exact Hc].
  apply keep_in. split; [rewrite transformed_cells_size; nia | ].
  apply TriangleInBB_true. exists (Rect.sheared (i + 1) (j + 1)). split; [ | exact Hin].
  unfold Rect.cell_vertices. rewrite Hc. unfold Rect.tri_up.
  rewrite !transformed_getXY by lia. simpl. auto.
Qed.

Local Abbreviation N := (Rect.xy (Rect.rectMesh ny)).

(** The nodes of a kept cell are nodes of the extracted mesh. *)
Lemma kept_up_nodes (i j : nat) (cellIdx : nat) :
  (i < NX - 1)%nat -> (j < NY - 1)%nat ->
  In cellIdx (Rect.keep ny) -> Rect.cellToNode tmesh cellIdx = Rect.tri_up NX i j ->
  In (Rect.sheared i j) N /\ In (Rect.sheared i (j + 1)) N /\
  In (Rect.sheared (i + 1) (j + 1)) N.
Proof.
  intros Hi Hj Hk Hc.
  assert (H : forall a b, (a < NX)%nat -> (b < NY)%nat ->
                          In (Rect.node_id NX a b) (Rect.cell_nodes (Rect.tri_up NX i j)) ->
                          In (Rect.sheared a b) N).
  { intros a b Ha Hb Hn. rewrite <- transformed_getXY by assumption.
    apply (sub_xy_in tmesh (Rect.keep ny) cellIdx); [exact Hk | rewrite Hc; exact Hn | ].
    rewrite transformed_nodes_size. unfold Rect.node_id. nia. }
  repeat split; apply H; try lia; simpl; auto.
Qed.

(** Every node of the extracted mesh is a sheared lattice point. *)
Lemma rect_nodes_inv (p : Rect.Point R) :
  In p N -> exists i j, (i < NX)%nat /\ (j < NY)%nat /\ p = Rect.sheared i j.
Proof.
  intros Hp. apply sub_xy_inv in Hp. destruct Hp as (cellIdx & n & Hk & Hn & _ & ->).
  apply keep_in in Hk. destruct Hk as [Hlt _].
  destruct (transformed_cell cellIdx Hlt) as (i & j & Hi & Hj & Hc).
  destruct Hc as [Hc | Hc]; rewrite Hc in Hn; simpl in Hn;
    destruct Hn as [<- | [<- | [<- | []]]];
    eexists; eexists; (split; [ | split; [ | apply transformed_getXY]]); lia.
Qed.

Lemma first_cell_nodes : In (Rect.sheared 0 0) N /\ In (Rect.sheared 1 1) N.
Proof.
  pose proof hi_x_ge as Hh. pose proof (row_1 1) as Hr.
  pose proof (DBL_MAX_ge_pow 1 ltac:(lia)) as Hd. simpl in Hd.
  destruct (up_cell_kept 0 0) as (cellIdx & Hk & Hc); try lia.
  - change (0 + 1)%nat with 1%nat. apply inside_box; rewrite ?sheared_1_1; lra.
  - destruct (kept_up_nodes 0 0 cellIdx) as (H0 & _ & H1); try lia; auto.
Qed.

Lemma rect_nonempty : N <> [].
Proof. destruct first_cell_nodes as [H0 _]. intros E. rewrite E in H0. contradiction. Qed.

Lemma rect_scan :
  Rect.scan N =
  (Rect.list_min (map fst N), Rect.list_min (map snd N),
   Rect.list_max (map fst N), Rect.list_max (map snd N)).
Proof.
  destruct first_cell_nodes as [H0 _]. pose proof DBL_MAX_pos as Hd.
  rewrite sheared_origin in H0.
  apply (scan_extremes N 0 0 0 0);
    try (apply (in_map fst _ _ H0)); try (apply (in_map snd _ _ H0)); lra.
Qed.

Lemma rect_lX : Rect.lX N = fl (Rect.list_max (map fst N) - Rect.list_min (map fst N)).
Proof. destruct (normalizer_unfold _ _ _ _ _ rect_scan) as (HX & _). exact HX. Qed.

Lemma rect_lY : Rect.lY N = fl (Rect.list_max (map snd N) - Rect.list_min (map snd N)).
Proof. destruct (normalizer_unfold _ _ _ _ _ rect_scan) as (_ & HY & _). exact HY. Qed.

Lemma rect_lY_ge : 3 / 4 <= Rect.lY N.
Proof.
  rewrite rect_lY. destruct first_cell_nodes as [H0 H1]. pose proof (row_1 1) as Hr.
  rewrite sheared_origin in H0.
  assert (Hne : map snd N <> []).
  { intros E. apply (in_map snd) in H0. rewrite E in H0. contradiction. }
  destruct (list_min_is_min _ Hne) as [_ Hlb], (list_max_is_max _ Hne) as [_ Hub].
  specialize (Hlb _ (in_map snd _ _ H0)). specialize (Hub _ (in_map snd _ _ H1)).
  cbn [snd] in Hlb.
  assert (E1 : fl (3 / 4) = 3 / 4) by fl_const.
  apply (fl_ge_const _ _ E1). lra.
Qed.

Lemma rect_lY_pos : 0 < Rect.lY N.
Proof. pose proof rect_lY_ge. lra. Qed.

Lemma rect_lX_ge : 1 / 2 <= Rect.lX N.
Proof.
  rewrite rect_lX. destruct first_cell_nodes as [H0 H1].
  rewrite sheared_origin in H0.
  assert (Hne : map fst N <> []).
  { intros E. apply (in_map fst) in H0. rewrite E in H0. contradiction. }
  destruct (list_min_is_min _ Hne) as [_ Hlb], (list_max_is_max _ Hne) as [_ Hub].
  specialize (Hlb _ (in_map fst _ _ H0)). specialize (Hub _ (in_map fst _ _ H1)).
  cbn [fst] in Hlb. rewrite sheared_1_1 in Hub.
  assert (E1 : fl (1 / 2) = 1 / 2) by fl_const.
  apply (fl_ge_const _ _ E1). lra.
Qed.

End RectMesh.

(** ** The mesh before normalization, for an [int] grid *)

Section RectMeshInt.
Local Open Scope R_scope.
Variable ny : Z.
Hypothesis Hny : (2 <= ny)%Z.
Hypothesis Hmax : (3 * ny <= Rect.INT_MAX)%Z.

Local Abbreviation NX := (Z.to_nat (3 * ny)).
Local Abbreviation NY := (Z.to_nat ny).
Local Abbreviation N := (Rect.xy (Rect.rectMesh ny)).
Local Abbreviation G := (fl (IZR (ny - 1) * fl (sqrt 3))).

(** The x of a sheared lattice point is exact. *)
Lemma sheared_fst (i j : nat) :
  (i < NX)%nat -> (j < NY)%nat ->
  fst (Rect.sheared i j) = IZR (2 * Z.of_nat i - Z.of_nat j) / 2.
Proof.
  intros Hi Hj. unfold Rect.INT_MAX in Hmax. rewrite sheared_fst_def.
  assert (E1 : fl (0.5 * INR j) = IZR (Z.of_nat j) / 2).
  { rewrite INR_IZR_INZ. replace (0.5 * IZR (Z.of_nat j)) with (IZR (Z.of_nat j) / 2) by lra.
    apply format_fl, format_half. lia. }
  rewrite E1, INR_IZR_INZ.
  replace (IZR (Z.of_nat i) - IZR (Z.of_nat j) / 2)
    with (IZR (2 * Z.of_nat i - Z.of_nat j) / 2)
    by (rewrite minus_IZR, mult_IZR; field).
  apply format_fl, format_half. lia.
Qed.

Lemma INR_top : INR (NY - 1) = IZR (ny - 1).
Proof. rewrite INR_IZR_INZ. f_equal. lia. Qed.

Lemma G_bounds : 3 / 2 <= G <= 2 * IZR (ny - 1).
Proof.
  pose proof sqrt3_double as Hc. unfold Rect.INT_MAX in Hmax.
  assert (H1 : 1 <= IZR (ny - 1)) by (apply IZR_le; lia).
  assert (E1 : fl (3 / 2) = 3 / 2) by fl_const.
  split; [apply (fl_ge_const _ _ E1); nra | ].
  apply fl_le_const; [ | nra].
  replace (2 * IZR (ny - 1)) with (IZR (2 * (ny - 1))) by (rewrite mult_IZR; reflexivity).
  apply format_fl, format_IZR. lia.
Qed.

(** The top row is at height [G / 2]. *)
Lemma top_row (i : nat) : snd (Rect.sheared i (NY - 1)) = G / 2.
Proof.
  rewrite sheared_snd, INR_top. pose proof G_bounds as [HG _].
  apply half_exact; [apply fl_format | ]. right.
  rewrite Rabs_pos_eq by lra.
  apply Rle_trans with 1; [apply bpow_neg_small; lia | lra].
Qed.

(** A node of the top row of the lattice is a node of the result. *)
Lemma top_row_node : exists i, In (Rect.sheared i (NY - 1)) N.
Proof.
  pose proof (hi_x_ge ny Hny) as Hh. pose proof G_bounds as [HG1 HG2].
  pose proof DBL_MAX_pos as Hd. unfold Rect.INT_MAX in Hmax.
  set (i := ((NY - 1) / 2)%nat).
  assert (Hi : (NY - 1 = 2 * i \/ NY - 1 = 2 * i + 1)%nat).
  { unfold i. pose proof (Nat.div_mod_eq (NY - 1) 2) as E.
    pose proof (Nat.mod_upper_bound (NY - 1) 2 ltac:(lia)) as B. lia. }
  assert (Hj : (NY - 2 + 1 = NY - 1)%nat) by lia.
  destruct (up_cell_kept ny Hny i (NY - 2)) as (cellIdx & Hk & Hc); try lia.
  - rewrite Hj.
    assert (Hx : fst (Rect.sheared (i + 1) (NY - 1)) = 1 / 2 \/
                 fst (Rect.sheared (i + 1) (NY - 1)) = 1).
    { rewrite sheared_fst by lia.
      destruct Hi as [E | E]; [right | left].
      - replace (2 * Z.of_nat (i + 1) - Z.of_nat (NY - 1))%Z with 2%Z by lia. lra.
      - replace (2 * Z.of_nat (i + 1) - Z.of_nat (NY - 1))%Z with 1%Z by lia. lra. }
    assert (Hy : snd (Rect.sheared (i + 1) (NY - 1)) <= IZR (ny - 1)).
    { rewrite top_row. lra. }
    assert (Hy0 := row_nonneg (i + 1) (NY - 1)).
    assert (Hb : IZR (ny - 1) < Rect.DBL_MAX).
    { apply Rlt_le_trans with (2 ^ 31); [ | apply DBL_MAX_ge_pow; lia].
      rewrite pow_IZR. apply IZR_lt. change (2 ^ Z.of_nat 31)%Z with 2147483648%Z. lia. }
    destruct Hx as [Hx | Hx]; apply inside_box; rewrite ?Hx; lra.
  - destruct (kept_up_nodes ny Hny i (NY - 2) cellIdx) as (_ & _ & H1); try lia; auto.
    rewrite Hj in H1. exists (i + 1)%nat. exact H1.
Qed.

Lemma rect_ymin : Rect.list_min (map snd N) = 0.
Proof.
  destruct (first_cell_nodes ny Hny) as [H0 _]. rewrite sheared_origin in H0.
  apply is_min_unique with (map snd N).
  - apply list_min_is_min. intros E. apply (in_map snd) in H0. rewrite E in H0.
    contradiction.
  - split; [exact (in_map snd _ _ H0) | ].
    intros v Hv. apply in_map_iff in Hv. destruct Hv as (p & <- & Hp).
    destruct (rect_nodes_inv ny Hny p Hp) as (a & b & _ & Hb & ->). apply row_nonneg.
Qed.

Lemma rect_ymax : Rect.list_max (map snd N) = G / 2.
Proof.
  destruct top_row_node as [i Hi].
  apply is_max_unique with (map snd N).
  - apply list_max_is_max. intros E. apply (in_map snd) in Hi. rewrite E in Hi.
    contradiction.
  - split; [rewrite <- (top_row i); exact (in_map snd _ _ Hi) | ].
    intros v Hv. apply in_map_iff in Hv. destruct Hv as (p & <- & Hp).
    destruct (rect_nodes_inv ny Hny p Hp) as (a & b & _ & Hb & ->).
    rewrite <- (top_row a). apply row_le. lia.
Qed.

(** The height of the extracted mesh is the height of the sheared
    lattice. *)
Lemma rect_lY_exact : Rect.lY N = G / 2.
Proof.
  rewrite (rect_lY ny Hny), rect_ymax, rect_ymin, Rminus_0_r.
  rewrite <- (top_row 0). rewrite sheared_snd. apply fl_idem.
Qed.

Lemma rect_lY_le : Rect.lY N <= bpow 1000.
Proof.
  rewrite rect_lY_exact. pose proof G_bounds as [_ HG]. unfold Rect.INT_MAX in Hmax.
  apply Rle_trans with (bpow 31); [ | apply bpow_le; lia].
  rewrite bpow_nonneg_IZR by lia.
  assert (IZR (ny - 1) <= IZR (2 ^ 31)) by (apply IZR_le; lia). lra.
Qed.

Lemma rect_extent :
  Rabs (Rect.list_max (Rect.ys (Rect.AtlasMeshRect ny)) -
        Rect.list_min (Rect.ys (Rect.AtlasMeshRect ny)) - 180) <= 180 * (2 * u + u * u) /\
  (Rect.list_max (Rect.xs (Rect.AtlasMeshRect ny)) +
   Rect.list_min (Rect.xs (Rect.AtlasMeshRect ny))) / 2 = 0 /\
  (Rect.list_max (Rect.ys (Rect.AtlasMeshRect ny)) +
   Rect.list_min (Rect.ys (Rect.AtlasMeshRect ny))) / 2 = 0.
Proof.
  assert (HlX : Rect.lX N = 0 \/ bpow (-1021) <= Rect.lX N).
  { right. pose proof (rect_lX_ge ny Hny).
    apply Rle_trans with (1 / 2); [ | assumption].
    replace (1 / 2) with (bpow (-1)) by (unfold bpow; simpl; lra). apply bpow_le. lia. }
  assert (HlY : bpow (-1021) <= Rect.lY N).
  { pose proof (rect_lY_ge ny Hny).
    apply Rle_trans with (1 / 2); [ | lra].
    replace (1 / 2) with (bpow (-1)) by (unfold bpow; simpl; lra). apply bpow_le. lia. }
  split.
  - exact (normalizer_extent N (rect_scan ny Hny) (rect_nonempty ny Hny) HlX HlY rect_lY_le).
  - exact (normalizer_centred N (rect_scan ny Hny) (rect_nonempty ny Hny) HlX HlY).
Qed.

(** The y-extent of the result, as the code computes it. *)
Lemma rect_extent_value :
  Rect.list_max (Rect.ys (Rect.AtlasMeshRect ny)) -
  Rect.list_min (Rect.ys (Rect.AtlasMeshRect ny)) =
  2 * fl (G / 4 * fl (180 / (G / 2))).
Proof.
  assert (HlX : Rect.lX N = 0 \/ bpow (-1021) <= Rect.lX N).
  { right. pose proof (rect_lX_ge ny Hny).
    apply Rle_trans with (1 / 2); [ | assumption].
    replace (1 / 2) with (bpow (-1)) by (unfold bpow; simpl; lra). apply bpow_le. lia. }
  assert (HlY : bpow (-1021) <= Rect.lY N).
  { pose proof (rect_lY_ge ny Hny).
    apply Rle_trans with (1 / 2); [ | lra].
    replace (1 / 2) with (bpow (-1)) by (unfold bpow; simpl; lra). apply bpow_le. lia. }
  destruct (normalizer_extremes N (rect_scan ny Hny) (rect_nonempty ny Hny) HlX HlY)
    as (_ & _ & E3 & E4).
  unfold Rect.ys, Rect.AtlasMeshRect, Rect.BoundingBoxNormalizer. cbn [Rect.xy].
  rewrite E3, E4. unfold Rect.scale. rewrite rect_lY_exact.
  replace (G / 2 / 2) with (G / 4) by field. ring.
Qed.

End RectMeshInt.

(** ** Doubles, evaluated *)

Section Evaluated.
Local Open Scope R_scope.

Lemma bpow_pos_num (p : positive) : bpow (Zpos p) = IZR (Z.pow_pos 2 p).
Proof. apply (bpow_nonneg_IZR (Zpos p)). lia. Qed.

Lemma bpow_neg_num (p : positive) : bpow (Zneg p) = / IZR (Z.pow_pos 2 p).
Proof. change (Zneg p) with (Z.opp (Zpos p)). rewrite bpow_opp, bpow_pos_num. reflexivity. Qed.

Lemma Zn_tie (f : Z) : ZnearestE (IZR f + / 2) = if Z.even f then f else (f + 1)%Z.
Proof.
  assert (Hf : Zfloor (IZR f + / 2) = f) by (apply Zfloor_eq; lra).
  destruct (Zn_cases (IZR f + / 2)) as [[H1 E1] | [[H1 E1] | [H1 E1]]];
    rewrite Hf in *; try lra. exact E1.
Qed.

Lemma fl_eval_Zn x (e : Z) :
  bpow (e - 1) <= Rabs x < bpow e -> (-1074 <= e - 53)%Z ->
  fl x = IZR (ZnearestE (x * bpow (53 - e))) * bpow (e - 53).
Proof.
  intros Hx He. pose proof (mag_unique x e Hx) as Hmag.
  unfold fl. replace (cexp x) with (e - 53)%Z by (unfold cexp; lia).
  replace (- (e - 53))%Z with (53 - e)%Z by lia. reflexivity.
Qed.

Lemma sqrt_above (a x : R) : 0 <= a -> a * a < x -> a < sqrt x.
Proof.
  intros Ha H. destruct (Rlt_le_dec a (sqrt x)) as [Hlt | Hle]; [exact Hlt | exfalso].
  assert (Hx : 0 <= x) by nra.
  pose proof (sqrt_sqrt x Hx) as E. pose proof (sqrt_pos x). nra.
Qed.

Lemma sqrt_below (b x : R) : 0 <= b -> 0 <= x -> x < b * b -> sqrt x < b.
Proof.
  intros Hb Hx H. destruct (Rlt_le_dec (sqrt x) b) as [Hlt | Hle]; [exact Hlt | exfalso].
  pose proof (sqrt_sqrt x Hx) as E. nra.
Qed.

End Evaluated.

Ltac bpow_num :=
  repeat match goal with
         | |- context [bpow (Zpos ?p)] =>
             rewrite (bpow_pos_num p);
             let v := eval vm_compute in (Z.pow_pos 2 p) in
             change (Z.pow_pos 2 p) with v
         | |- context [bpow (Zneg ?p)] =>
             rewrite (bpow_neg_num p);
             let v := eval vm_compute in (Z.pow_pos 2 p) in
             change (Z.pow_pos 2 p) with v
         | |- context [bpow 0] => rewrite bpow_0
         end.

Section Evaluated4.
Local Open Scope R_scope.

(** [sqrt(3)] as a double is 0x1.bb67ae8584caap+0. *)
Lemma sqrt3_value : fl (sqrt 3) = IZR 7800463371553962 * bpow (-52).
Proof.
  pose proof sqrt3_bounds as Hs.
  apply (fl_eval (sqrt 3) 7800463371553962 1).
  - rewrite Rabs_pos_eq by lra. simpl Z.sub. bpow_num. lra.
  - lia.
  - simpl Z.sub. bpow_num.
    assert (H1 : (IZR 7800463371553962 - / 2) / 4503599627370496 < sqrt 3)
      by (apply sqrt_above; lra).
    assert (H2 : sqrt 3 < (IZR 7800463371553962 + / 2) / 4503599627370496)
      by (apply sqrt_below; lra).
    apply Rabs_def1; lra.
Qed.

(** [3 * sqrt(3)] falls halfway between two doubles. *)
Lemma G4_value : fl (IZR (4 - 1) * fl (sqrt 3)) = IZR 5850347528665472 * bpow (-50).
Proof.
  rewrite sqrt3_value. simpl Z.sub.
  rewrite (fl_eval_Zn _ 3).
  - simpl Z.sub.
    replace (3 * (7800463371553962 * bpow (-52)) * bpow 50)
      with (IZR 5850347528665471 + / 2) by (bpow_num; lra).
    rewrite Zn_tie. reflexivity.
  - rewrite Rabs_pos_eq by (bpow_num; lra). simpl Z.sub. bpow_num. lra.
  - lia.
Qed.

Lemma scale4_value :
  fl (180 / (IZR 5850347528665472 * bpow (-50) / 2)) = IZR 4875289607221226 * bpow (-46).
Proof.
  apply (fl_eval _ 4875289607221226 7).
  - rewrite Rabs_pos_eq by (bpow_num; lra). simpl Z.sub. bpow_num. lra.
  - lia.
  - simpl Z.sub. bpow_num. apply Rabs_def1; lra.
Qed.

Lemma half_height4_value :
  fl (IZR 5850347528665472 * bpow (-50) / 4 * (IZR 4875289607221226 * bpow (-46))) =
  IZR 6333186975989759 * bpow (-46).
Proof.
  apply (fl_eval _ 6333186975989759 7).
  - rewrite Rabs_pos_eq by (bpow_num; lra). simpl Z.sub. bpow_num. lra.
  - lia.
  - simpl Z.sub. bpow_num. apply Rabs_def1; lra.
Qed.

(** The y-extent of [AtlasMeshRect 4] is one unit in the last place below
    180. *)
Lemma rect4_extent :
  Rect.list_max (Rect.ys (Rect.AtlasMeshRect 4)) -
  Rect.list_min (Rect.ys (Rect.AtlasMeshRect 4)) = 180 - bpow (-45).
Proof.
  rewrite (rect_extent_value 4) by (unfold Rect.INT_MAX; lia).
  rewrite G4_value, scale4_value, half_height4_value. bpow_num. lra.
Qed.

(** The binary64 operations of the Standard Library return the same
    doubles for [sqrt(3)], [3 * sqrt(3)], [180 / lY], [lY / 2 * scale], and
    for [2^-54 + 1]. *)
Lemma binary64_values :
  SFsqrt 53 1024 (b64 3 0) = b64 7800463371553962 (-52) /\
  SFmul 53 1024 (b64 3 0) (b64 7800463371553962 (-52)) = b64 5850347528665472 (-50) /\
  SFdiv 53 1024 (b64 180 0) (b64 5850347528665472 (-51)) = b64 4875289607221226 (-46) /\
  SFmul 53 1024 (b64 5850347528665472 (-52)) (b64 4875289607221226 (-46)) =
  b64 6333186975989759 (-46) /\
  SFadd 53 1024 (b64 1 (-54)) (b64 1 0) = b64 1 0.
Proof. vm_compute. repeat split. Qed.

End Evaluated4.

(** ** The normalizer on a normalized mesh *)

Section Normalized.
Local Open Scope R_scope.

(** Adding a double [M] to a double of smaller magnitude and taking it
    away again loses at most [4 * u * M]. *)
Lemma add_sub_error (x M : R) :
  format x -> format M -> Rabs x <= M ->
  Rabs (fl (fl (x + M) - M) - x) <= 4 * u * M.
Proof.
  intros Hx HM Hle. pose proof u_pos as Hu. pose proof u_small as Hus.
  apply Rabs_le_inv in Hle.
  pose proof (fl_error_plus x M Hx HM) as E1.
  rewrite (Rabs_pos_eq (x + M)) in E1 by lra. apply Rabs_le_inv in E1.
  set (t := fl (x + M)) in *.
  pose proof (fl_error_minus t M (fl_format (x + M)) HM) as E2. fold t in E2.
  assert (Ht : Rabs (t - M) <= M * (1 + 2 * u)) by (apply Rabs_le; split; nra).
  assert (E3 : Rabs (fl (t - M) - (t - M)) <= u * (M * (1 + 2 * u))).
  { eapply Rle_trans; [exact E2 | ]. apply Rmult_le_compat_l; [lra | exact Ht]. }
  apply Rabs_le_inv in E3. apply Rabs_le. split; nra.
Qed.

Variable nodes : list (Rect.Point R).
Hypothesis Hdouble : Rect.double_nodes (bpow 1000) nodes.
Hypothesis Hcx :
  (Rect.list_max (map fst nodes) + Rect.list_min (map fst nodes)) / 2 = 0.
Hypothesis Hcy :
  (Rect.list_max (map snd nodes) + Rect.list_min (map snd nodes)) / 2 = 0.
Hypothesis Hext :
  Rect.list_max (map snd nodes) - Rect.list_min (map snd nodes) = 180.

Local Abbreviation xMax := (Rect.list_max (map fst nodes)).

Lemma bpow_1000_le : bpow 1000 <= Rect.DBL_MAX.
Proof.
  apply Rle_trans with (2 ^ 1000); [ | apply DBL_MAX_ge_pow; lia].
  rewrite bpow_nonneg_IZR, pow_IZR by lia. apply Req_le. reflexivity.
Qed.

Lemma normalized_nonempty : nodes <> [].
Proof using Hdouble Hcx Hcy Hext.
  intros E. rewrite E in Hext. unfold Rect.list_max, Rect.list_min in Hext.
  simpl in Hext. lra.
Qed.

Lemma normalized_scan :
  Rect.scan nodes =
  (Rect.list_min (map fst nodes), Rect.list_min (map snd nodes),
   Rect.list_max (map fst nodes), Rect.list_max (map snd nodes)).
Proof using Hdouble Hcx Hcy Hext.
  pose proof normalized_nonempty as Hne. pose proof bpow_1000_le as Hb.
  destruct nodes as [|p rest] eqn:E; [congruence | ].
  destruct (Hdouble p ltac:(left; reflexivity)) as [[_ Hx] [_ Hy]].
  apply Rabs_le_inv in Hx, Hy.
  apply (scan_extremes _ (fst p) (fst p) (snd p) (snd p)); try lra;
    apply in_map; left; reflexivity.
Qed.

Lemma normalized_xMax : format xMax /\ 0 <= xMax /\ Rect.list_min (map fst nodes) = - xMax.
Proof using Hdouble Hcx Hcy Hext.
  pose proof normalized_nonempty as Hne.
  assert (Hnx : map fst nodes <> []) by (destruct nodes; [congruence | discriminate]).
  destruct (list_max_is_max _ Hnx) as [Hin _]. pose proof (list_min_le_max _ Hnx).
  apply in_map_iff in Hin. destruct Hin as (p & Hp & Hin).
  destruct (Hdouble p Hin) as [[Hf _] _]. rewrite Hp in Hf.
  split; [exact Hf | split; lra].
Qed.

Lemma normalized_y :
  Rect.list_max (map snd nodes) = 90 /\ Rect.list_min (map snd nodes) = -90.
Proof using Hdouble Hcx Hcy Hext. split; lra. Qed.

Lemma normalized_values :
  Rect.lX nodes = xMax + xMax /\ fl (Rect.lX nodes / 2) = xMax /\
  Rect.lY nodes = 180 /\ fl (Rect.lY nodes / 2) = 90 /\ Rect.scale nodes = 1.
Proof using Hdouble Hcx Hcy Hext.
  destruct normalized_xMax as (Hf & H0 & Hmin). destruct normalized_y as [Hy1 Hy2].
  destruct (normalizer_unfold _ _ _ _ _ normalized_scan) as (HX & HY & _ & Hs & _).
  assert (EX : Rect.lX nodes = xMax + xMax).
  { rewrite HX, Hmin. replace (xMax - - xMax) with (xMax + xMax) by ring.
    apply format_fl, format_twice. exact Hf. }
  assert (EY : Rect.lY nodes = 180).
  { rewrite HY, Hy1, Hy2. replace (90 - -90) with 180 by ring. fl_const. }
  split; [exact EX | split; [ | split; [exact EY | split]]].
  - rewrite EX. replace ((xMax + xMax) / 2) with xMax by field. apply format_fl. exact Hf.
  - rewrite EY. replace (180 / 2) with 90 by field. fl_const.
  - rewrite Hs, <- HY, EY. replace (180 / 180) with 1 by field. fl_const.
Qed.

Lemma normalized_center : Rect.center nodes = (0, 0).
Proof using Hdouble Hcx Hcy Hext.
  destruct normalized_xMax as (Hf & H0 & Hmin). destruct normalized_y as [Hy1 Hy2].
  destruct normalized_values as (EX & EhX & EY & EhY & _).
  unfold Rect.center. rewrite normalized_scan, EhX, EhY, Hmin, Hy2. f_equal; ring.
Qed.

(** Every node is where it was, up to the roundings of the re-centring. *)
Lemma normalized_point (p : Rect.Point R) :
  In p nodes ->
  Rabs (fst (Rect.normalize_point nodes p) - fst p) <= 4 * u * xMax /\
  Rabs (snd (Rect.normalize_point nodes p) - snd p) <= 4 * u * 90.
Proof using Hdouble Hcx Hcy Hext.
  intros Hp.
  destruct normalized_xMax as (Hf & H0 & Hmin). destruct normalized_y as [Hy1 Hy2].
  destruct normalized_values as (EX & EhX & EY & EhY & Es).
  pose proof normalized_nonempty as Hne.
  assert (Hnx : map fst nodes <> []) by (destruct nodes; [congruence | discriminate]).
  assert (Hny : map snd nodes <> []) by (destruct nodes; [congruence | discriminate]).
  destruct (list_max_is_max _ Hnx) as [_ Hxu], (list_min_is_min _ Hnx) as [_ Hxl],
    (list_max_is_max _ Hny) as [_ Hyu], (list_min_is_min _ Hny) as [_ Hyl].
  specialize (Hxu _ (in_map fst _ _ Hp)). specialize (Hxl _ (in_map fst _ _ Hp)).
  specialize (Hyu _ (in_map snd _ _ Hp)). specialize (Hyl _ (in_map snd _ _ Hp)).
  destruct (Hdouble p Hp) as [[Hfx _] [Hfy _]].
  rewrite (normalize_point_eq nodes normalized_scan). cbn [fst snd].
  unfold Rect.normalize_coordinate. rewrite EhX, EhY, Es, Hmin, Hy2, !Rmult_1_r, !fl_idem.
  replace (fst p - - xMax) with (fst p + xMax) by ring.
  replace (snd p - -90) with (snd p + 90) by ring.
  split.
  - apply add_sub_error; [exact Hfx | exact Hf | apply Rabs_le; lra].
  - apply add_sub_error; [exact Hfy | fl_const_format | apply Rabs_le; lra].
Qed.

End Normalized.

(** ** A normalized mesh that the normalizer changes *)

Section Absorbed.
Local Open Scope R_scope.

Lemma small_bounds : 0 < bpow (-54) < 1.
Proof. bpow_num. lra. Qed.

Lemma absorbed_extremes :
  Rect.list_max (Rect.xs Rect.example_absorbed) = 1 /\
  Rect.list_min (Rect.xs Rect.example_absorbed) = -1 /\
  Rect.list_max (Rect.ys Rect.example_absorbed) = 90 /\
  Rect.list_min (Rect.ys Rect.example_absorbed) = -90.
Proof.
  pose proof small_bounds as Hs.
  repeat split; unfold Rect.list_max, Rect.list_min, Rect.xs, Rect.ys; simpl;
    unfold Rmax, Rmin; repeat destruct (Rle_dec _ _); lra.
Qed.

Lemma absorbed_double : Rect.double_nodes (bpow 1000) (Rect.xy Rect.example_absorbed).
Proof.
  pose proof small_bounds as Hs.
  assert (Hb : 90 <= bpow 1000).
  { apply Rle_trans with (bpow 7); [bpow_num; lra | apply bpow_le; lia]. }
  assert (F1 : format 1) by fl_const_format.
  assert (F90 : format 90) by fl_const_format.
  assert (F0 : format 0) by fl_const_format.
  assert (Fs : format (bpow (-54))).
  { exists 1%Z, (-54)%Z. split; [lra | split; [reflexivity | lia]]. }
  intros p Hp. simpl in Hp.
  destruct Hp as [<- | [<- | [<- | []]]]; cbn [fst snd].
  - repeat split; try (apply (format_opp _ F1)); try (apply (format_opp _ F90));
      apply Rabs_le; lra.
  - repeat split; try exact F1; try exact F90; apply Rabs_le; lra.
  - repeat split; try exact Fs; try exact F0; apply Rabs_le; lra.
Qed.

Lemma absorbed_scan :
  Rect.scan (Rect.xy Rect.example_absorbed) = (-1, -90, 1, 90).
Proof.
  destruct absorbed_extremes as (E1 & E2 & E3 & E4). unfold Rect.xs, Rect.ys in *.
  assert (Hext : Rect.list_max (map snd (Rect.xy Rect.example_absorbed)) -
                 Rect.list_min (map snd (Rect.xy Rect.example_absorbed)) = 180)
    by (rewrite E3, E4; lra).
  assert (Hcx : (Rect.list_max (map fst (Rect.xy Rect.example_absorbed)) +
                 Rect.list_min (map fst (Rect.xy Rect.example_absorbed))) / 2 = 0)
    by (rewrite E1, E2; lra).
  assert (Hcy : (Rect.list_max (map snd (Rect.xy Rect.example_absorbed)) +
                 Rect.list_min (map snd (Rect.xy Rect.example_absorbed))) / 2 = 0)
    by (rewrite E3, E4; lra).
  rewrite (normalized_scan _ absorbed_double Hcx Hcy Hext), E1, E2, E3, E4. reflexivity.
Qed.

(** 1 + 2^-54 rounds to 1. *)
Lemma absorbed_sum : fl (bpow (-54) - -1) = 1.
Proof.
  pose proof small_bounds as Hs.
  rewrite (fl_eval _ 4503599627370496 1).
  - simpl Z.sub. bpow_num. field.
  - rewrite Rabs_pos_eq by lra. simpl Z.sub. bpow_num. lra.
  - lia.
  - simpl Z.sub. bpow_num. apply Rabs_def1; lra.
Qed.

Lemma absorbed_node :
  fst (Rect.getXY (Rect.BoundingBoxNormalizer Rect.example_absorbed) 2) = 0.
Proof.
  unfold Rect.example_absorbed.
  rewrite normalizer_getXY by (simpl; lia).
  unfold Rect.normalize_point, Rect.scale, Rect.lX, Rect.lY.
  fold Rect.example_absorbed.
  change (Rect.scan [(-1, -90); (1, 90); (bpow (-54), 0)])
    with (Rect.scan (Rect.xy Rect.example_absorbed)).
  rewrite absorbed_scan. cbn [fst snd Rect.getXY Rect.xy nth].
  unfold Rect.normalize_coordinate.
  change (fst (Rect.getXY Rect.example_absorbed 2)) with (bpow (-54)).
  rewrite absorbed_sum.
  replace (1 - -1) with 2 by ring. replace (fl 2) with 2 by (symmetry; fl_const).
  replace (2 / 2) with 1 by field. replace (fl 1) with 1 by (symmetry; fl_const).
  replace (1 - 1) with 0 by ring. rewrite fl_0, Rmult_0_l, fl_0. reflexivity.
Qed.

End Absorbed.

(** ** The rounding errors of the result *)

Section ErrorAnalysis.
Local Open Scope R_scope.

Lemma abs_mul_le (a b A B : R) : Rabs a <= A -> Rabs b <= B -> Rabs (a * b) <= A * B.
Proof.
  intros Ha Hb. rewrite Rabs_mult.
  pose proof (Rabs_pos a). pose proof (Rabs_pos b). nra.
Qed.

Lemma eta_small : eta <= u / 1000000.
Proof.
  unfold eta, u. replace (-1075)%Z with (-53 + -1022)%Z by lia. rewrite bpow_add.
  pose proof (bpow_gt_0 (-53)).
  assert (bpow (-1022) <= / 1000000).
  { apply Rle_trans with (bpow (-53)); [apply bpow_le; lia | apply u_small]. }
  nra.
Qed.

Lemma sqrt3_tight : 1.732 < sqrt 3 < 1.7321.
Proof.
  assert (H : sqrt 3 * sqrt 3 = 3) by (apply sqrt_sqrt; lra).
  assert (H0 : 0 <= sqrt 3) by apply sqrt_pos.
  split; nra.
Qed.

Variables n c G s : R.
Hypothesis Hn : 1 <= n.
Hypothesis Hc : Rabs (c - sqrt 3) <= u * sqrt 3.
Hypothesis HG : Rabs (G - n * c) <= u * (n * c).
Hypothesis Hs : Rabs (s - 360 / G) <= u * (360 / G).

Local Abbreviation L := (360 / (sqrt 3 * n)).

Lemma ideal_edge : 0 < L /\ L * (sqrt 3 * n) = 360 /\ L * n <= 208 /\ L <= 208.
Proof using Hn.
  clear Hc HG Hs. pose proof sqrt3_tight as H3.
  assert (HD : 0 < sqrt 3 * n) by nra.
  assert (HL : 0 < L) by (apply Rdiv_lt_0_compat; lra).
  assert (E : L * (sqrt 3 * n) = 360) by (field; nra).
  split; [exact HL | split; [exact E | split]]; nra.
Qed.

Lemma G_close :
  Rabs (G - sqrt 3 * n) <= (2 * u + u * u) * (sqrt 3 * n) /\
  sqrt 3 * n * (1 - 3 * u) <= G /\ n * c * (1 - u) <= G /\ 0 < G /\ 0 < c.
Proof using Hn Hc HG.
  clear Hs. pose proof sqrt3_tight as H3. pose proof u_pos as Hu. pose proof u_small as Hus.
  apply Rabs_le_inv in Hc, HG.
  assert (Hc1 : sqrt 3 * (1 - u) <= c <= sqrt 3 * (1 + u)) by lra.
  assert (Hnc : n * (sqrt 3 * (1 - u)) <= n * c <= n * (sqrt 3 * (1 + u))) by nra.
  assert (Hu2 : u * (n * c) <= u * (n * (sqrt 3 * (1 + u)))) by nra.
  assert (HA : Rabs (G - sqrt 3 * n) <= (2 * u + u * u) * (sqrt 3 * n))
    by (apply Rabs_le; split; nra).
  pose proof (Rabs_le_inv _ _ HA) as HA'.
  assert (HD : 0 < sqrt 3 * n) by nra.
  split; [exact HA | split; [nra | split; [lra | split; nra]]].
Qed.

(** The scale factor is the ideal edge length up to [5 * u]. *)
Lemma scale_close : Rabs (s - L) <= 5 * u * L /\ 0 <= s <= L * (1 + 5 * u) /\
                    360 / G <= L * (1 + 3 * u).
Proof using Hn Hc HG Hs.
  pose proof u_pos as Hu. pose proof u_small as Hus.
  destruct ideal_edge as (HL & EL & _). destruct G_close as (HA & HGl & _ & HG0 & _).
  apply Rabs_le_inv in HA.
  set (l := 360 / (sqrt 3 * n)) in *.
  set (D := sqrt 3 * n) in *. set (q := 360 / G) in *.
  assert (HD : 0 < D) by (unfold D; pose proof sqrt3_tight; nra).
  assert (Eq : q * G = 360) by (unfold q; field; lra).
  assert (H3 : (2 * u + u * u) * D <= 3 * u * G) by nra.
  assert (ET : (q - l) * G = l * (D - G)) by lra.
  assert (HT1 : (q - l) * G <= 3 * u * l * G) by (rewrite ET; nra).
  assert (HT2 : - (3 * u * l) * G <= (q - l) * G) by (rewrite ET; nra).
  assert (Hq1 : q - l <= 3 * u * l) by (apply Rmult_le_reg_r with G; assumption).
  assert (Hq2 : - (3 * u * l) <= q - l) by (apply Rmult_le_reg_r with G; assumption).
  assert (Hq0 : 0 < q) by (unfold q; apply Rdiv_lt_0_compat; lra).
  apply Rabs_le_inv in Hs.
  assert (Huq : u * q <= u * (l * (1 + 3 * u))) by nra.
  split; [apply Rabs_le; split; nra | split; [split; nra | lra]].
Qed.

(** The x of a node of the result. *)
Lemma x_error (X B K : R) :
  Rabs X <= B -> B * L <= K ->
  Rabs (fl (X * s) - X * L) <= u * K * (6 + 5 * u) + eta.
Proof using Hn Hc HG Hs.
  intros HX HK. pose proof u_pos as Hu. pose proof u_small as Hus.
  destruct ideal_edge as (HL & _). destruct scale_close as (Hs1 & [Hs0 Hs2] & _).
  set (l := 360 / (sqrt 3 * n)) in *.
  pose proof (Rabs_pos X) as HX0.
  assert (HB : 0 <= B) by lra.
  pose proof (fl_error_eta (X * s)) as E1.
  assert (E2 : Rabs (X * s) <= B * (l * (1 + 5 * u))).
  { apply abs_mul_le; [exact HX | rewrite Rabs_pos_eq; lra]. }
  assert (E3 : Rabs (X * (s - l)) <= B * (5 * u * l)) by (apply abs_mul_le; assumption).
  replace (fl (X * s) - X * l) with ((fl (X * s) - X * s) + X * (s - l)) by ring.
  eapply Rle_trans; [apply Rabs_triang | ].
  assert (E4 : u * Rabs (X * s) <= u * (B * (l * (1 + 5 * u)))) by nra.
  assert (E5 : B * l * (1 + 5 * u) <= K * (1 + 5 * u)) by nra.
  nra.
Qed.

(** The y of a node of row [j], whose height before the normalization is
    [gj / 2]. *)
Lemma y_error (j gj : R) :
  0 <= j <= n -> Rabs (gj - j * c) <= u * (j * c) -> 0 <= gj <= G ->
  Rabs (fl (fl (gj / 2 - G / 4) * s) - (j - n / 2) * (180 / n)) <= 634 * u.
Proof using Hn Hc HG Hs.
  intros Hj Hgj Hgr. pose proof u_pos as Hu. pose proof u_small as Hus.
  pose proof eta_small as Heta. pose proof (bpow_gt_0 (-1075)) as Heta0. fold eta in Heta0.
  destruct ideal_edge as (HL & EL & HLn & HL208).
  destruct G_close as (_ & _ & HGnc & HG0 & Hc0).
  destruct scale_close as (_ & [Hs0 Hs2] & Hq3).
  set (l := 360 / (sqrt 3 * n)) in *.
  set (q := 360 / G) in *.
  assert (Eq : q * G = 360) by (unfold q; field; lra).
  assert (Hq0 : 0 < q) by (unfold q; apply Rdiv_lt_0_compat; lra).
  assert (Hul : 0 <= u * l <= l / 1000000).
  { split; [apply Rmult_le_pos; lra | ].
    replace (l / 1000000) with (/ 1000000 * l) by field.
    apply Rmult_le_compat_r; lra. }
  assert (Hq : q <= 209) by lra.
  apply Rabs_le_inv in Hs. apply Rabs_le_inv in HG. apply Rabs_le_inv in Hgj.
  assert (Huq : 0 <= u * q <= 209 * u).
  { split; [apply Rmult_le_pos; lra | ].
    rewrite (Rmult_comm 209). apply Rmult_le_compat_l; lra. }
  set (A := gj / 2 - G / 4).
  assert (HA : Rabs A <= G / 4) by (apply Rabs_le; unfold A; lra).
  set (Y := (j - n / 2) * (180 / n)).
  assert (HY : Rabs Y <= 90).
  { unfold Y. replace ((j - n / 2) * (180 / n)) with (180 * (j / n) - 90) by (field; lra).
    assert (0 <= j / n <= 1).
    { split; [apply Rle_mult_inv_pos; lra | ].
      apply Rmult_le_reg_r with n; [lra | ]. unfold Rdiv.
      rewrite Rmult_assoc, Rinv_l by lra. lra. }
    apply Rabs_le. lra. }
  assert (Hnc0 : 0 < n * c) by (apply Rmult_lt_0_compat; lra).
  (* step 1 *)
  assert (E1 : Rabs (A * q - Y) <= 361 * u).
  { assert (EW : (A * q - Y) * (G * n) = 180 * (n * gj - j * G)).
    { unfold A, Y, q. field. lra. }
    assert (Hjc : 0 <= j * c <= n * c).
    { split; [apply Rmult_le_pos; lra | apply Rmult_le_compat_r; lra]. }
    set (w := u * (n * c)) in *.
    assert (Hw : 0 <= w) by (apply Rmult_le_pos; lra).
    assert (Hujc : u * (j * c) <= w) by (apply Rmult_le_compat_l; lra).
    assert (H1 : Rabs (n * (gj - j * c)) <= n * w).
    { apply abs_mul_le; [rewrite Rabs_pos_eq; lra | apply Rabs_le; lra]. }
    assert (H2 : Rabs (j * (G - n * c)) <= n * w).
    { apply abs_mul_le; [rewrite Rabs_pos_eq; lra | apply Rabs_le; lra]. }
    assert (HR : Rabs (n * gj - j * G) <= 2 * (n * w)).
    { replace (n * gj - j * G) with (n * (gj - j * c) - j * (G - n * c)) by ring.
      eapply Rle_trans; [apply Rabs_triang | ]. rewrite Rabs_Ropp. lra. }
    apply Rabs_le_inv in HR.
    assert (HGn : 0 < G * n) by (apply Rmult_lt_0_compat; lra).
    assert (Hk : 360 * (n * w) <= 361 * u * (G * n)).
    { assert (Hg1 : n * c - w <= G) by (unfold w; lra).
      assert (Hw1 : w <= n * c / 1000000).
      { unfold w. replace (n * c / 1000000) with (/ 1000000 * (n * c)) by field.
        apply Rmult_le_compat_r; lra. }
      assert (Hg2 : u * (n * c * (360 / 361)) <= u * G) by (apply Rmult_le_compat_l; lra).
      assert (Hg3 : n * (u * (n * c * (360 / 361))) <= n * (u * G))
        by (apply Rmult_le_compat_l; lra).
      unfold w. lra. }
    apply Rabs_le. split; apply Rmult_le_reg_r with (G * n); try exact HGn; rewrite EW; lra. }
  (* step 2 *)
  pose proof (fl_error_eta A) as E2. set (y2 := fl A) in *.
  assert (E2' : Rabs (y2 - A) <= u * (G / 4) + eta).
  { assert (u * Rabs A <= u * (G / 4)) by (apply Rmult_le_compat_l; lra). lra. }
  assert (Hsq : Rabs s <= q * (1 + u)) by (rewrite Rabs_pos_eq; lra).
  assert (HuG : u * (G / 4) * q = 90 * u)
    by (replace (u * (G / 4) * q) with (u * (q * G) / 4) by field; rewrite Eq; field).
  assert (E3 : Rabs ((y2 - A) * s) <= (u * (G / 4) + eta) * (q * (1 + u)))
    by (apply abs_mul_le; assumption).
  assert (E3' : (u * (G / 4) + eta) * (q * (1 + u)) <= 91 * u).
  { replace ((u * (G / 4) + eta) * (q * (1 + u)))
      with (u * (G / 4) * q + u * (G / 4) * q * u + eta * q + eta * q * u) by ring.
    rewrite HuG.
    assert (Huu : 90 * u * u <= 90 * u * / 1000000) by (apply Rmult_le_compat_l; lra).
    assert (Heq : 0 <= eta * q <= eta * 209).
    { split; [apply Rmult_le_pos; lra | apply Rmult_le_compat_l; lra]. }
    assert (Hequ : eta * q * u <= eta * q * 1) by (apply Rmult_le_compat_l; lra).
    lra. }
  assert (E4 : Rabs (A * (s - q)) <= G / 4 * (u * q)).
  { apply abs_mul_le; [exact HA | apply Rabs_le; lra]. }
  assert (E4' : G / 4 * (u * q) = 90 * u) by (rewrite <- HuG; ring).
  (* step 3 *)
  set (Z := y2 * s).
  assert (EZ : Rabs (Z - Y) <= 361 * u + 91 * u + 90 * u).
  { replace (Z - Y) with ((A * q - Y) + (y2 - A) * s + A * (s - q)) by (unfold Z; ring).
    eapply Rle_trans; [apply Rabs_triang | ].
    eapply Rle_trans; [apply Rplus_le_compat_r; apply Rabs_triang | ]. lra. }
  assert (HZ : Rabs Z <= 91).
  { replace Z with ((Z - Y) + Y) by ring.
    eapply Rle_trans; [apply Rabs_triang | ]. lra. }
  pose proof (fl_error_eta Z) as E5.
  assert (HuZ : u * Rabs Z <= u * 91) by (apply Rmult_le_compat_l; lra).
  replace (fl Z - Y) with ((fl Z - Z) + (Z - Y)) by ring.
  eapply Rle_trans; [apply Rabs_triang | ]. lra.
Qed.

End ErrorAnalysis.

(** ** Distances between perturbed points *)

Section Distances.
Local Open Scope R_scope.

Lemma norm_triangle (a b a' b' A B : R) :
  Rabs (a' - a) <= A -> Rabs (b' - b) <= B ->
  sqrt (a' * a' + b' * b') <= sqrt (a * a + b * b) + (A + B).
Proof.
  intros HA HB. apply Rabs_le_inv in HA, HB.
  set (r := sqrt (a * a + b * b)).
  assert (Hr0 : 0 <= r) by apply sqrt_pos.
  assert (Hrr : r * r = a * a + b * b) by (apply sqrt_sqrt; nra).
  assert (Ha : - r <= a <= r) by (split; nra).
  assert (Hb : - r <= b <= r) by (split; nra).
  set (da := a' - a) in *. set (db := b' - b) in *.
  assert (P1 : 0 <= (r - a) * (A + da)) by (apply Rmult_le_pos; lra).
  assert (P2 : 0 <= (r + a) * (A - da)) by (apply Rmult_le_pos; lra).
  assert (P3 : 0 <= (r - b) * (B + db)) by (apply Rmult_le_pos; lra).
  assert (P4 : 0 <= (r + b) * (B - db)) by (apply Rmult_le_pos; lra).
  assert (P5 : 0 <= (A - da) * (A + da)) by (apply Rmult_le_pos; lra).
  assert (P6 : 0 <= (B - db) * (B + db)) by (apply Rmult_le_pos; lra).
  assert (P7 : 0 <= A * B) by (apply Rmult_le_pos; lra).
  assert (Hsq : a' * a' + b' * b' <= (r + (A + B)) * (r + (A + B))).
  { replace a' with (a + da) by (unfold da; ring).
    replace b' with (b + db) by (unfold db; ring). nra. }
  rewrite <- (sqrt_square (r + (A + B))) by lra.
  apply sqrt_le_1_alt. exact Hsq.
Qed.

Lemma distance_perturb (p q P Q : Rect.Point R) (ex ey : R) :
  Rabs (fst p - fst P) <= ex -> Rabs (fst q - fst Q) <= ex ->
  Rabs (snd p - snd P) <= ey -> Rabs (snd q - snd Q) <= ey ->
  Rabs (Rect.distance p q - Rect.distance P Q) <= 2 * (ex + ey).
Proof.
  intros Hx1 Hx2 Hy1 Hy2. apply Rabs_le_inv in Hx1, Hx2, Hy1, Hy2.
  unfold Rect.distance. apply Rabs_le. split.
  - pose proof (norm_triangle (fst p - fst q) (snd p - snd q) (fst P - fst Q) (snd P - snd Q)
                  (2 * ex) (2 * ey)) as H.
    assert (H1 : Rabs (fst P - fst Q - (fst p - fst q)) <= 2 * ex) by (apply Rabs_le; lra).
    assert (H2 : Rabs (snd P - snd Q - (snd p - snd q)) <= 2 * ey) by (apply Rabs_le; lra).
    specialize (H H1 H2). lra.
  - pose proof (norm_triangle (fst P - fst Q) (snd P - snd Q) (fst p - fst q) (snd p - snd q)
                  (2 * ex) (2 * ey)) as H.
    assert (H1 : Rabs (fst p - fst q - (fst P - fst Q)) <= 2 * ex) by (apply Rabs_le; lra).
    assert (H2 : Rabs (snd p - snd q - (snd P - snd Q)) <= 2 * ey) by (apply Rabs_le; lra).
    specialize (H H1 H2). lra.
Qed.

(** Two points that differ by [(dx, dy * sqrt 3 / 2)] times [len], for a
    step [(dx, dy)] of the sheared lattice, are [len] apart. *)
Lemma ideal_distance (len dx dy x1 y1 x2 y2 : R) :
  0 <= len -> dx * dx + 3 / 4 * (dy * dy) = 1 ->
  x1 - x2 = dx * len -> y1 - y2 = dy * (sqrt 3 / 2 * len) ->
  Rect.distance (x1, y1) (x2, y2) = len.
Proof.
  intros Hlen Hd Hx Hy. unfold Rect.distance. cbn [fst snd]. rewrite Hx, Hy.
  assert (H3 : sqrt 3 * sqrt 3 = 3) by (apply sqrt_sqrt; lra).
  replace (dx * len * (dx * len) + dy * (sqrt 3 / 2 * len) * (dy * (sqrt 3 / 2 * len)))
    with ((dx * dx + (sqrt 3 * sqrt 3) / 4 * (dy * dy)) * (len * len)) by field.
  rewrite H3, Hd, Rmult_1_l. apply sqrt_square. exact Hlen.
Qed.

End Distances.

(** ** The nodes of the result *)

Section ResultNodes.
Local Open Scope R_scope.
Variable ny : Z.
Hypothesis Hny : (2 <= ny)%Z.
Hypothesis Hmax : (3 * ny <= Rect.INT_MAX)%Z.

Local Abbreviation NX := (Z.to_nat (3 * ny)).
Local Abbreviation NY := (Z.to_nat ny).
Local Abbreviation N := (Rect.xy (Rect.rectMesh ny)).
Local Abbreviation tmesh := (Rect.transformedMesh ny).
Local Abbreviation n := (IZR (ny - 1)).
Local Abbreviation c := (fl (sqrt 3)).
Local Abbreviation G := (fl (IZR (ny - 1) * fl (sqrt 3))).
Local Abbreviation s := (Rect.scale N).
Local Abbreviation L := (360 / (sqrt 3 * IZR (ny - 1))).
Local Abbreviation xMin := (Rect.list_min (map fst N)).
Local Abbreviation xMax := (Rect.list_max (map fst N)).

Lemma n_ge_1 : 1 <= n.
Proof. apply IZR_le. lia. Qed.

Lemma normal_ge_1 (x : R) : 1 <= Rabs x -> bpow (-1022) <= Rabs x.
Proof. intros H. apply Rle_trans with 1; [apply bpow_neg_small; lia | exact H]. Qed.

Lemma c_error : Rabs (c - sqrt 3) <= u * sqrt 3.
Proof.
  pose proof sqrt3_bounds as H3. apply fl_error_ge1. lra.
Qed.

Lemma G_error : Rabs (G - n * c) <= u * (n * c).
Proof.
  pose proof (sqrt3_double) as Hc. pose proof n_ge_1 as Hn.
  assert (H : 1 <= n * c) by nra.
  apply fl_error_ge1. exact H.
Qed.

Lemma rect_scale : s = fl (360 / G).
Proof using Hny Hmax.
  unfold Rect.scale. rewrite (rect_lY_exact ny Hny Hmax).
  pose proof (G_bounds ny Hny Hmax) as [HG _].
  f_equal. field. lra.
Qed.

Lemma s_error : Rabs (s - 360 / G) <= u * (360 / G).
Proof using Hny Hmax.
  rewrite rect_scale. pose proof (G_bounds ny Hny Hmax) as [HG1 HG2].
  unfold Rect.INT_MAX in Hmax.
  assert (Hn : n <= 2 ^ 31).
  { rewrite pow_IZR. apply IZR_le. change (2 ^ Z.of_nat 31)%Z with 2147483648%Z. lia. }
  assert (Hq : / 2 ^ 32 <= 360 / G).
  { apply Rle_trans with (1 / G).
    - unfold Rdiv. rewrite Rmult_1_l. apply Rinv_le_contravar; simpl in *; lra.
    - unfold Rdiv. apply Rmult_le_compat_r; [left; apply Rinv_0_lt_compat | ]; lra. }
  assert (Hq0 : 0 < 360 / G) by (apply Rdiv_lt_0_compat; lra).
  pose proof (fl_error (360 / G)) as He. rewrite Rabs_pos_eq in He by lra.
  apply He.
  apply Rle_trans with (/ 2 ^ 32); [ | exact Hq].
  change (-1022)%Z with (Z.opp 1022). rewrite bpow_opp.
  apply Rinv_le_contravar; [simpl; lra | ].
  rewrite bpow_nonneg_IZR, pow_IZR by lia. apply IZR_le.
  change (Z.of_nat 32) with 32%Z. apply Z.pow_le_mono_r; lia.
Qed.

(** *** The x of the nodes *)

Lemma hi_x_le : fst (Rect.hi ny) <= 2 * n + 1.
Proof using Hny Hmax.
  pose proof (G_bounds ny Hny Hmax) as [HG1 HG2]. unfold Rect.INT_MAX in Hmax.
  assert (EL : Rect.length ny = G).
  { unfold Rect.length, Rect.newHeight.
    rewrite (half_exact G (fl_format _)) by
      (right; apply Rle_trans with 1;
       [apply bpow_neg_small; lia | rewrite Rabs_pos_eq; lra]).
    replace (G / 2 * 2) with G by field. apply fl_idem. }
  unfold Rect.hi. cbn [fst]. rewrite EL.
  assert (H3 : IZR (3 * ny) = 3 * n + 3) by (rewrite minus_IZR, mult_IZR; ring).
  assert (E1 : fl 1 = 1) by fl_const.
  assert (E0 : fl 0 = 0) by apply fl_0.
  assert (Hd : 0 <= G / IZR (3 * ny) <= 1).
  { rewrite H3. split; [apply Rle_mult_inv_pos; lra | ].
    apply Rmult_le_reg_r with (3 * n + 3); [lra | ].
    unfold Rdiv. rewrite Rmult_assoc, Rinv_l by lra. lra. }
  assert (Hf1 : 0 <= fl (G / IZR (3 * ny)) <= 1).
  { split; [apply fl_nonneg; lra | apply (fl_le_const _ _ E1); lra]. }
  assert (Hf2 : 0 <= fl 0.1 <= 1).
  { split; [apply fl_nonneg; lra | apply (fl_le_const _ _ E1); lra]. }
  assert (Hp : fl (fl (G / IZR (3 * ny)) * fl 0.1) <= 1).
  { apply (fl_le_const _ _ E1). nra. }
  apply fl_le_const; [ | lra].
  replace (2 * n + 1) with (IZR (2 * (ny - 1) + 1)) by (rewrite plus_IZR, mult_IZR; ring).
  apply format_fl, format_IZR. lia.
Qed.

(** The vertices of a cell of the sheared mesh are at most 1 apart in x. *)
Lemma cell_vertices_x (cellIdx : nat) (p q : Rect.Point R) :
  (cellIdx < Rect.cells_size tmesh)%nat ->
  In p (Rect.cell_vertices tmesh cellIdx) -> In q (Rect.cell_vertices tmesh cellIdx) ->
  Rabs (fst p - fst q) <= 1.
Proof using Hny Hmax.
  intros Hlt Hp Hq.
  destruct (transformed_cell ny Hny cellIdx Hlt) as (i & j & Hi & Hj & Hc).
  unfold Rect.cell_vertices in Hp, Hq.
  destruct Hc as [Hc | Hc]; rewrite Hc in Hp, Hq;
    unfold Rect.tri_up, Rect.tri_down in Hp, Hq;
    rewrite !(transformed_getXY ny Hny) in Hp, Hq by lia;
    simpl in Hp, Hq;
    destruct Hp as [<- | [<- | [<- | []]]]; destruct Hq as [<- | [<- | [<- | []]]];
    rewrite !(sheared_fst ny Hny Hmax) by lia;
    match goal with
    | |- Rabs (IZR ?a / 2 - IZR ?b / 2) <= 1 =>
        replace (IZR a / 2 - IZR b / 2) with (IZR (a - b) / 2)
          by (rewrite minus_IZR; field);
        assert (Hk : (-2 <= a - b <= 2)%Z) by lia;
        destruct Hk as [Hk1 Hk2]; apply IZR_le in Hk1, Hk2;
        apply Rabs_le; lra
    end.
Qed.

Lemma rect_node_x (p : Rect.Point R) :
  In p N ->
  -1 < fst p < 2 * n + 2 /\
  exists k : Z, fst p = IZR k / 2 /\ (Z.abs k < 2 ^ 34)%Z.
Proof using Hny Hmax.
  intros Hp. pose proof hi_x_le as Hhi. unfold Rect.INT_MAX in Hmax.
  split.
  - apply sub_xy_inv in Hp. destruct Hp as (cellIdx & m & Hk & Hm & _ & ->).
    apply keep_in in Hk. destruct Hk as [Hlt Hin].
    apply TriangleInBB_true in Hin. destruct Hin as (q & Hq & (Hx1 & Hx2) & _).
    change (Rltb 0 (fst q) = true) in Hx1.
    change (Rltb (fst q) (fst (Rect.hi ny)) = true) in Hx2.
    apply Rltb_true in Hx1, Hx2.
    assert (Hpv : In (Rect.getXY tmesh m) (Rect.cell_vertices tmesh cellIdx)).
    { unfold Rect.cell_vertices.
      destruct (Rect.cellToNode tmesh cellIdx) as [[n0 n1] n2]. simpl in Hm |- *.
      destruct Hm as [<- | [<- | [<- | []]]]; auto. }
    pose proof (cell_vertices_x cellIdx _ _ Hlt Hpv Hq) as Hd.
    apply Rabs_le_inv in Hd. lra.
  - destruct (rect_nodes_inv ny Hny p Hp) as (a & b & Ha & Hb & ->).
    rewrite (sheared_fst ny Hny Hmax) by assumption.
    eexists. split; [reflexivity | lia].
Qed.

Lemma rect_x_extremes :
  (exists k0 : Z, xMin = IZR k0 / 2 /\ (Z.abs k0 < 2 ^ 34)%Z) /\
  (exists k1 : Z, xMax = IZR k1 / 2 /\ (Z.abs k1 < 2 ^ 34)%Z) /\
  -1 < xMin /\ xMax < 2 * n + 2 /\ xMin <= xMax.
Proof using Hny Hmax.
  assert (Hne : map fst N <> []).
  { pose proof (rect_nonempty ny Hny). destruct N; [congruence | discriminate]. }
  destruct (list_min_is_min _ Hne) as [Hin0 _], (list_max_is_max _ Hne) as [Hin1 _].
  pose proof (list_min_le_max _ Hne) as Hle.
  apply in_map_iff in Hin0, Hin1.
  destruct Hin0 as (p0 & E0 & Hp0), Hin1 as (p1 & E1 & Hp1).
  destruct (rect_node_x p0 Hp0) as [B0 K0], (rect_node_x p1 Hp1) as [B1 K1].
  rewrite E0 in B0, K0. rewrite E1 in B1, K1.
  repeat split; try assumption; lra.
Qed.

Lemma rect_lX_exact : Rect.lX N = xMax - xMin /\ fl (Rect.lX N / 2) = (xMax - xMin) / 2.
Proof using Hny Hmax.
  destruct rect_x_extremes as ((k0 & E0 & H0) & (k1 & E1 & H1) & _).
  assert (EX : Rect.lX N = xMax - xMin).
  { rewrite (rect_lX ny Hny), E0, E1.
    replace (IZR k1 / 2 - IZR k0 / 2) with (IZR (k1 - k0) / 2) by (rewrite minus_IZR; field).
    apply format_fl, format_half. lia. }
  split; [exact EX | ]. rewrite EX, E0, E1.
  replace ((IZR k1 / 2 - IZR k0 / 2) / 2) with (IZR (k1 - k0) / 4)
    by (rewrite minus_IZR; field).
  apply format_fl, format_quarter. lia.
Qed.

(** The re-centring of x is exact. *)
Lemma rect_x_out (p : Rect.Point R) :
  In p N ->
  fst (Rect.normalize_point N p) = fl ((fst p - xMin - (xMax - xMin) / 2) * s) /\
  Rabs (fst p - xMin - (xMax - xMin) / 2) <= n + 3 / 2.
Proof using Hny Hmax.
  intros Hp. destruct rect_x_extremes as ((k0 & E0 & H0) & (k1 & E1 & H1) & B0 & B1 & Hle).
  destruct rect_lX_exact as [EX EhX].
  destruct (rect_node_x p Hp) as [_ (k & Ek & Hk)].
  assert (Hne : map fst N <> []).
  { pose proof (rect_nonempty ny Hny). destruct N; [congruence | discriminate]. }
  destruct (list_min_is_min _ Hne) as [_ Hlb], (list_max_is_max _ Hne) as [_ Hub].
  specialize (Hlb _ (in_map fst _ _ Hp)). specialize (Hub _ (in_map fst _ _ Hp)).
  split; [ | apply Rabs_le; lra].
  rewrite (normalize_point_eq N (rect_scan ny Hny)). cbn [fst].
  unfold Rect.normalize_coordinate. rewrite EhX.
  assert (F1 : fl (fst p - xMin) = fst p - xMin).
  { rewrite Ek, E0.
    replace (IZR k / 2 - IZR k0 / 2) with (IZR (k - k0) / 2) by (rewrite minus_IZR; field).
    apply format_fl, format_half. lia. }
  rewrite F1.
  assert (F2 : fl (fst p - xMin - (xMax - xMin) / 2) = fst p - xMin - (xMax - xMin) / 2).
  { rewrite Ek, E0, E1.
    replace (IZR k / 2 - IZR k0 / 2 - (IZR k1 / 2 - IZR k0 / 2) / 2)
      with (IZR (2 * k - k0 - k1) / 4)
      by (rewrite !minus_IZR, mult_IZR; field).
    apply format_fl, format_quarter. lia. }
  rewrite F2. reflexivity.
Qed.

Lemma rect_x_error (p : Rect.Point R) :
  In p N ->
  Rabs (fst (Rect.normalize_point N p) - (fst p - xMin - (xMax - xMin) / 2) * L)
  <= 3121 * u.
Proof using Hny Hmax.
  intros Hp. destruct (rect_x_out p Hp) as [-> HX].
  pose proof u_pos as Hu. pose proof u_small as Hus. pose proof eta_small as Heta.
  pose proof n_ge_1 as Hn.
  destruct (ideal_edge n Hn) as (HL & EL & HLn & HL208).
  pose proof (x_error n c G s Hn c_error G_error s_error _ (n + 3 / 2) 520 HX) as H.
  assert (HK : (n + 3 / 2) * L <= 520) by lra.
  specialize (H HK).
  assert (Huu : u * 520 * (5 * u) <= u * 520 * (5 * / 1000000)).
  { apply Rmult_le_compat_l; [lra | lra]. }
  lra.
Qed.

(** *** The y of the nodes *)

Lemma rect_y_out (a b : nat) :
  (b < NY)%nat ->
  snd (Rect.normalize_point N (Rect.sheared a b)) =
  fl (fl (fl (INR b * c) / 2 - G / 4) * s).
Proof using Hny Hmax.
  intros Hb. pose proof (G_bounds ny Hny Hmax) as [HG1 HG2].
  pose proof sqrt3_double as Hc.
  rewrite (normalize_point_eq N (rect_scan ny Hny)). cbn [snd].
  unfold Rect.normalize_coordinate.
  rewrite (rect_ymin ny Hny), Rminus_0_r, (rect_lY_exact ny Hny Hmax).
  rewrite (sheared_snd a b), fl_idem.
  assert (Hh : fl (G / 2 / 2) = G / 4).
  { assert (Hf : format (G / 2)).
    { rewrite <- (top_row ny Hny Hmax 0), sheared_snd. apply fl_format. }
    rewrite (half_exact (G / 2) Hf); [field | right].
    rewrite Rabs_pos_eq by lra.
    apply Rle_trans with (1 / 2); [ | lra].
    replace (1 / 2) with (bpow (-1)) by (unfold bpow; simpl; lra). apply bpow_le. lia. }
  rewrite Hh.
  assert (Hrow : fl (fl (INR b * c) / 2) = fl (INR b * c) / 2).
  { apply half_exact; [apply fl_format | ].
    destruct b as [|b]; [left; cbn [INR]; rewrite Rmult_0_l; apply fl_0 | right].
    assert (H1 : 1 <= INR (S b)) by (rewrite S_INR; pose proof (pos_INR b); lra).
    assert (E1 : fl 1 = 1) by fl_const.
    assert (1 <= fl (INR (S b) * c)) by (apply (fl_ge_const _ _ E1); nra).
    rewrite Rabs_pos_eq by lra.
    apply Rle_trans with 1; [apply bpow_neg_small; lia | assumption]. }
  rewrite Hrow. reflexivity.
Qed.

Lemma rect_y_error (a b : nat) :
  (b < NY)%nat ->
  Rabs (snd (Rect.normalize_point N (Rect.sheared a b)) - (INR b - n / 2) * (180 / n))
  <= 634 * u.
Proof using Hny Hmax.
  intros Hb. rewrite (rect_y_out a b Hb).
  pose proof n_ge_1 as Hn. pose proof sqrt3_double as Hc.
  assert (Hj : 0 <= INR b <= n).
  { split; [apply pos_INR | ]. rewrite INR_IZR_INZ. apply IZR_le. lia. }
  apply (y_error n c G s Hn c_error G_error s_error (INR b) (fl (INR b * c)) Hj).
  - destruct b as [|b].
    + cbn [INR]. rewrite !Rmult_0_l, fl_0, Rminus_0_r, Rabs_R0, Rmult_0_r. lra.
    + assert (H1 : 1 <= INR (S b)) by (rewrite S_INR; pose proof (pos_INR b); lra).
      assert (H2 : 1 <= INR (S b) * c) by nra.
      apply fl_error_ge1. exact H2.
  - split; [apply fl_nonneg; apply Rmult_le_pos; lra | ].
    apply fl_le. apply Rmult_le_compat_r; lra.
Qed.

(** *** Two nodes one lattice step apart *)

Lemma tolerance_value : 2 * (3121 * u + 634 * u) <= / 10 ^ 12.
Proof.
  change u with (bpow (Z.opp 53)). rewrite bpow_opp, bpow_nonneg_IZR by lia.
  change (2 ^ 53)%Z with 9007199254740992%Z.
  replace (10 ^ 12) with 1000000000000 by (simpl; lra).
  lra.
Qed.

Lemma pair_distance (a b a' b' : nat) (dx dy : R) :
  (a < NX)%nat -> (b < NY)%nat -> (a' < NX)%nat -> (b' < NY)%nat ->
  In (Rect.sheared a b) N -> In (Rect.sheared a' b') N ->
  IZR (2 * Z.of_nat a - Z.of_nat b) / 2 - IZR (2 * Z.of_nat a' - Z.of_nat b') / 2 = dx ->
  INR b - INR b' = dy ->
  dx * dx + 3 / 4 * (dy * dy) = 1 ->
  Rabs (Rect.distance (Rect.normalize_point N (Rect.sheared a b))
                      (Rect.normalize_point N (Rect.sheared a' b')) - L) <= / 10 ^ 12.
Proof using Hny Hmax.
  intros Ha Hb Ha' Hb' Hin Hin' Hdx Hdy Hstep.
  pose proof n_ge_1 as Hn. destruct (ideal_edge n Hn) as (HL & EL & _).
  pose proof (rect_x_error _ Hin) as X1. pose proof (rect_x_error _ Hin') as X2.
  pose proof (rect_y_error a b Hb) as Y1. pose proof (rect_y_error a' b' Hb') as Y2.
  rewrite !(sheared_fst ny Hny Hmax) in X1, X2 by assumption.
  set (cx := xMin + (xMax - xMin) / 2).
  set (P := ((IZR (2 * Z.of_nat a - Z.of_nat b) / 2 - cx) * L,
             (INR b - n / 2) * (180 / n))).
  set (Q := ((IZR (2 * Z.of_nat a' - Z.of_nat b') / 2 - cx) * L,
             (INR b' - n / 2) * (180 / n))).
  assert (HPQ : Rect.distance P Q = L).
  { apply (ideal_distance L dx dy); [lra | exact Hstep | | ].
    - rewrite <- Hdx. ring.
    - rewrite <- Hdy. pose proof sqrt3_bounds. field. lra. }
  rewrite <- HPQ at 1.
  eapply Rle_trans; [ | apply tolerance_value].
  apply distance_perturb; unfold P, Q; cbn [fst snd]; try assumption.
  - replace ((IZR (2 * Z.of_nat a - Z.of_nat b) / 2 - cx) * L)
      with ((IZR (2 * Z.of_nat a - Z.of_nat b) / 2 - xMin - (xMax - xMin) / 2) * L)
      by (unfold cx; ring).
    exact X1.
  - replace ((IZR (2 * Z.of_nat a' - Z.of_nat b') / 2 - cx) * L)
      with ((IZR (2 * Z.of_nat a' - Z.of_nat b') / 2 - xMin - (xMax - xMin) / 2) * L)
      by (unfold cx; ring).
    exact X2.
Qed.

End ResultNodes.

(** ** The triangles of the result *)

Lemma BoundingBoxNormalizer_getXY (mesh : Rect.Mesh R) (n : nat) :
  (n < Rect.nodes_size mesh)%nat ->
  Rect.getXY (Rect.BoundingBoxNormalizer mesh) n =
  Rect.normalize_point (Rect.xy mesh) (Rect.getXY mesh n).
Proof. destruct mesh as [nodes conn]. apply normalizer_getXY. Qed.

Section Equilateral.
Local Open Scope R_scope.
Variable ny : Z.
Hypothesis Hny : (2 <= ny)%Z.
Hypothesis Hmax : (3 * ny <= Rect.INT_MAX)%Z.

Local Abbreviation NX := (Z.to_nat (3 * ny)).
Local Abbreviation NY := (Z.to_nat ny).
Local Abbreviation N := (Rect.xy (Rect.rectMesh ny)).
Local Abbreviation L := (360 / (sqrt 3 * IZR (ny - 1))).

Ltac lattice_step :=
  match goal with
  | |- IZR ?a / 2 - IZR ?b / 2 = IZR ?k / 2 =>
      replace (IZR a / 2 - IZR b / 2) with (IZR (a - b) / 2) by (rewrite minus_IZR; field);
      do 2 f_equal; lia
  | |- INR _ - INR _ = _ => rewrite ?plus_INR; cbn [INR]; lra
  | |- _ * _ + 3 / 4 * _ = 1 => lra
  | |- (_ < _)%nat => lia
  end.

(** Every cell of the result is a sheared lattice triangle, normalized:
    its edges have the ideal length up to rounding. *)
Lemma result_cell_within (cell : nat * nat * nat) :
  In cell (Rect.node_connectivity (Rect.AtlasMeshRect ny)) ->
  Rect.equilateral_within (/ 10 ^ 12) (Rect.AtlasMeshRect ny) L cell.
Proof using Hny Hmax.
  intros Hc. change (In cell (Rect.node_connectivity (Rect.rectMesh ny))) in Hc.
  destruct (sub_cell_vertices _ _ cell (keep_valid ny Hny) Hc) as (cellIdx & Hk & Hlt & Hv).
  apply keep_in in Hk. destruct Hk as [Hidx _].
  destruct (transformed_cell ny Hny cellIdx Hidx) as (i & j & Hat).
  fold (Rect.rectMesh ny) in Hv, Hlt.
  unfold Rect.equilateral_within, Rect.AtlasMeshRect.
  destruct cell as [[n0 n1] n2]. destruct Hlt as (L0 & L1 & L2).
  unfold Rect.vertices at 1.
  rewrite !BoundingBoxNormalizer_getXY by assumption.
  assert (I0 : In (Rect.getXY (Rect.rectMesh ny) n0) N) by (apply nth_In; exact L0).
  assert (I1 : In (Rect.getXY (Rect.rectMesh ny) n1) N) by (apply nth_In; exact L1).
  assert (I2 : In (Rect.getXY (Rect.rectMesh ny) n2) N) by (apply nth_In; exact L2).
  unfold Rect.vertices at 1 in Hv.
  pose proof Hat as (Hi & Hj & _).
  destruct (cell_at_vertices ny Hny i j _ Hat) as [E | E]; rewrite E in Hv;
    injection Hv as E0 E1 E2; rewrite E0 in *; rewrite E1 in *; rewrite E2 in *.
  - repeat split.
    + apply (pair_distance ny Hny Hmax i j i (j + 1) (IZR 1 / 2) (-1)); try assumption;
        lattice_step.
    + apply (pair_distance ny Hny Hmax i (j + 1) (i + 1) (j + 1) (IZR (-2) / 2) 0);
        try assumption; lattice_step.
    + apply (pair_distance ny Hny Hmax i j (i + 1) (j + 1) (IZR (-1) / 2) (-1));
        try assumption; lattice_step.
  - repeat split.
    + apply (pair_distance ny Hny Hmax i j (i + 1) (j + 1) (IZR (-1) / 2) (-1));
        try assumption; lattice_step.
    + apply (pair_distance ny Hny Hmax (i + 1) (j + 1) (i + 1) j (IZR (-1) / 2) 1);
        try assumption; lattice_step.
    + apply (pair_distance ny Hny Hmax i j (i + 1) j (IZR (-2) / 2) 0);
        try assumption; lattice_step.
Qed.

End Equilateral.

(** ** The mesh for [ny = 2], evaluated *)

Section Rect2.
Local Open Scope R_scope.

Local Abbreviation tmesh2 := (Rect.transformedMesh 2).

Lemma tmesh2_cells :
  Rect.node_connectivity tmesh2 =
  [(0, 6, 7); (0, 7, 1); (1, 7, 8); (1, 8, 2); (2, 8, 9); (2, 9, 3); (3, 9, 10); (3, 10, 4);
   (4, 10, 11); (4, 11, 5)]%nat.
Proof. rewrite (transformed_eq 2) by lia. reflexivity. Qed.

(** The x-bound of the selection box for [ny = 2] is between 3/2 and 2. *)
Lemma hi2_bounds : 3 / 2 < fst (Rect.hi 2) < 2.
Proof.
  pose proof sqrt3_tight as Hs.
  assert (E1 : fl (13 / 8) = 13 / 8).
  { apply format_fl. exists 13%Z, (-3)%Z. split; [bpow_num; lra | split; [reflexivity | lia]]. }
  assert (E2 : fl (7 / 4) = 7 / 4) by fl_const.
  assert (E3 : fl (1 / 2) = 1 / 2) by fl_const.
  assert (E4 : fl (1 / 4) = 1 / 4) by fl_const.
  assert (E5 : fl (1 / 8) = 1 / 8).
  { apply format_fl. exists 1%Z, (-3)%Z. split; [bpow_num; lra | split; [reflexivity | lia]]. }
  assert (E6 : fl (15 / 8) = 15 / 8).
  { apply format_fl. exists 15%Z, (-3)%Z. split; [bpow_num; lra | split; [reflexivity | lia]]. }
  assert (Hc : 13 / 8 <= fl (sqrt 3) <= 7 / 4).
  { split; [apply (fl_ge_const _ _ E1) | apply (fl_le_const _ _ E2)]; lra. }
  assert (EL : Rect.length 2 = fl (sqrt 3)).
  { unfold Rect.length, Rect.newHeight. replace (IZR (2 - 1)) with 1 by (simpl; lra).
    rewrite Rmult_1_l, fl_idem.
    rewrite (half_exact (fl (sqrt 3)) (fl_format _)) by
      (right; apply Rle_trans with 1;
       [apply bpow_neg_small; lia | rewrite Rabs_pos_eq; lra]).
    replace (fl (sqrt 3) / 2 * 2) with (fl (sqrt 3)) by field. apply fl_idem. }
  unfold Rect.hi. cbn [fst]. rewrite EL. set (c := fl (sqrt 3)) in *.
  replace (IZR (3 * 2)) with 6 by (simpl; lra).
  assert (Hd : 0 <= fl (c / 6) <= 1 / 2).
  { split; [apply fl_nonneg; lra | apply (fl_le_const _ _ E3); lra]. }
  assert (Ht : 0 <= fl 0.1 <= 1 / 4).
  { split; [apply fl_nonneg; lra | apply (fl_le_const _ _ E4); lra]. }
  assert (Hp : 0 <= fl (fl (c / 6) * fl 0.1) <= 1 / 8).
  { split; [apply fl_nonneg; nra | apply (fl_le_const _ _ E5); nra]. }
  assert (H1 : 13 / 8 <= fl (c + fl (fl (c / 6) * fl 0.1))) by (apply (fl_ge_const _ _ E1); lra).
  assert (H2 : fl (c + fl (fl (c / 6) * fl 0.1)) <= 15 / 8) by (apply (fl_le_const _ _ E6); lra).
  lra.
Qed.

(** Of the 12 lattice points, (1,0), (1,1) and (2,1) are strictly inside
    the selection box. *)
Lemma inside_2 (i j : nat) :
  (i < 6)%nat -> (j < 2)%nat ->
  Rect.inBB Rect.lo (Rect.hi 2) (fst (Rect.sheared i j)) (snd (Rect.sheared i j)) =
  ((i =? 1)%nat && (j =? 0)%nat) || ((i =? 1)%nat && (j =? 1)%nat)
  || ((i =? 2)%nat && (j =? 1)%nat).
Proof.
  intros Hi Hj. pose proof hi2_bounds as Hhi.
  pose proof (DBL_MAX_ge_pow 1 ltac:(lia)) as Hd. simpl in Hd.
  set (h := fst (Rect.hi 2)) in *.
  assert (Hbox : forall x y, Rect.inBB Rect.lo (Rect.hi 2) x y =
                             Rltb 0 x && Rltb (- Rect.DBL_MAX) y && Rltb x h
                             && Rltb y Rect.DBL_MAX) by reflexivity.
  assert (Hy : 0 <= snd (Rect.sheared i j) <= 1).
  { split; [apply row_nonneg | ].
    apply Rle_trans with (snd (Rect.sheared i 1)); [apply row_le; lia | apply row_1]. }
  rewrite Hbox, (sheared_fst 2) by (unfold Rect.INT_MAX; simpl; lia).
  set (y := snd (Rect.sheared i j)) in *.
  assert (T : forall a b, a < b -> Rltb a b = true) by (intros; apply Rltb_true; assumption).
  assert (F : forall a b, b <= a -> Rltb a b = false).
  { intros a b Hab. destruct (Rltb a b) eqn:E; [apply Rltb_true in E; lra | reflexivity]. }
  destruct i as [|[|[|[|[|[|i]]]]]]; try lia; destruct j as [|[|j]]; try lia;
    cbn [Nat.eqb andb orb]; simpl Z.sub;
    repeat first [rewrite T by lra | rewrite F by lra]; reflexivity.
Qed.

Lemma tmesh2_getXY (i j : nat) :
  (i < 6)%nat -> (j < 2)%nat ->
  Rect.getXY tmesh2 (j * 6 + i) = Rect.sheared i j.
Proof. intros Hi Hj. apply (transformed_getXY 2); lia. Qed.

(** The first five triangles are kept. *)
Lemma keep_2 : Rect.keep 2 = [0; 1; 2; 3; 4]%nat.
Proof.
  unfold Rect.keep.
  replace (Rect.cells_size tmesh2) with 10%nat
    by (unfold Rect.cells_size; rewrite tmesh2_cells; reflexivity).
  assert (H : forall cellIdx i0 j0 i1 j1 i2 j2,
             Rect.cellToNode tmesh2 cellIdx = (j0 * 6 + i0, j1 * 6 + i1, j2 * 6 + i2)%nat ->
             (i0 < 6)%nat -> (j0 < 2)%nat -> (i1 < 6)%nat -> (j1 < 2)%nat ->
             (i2 < 6)%nat -> (j2 < 2)%nat ->
             Rect.TriangleInBB tmesh2 cellIdx Rect.lo (Rect.hi 2) =
             Rect.inBB Rect.lo (Rect.hi 2) (fst (Rect.sheared i0 j0)) (snd (Rect.sheared i0 j0))
             || Rect.inBB Rect.lo (Rect.hi 2) (fst (Rect.sheared i1 j1))
                  (snd (Rect.sheared i1 j1))
             || Rect.inBB Rect.lo (Rect.hi 2) (fst (Rect.sheared i2 j2))
                  (snd (Rect.sheared i2 j2))).
  { intros cellIdx i0 j0 i1 j1 i2 j2 Hc. intros.
    unfold Rect.TriangleInBB. rewrite Hc, !tmesh2_getXY by assumption.
    destruct (Rect.sheared i0 j0), (Rect.sheared i1 j1), (Rect.sheared i2 j2). reflexivity. }
  assert (C : forall k, Rect.cellToNode tmesh2 k =
                        nth k (Rect.node_connectivity tmesh2) (0, 0, 0)%nat) by reflexivity.
  simpl seq. cbn [filter].
  rewrite (H 0 0 0 0 1 1 1)%nat, (H 1 0 0 1 1 1 0)%nat, (H 2 1 0 1 1 2 1)%nat,
    (H 3 1 0 2 1 2 0)%nat, (H 4 2 0 2 1 3 1)%nat, (H 5 2 0 3 1 3 0)%nat,
    (H 6 3 0 3 1 4 1)%nat, (H 7 3 0 4 1 4 0)%nat, (H 8 4 0 4 1 5 1)%nat,
    (H 9 4 0 5 1 5 0)%nat
    by (try lia; rewrite C, tmesh2_cells; reflexivity).
  rewrite !inside_2 by lia. reflexivity.
Qed.

(** The cells of [AtlasMeshRect 2]: five triangles over seven nodes. *)
Lemma AtlasMeshRect_2_cells :
  Rect.node_connectivity (Rect.AtlasMeshRect 2) =
  [(0, 3, 4); (0, 4, 1); (1, 4, 5); (1, 5, 2); (2, 5, 6)]%nat.
Proof.
  change (Rect.node_connectivity (Rect.AtlasMeshRect 2))
    with (Rect.node_connectivity (Rect.rectMesh 2)).
  unfold Rect.rectMesh. rewrite sub_cells.
  assert (K : Rect.keepNodes tmesh2 (Rect.keep 2) = [0; 1; 2; 6; 7; 8; 9]%nat).
  { unfold Rect.keepNodes, Rect.referenced. rewrite keep_2.
    replace (Rect.nodes_size tmesh2) with 12%nat
      by (rewrite (transformed_nodes_size 2) by lia; reflexivity).
    unfold Rect.cellToNode. rewrite tmesh2_cells. reflexivity. }
  rewrite K, keep_2. unfold Rect.cellToNode. rewrite tmesh2_cells. reflexivity.
Qed.

End Rect2.

(** ** The extent, the triangles and the normalized mesh *)

(** C1, as amended.  For every [ny >= 2] for which [nx = 3 * ny] is an
    [int], the bounding box of the nodes of [AtlasMeshRect ny] is centred at
    the origin on both axes, exactly, and their y-extent is 180 up to two
    roundings: it differs from 180 by at most [180 * (2 * u + u * u)], which
    is less than 4e-14. *)
Theorem AtlasMeshRect_extent :
  forall ny : Z,
    (2 <= ny)%Z -> (3 * ny <= Rect.INT_MAX)%Z ->
    let mesh := Rect.AtlasMeshRect ny in
    (Rabs (Rect.list_max (Rect.ys mesh) - Rect.list_min (Rect.ys mesh) - 180)
     <= 180 * (2 * u + u * u))%R /\
    ((Rect.list_max (Rect.xs mesh) + Rect.list_min (Rect.xs mesh)) / 2 = 0)%R /\
    ((Rect.list_max (Rect.ys mesh) + Rect.list_min (Rect.ys mesh)) / 2 = 0)%R.
Proof.
  intros ny Hny Hmax mesh. exact (rect_extent ny Hny Hmax).
Qed.

Lemma AtlasMeshRect_extent_witness :
  (Rabs (Rect.list_max (Rect.ys (Rect.AtlasMeshRect 2)) -
         Rect.list_min (Rect.ys (Rect.AtlasMeshRect 2)) - 180)
   <= 180 * (2 * u + u * u))%R.
Proof.
  apply (AtlasMeshRect_extent 2); [lia | unfold Rect.INT_MAX; lia].
Defined.

(** C1, as stated, fails at [ny = 4]: the y-extent of [AtlasMeshRect 4] is
    not 180 (it is [180 - 2^-45], the double just below 180). *)
Lemma AtlasMeshRect_extent_not_exact :
  (Rect.list_max (Rect.ys (Rect.AtlasMeshRect 4)) -
   Rect.list_min (Rect.ys (Rect.AtlasMeshRect 4)) <> 180)%R.
Proof.
  rewrite rect4_extent. pose proof (bpow_gt_0 (-45)). lra.
Qed.

(** C5. For every [ny >= 2] the divisor [lY = yMax - yMin] that
    [AtlasMeshRect ny] computes over the nodes of the extracted submesh is
    strictly positive, so [scale = 180 / lY] does not divide by zero. *)
Theorem AtlasMeshRect_lY_positive :
  forall ny : Z,
    (2 <= ny)%Z ->
    (0 < Rect.lY (Rect.xy (Rect.rectMesh ny)))%R /\
    Rect.lY (Rect.xy (Rect.rectMesh ny)) <> 0%R.
Proof.
  intros ny Hny. pose proof (rect_lY_pos ny Hny) as H. split; [exact H | lra].
Qed.

Lemma AtlasMeshRect_lY_positive_witness :
  (0 < Rect.lY (Rect.xy (Rect.rectMesh 2)))%R.
Proof.
  apply (AtlasMeshRect_lY_positive 2). lia.
Defined.

(** C2, as amended.  For every [ny >= 2] for which [nx = 3 * ny] is an
    [int], every triangle of [AtlasMeshRect ny] is equilateral up to
    rounding: each of the three distances between its vertices differs from
    [360 / (sqrt 3 * (ny - 1))], which is [2 / sqrt 3] times the row height
    [180 / (ny - 1)], by at most 1e-12. *)
Theorem AtlasMeshRect_equilateral :
  forall (ny : Z) (c : nat * nat * nat),
    (2 <= ny)%Z -> (3 * ny <= Rect.INT_MAX)%Z ->
    In c (Rect.node_connectivity (Rect.AtlasMeshRect ny)) ->
    Rect.equilateral_within (/ 10 ^ 12)%R (Rect.AtlasMeshRect ny)
      (360 / (sqrt 3 * IZR (ny - 1)))%R c.
Proof.
  intros ny c Hny Hmax Hc. exact (result_cell_within ny Hny Hmax c Hc).
Qed.

Lemma AtlasMeshRect_equilateral_witness :
  Rect.equilateral_within (/ 10 ^ 12)%R (Rect.AtlasMeshRect 2)
    (360 / (sqrt 3 * IZR (2 - 1)))%R (0, 3, 4)%nat.
Proof.
  apply (AtlasMeshRect_equilateral 2 (0, 3, 4)%nat).
  - lia.
  - unfold Rect.INT_MAX. lia.
  - rewrite AtlasMeshRect_2_cells. simpl. auto.
Defined.

(** C2, as stated, fails at [ny = 2]: the edges of the first triangle of
    [AtlasMeshRect 2] do not have length [180 / (2 - 1)]; they are within
    1e-12 of 207.8. *)
Lemma AtlasMeshRect_edge_not_row_height :
  ~ (forall c, In c (Rect.node_connectivity (Rect.AtlasMeshRect 2)) ->
               Rect.equilateral (Rect.AtlasMeshRect 2) (180 / IZR (2 - 1))%R c).
Proof.
  intros Hclaim.
  assert (Hc : In (0, 3, 4)%nat (Rect.node_connectivity (Rect.AtlasMeshRect 2)))
    by (rewrite AtlasMeshRect_2_cells; simpl; auto).
  specialize (Hclaim _ Hc).
  pose proof (result_cell_within 2 ltac:(lia) ltac:(unfold Rect.INT_MAX; lia) _ Hc)
    as Hcode.
  unfold Rect.equilateral, Rect.equilateral_within in *.
  destruct (Rect.vertices (Rect.AtlasMeshRect 2) (0, 3, 4)%nat) as [[p0 p1] p2].
  destruct Hclaim as [E1 _]. destruct Hcode as [E2 _].
  rewrite E1 in E2. clear E1.
  pose proof sqrt3_bounds as Hs.
  replace (IZR (2 - 1)) with 1%R in E2 by (simpl; lra).
  apply Rabs_le_inv in E2.
  assert (H12 : (/ 10 ^ 12 <= 1)%R).
  { rewrite <- Rinv_1. apply Rinv_le_contravar; [lra | ]. apply pow_R1_Rle. lra. }
  assert (HL : (360 / (sqrt 3 * 1) * sqrt 3 = 360)%R) by (field; lra).
  assert (H200 : (200 < 360 / (sqrt 3 * 1))%R) by nra.
  lra.
Qed.

(** C4, as amended.  On a mesh of doubles whose bounding box is centred at
    the origin and whose y-extent is 180, the offset that the Bounding-Box
    Normalizer subtracts is 0 and its scale factor is 1, exactly; the cells
    and the number of nodes are unchanged, and every node is where it was
    up to the rounding of the re-centring: its x moves by at most [2 * u]
    times the x-extent and its y by at most [360 * u]. *)
Theorem BoundingBoxNormalizer_idempotent :
  forall mesh : Rect.Mesh R,
    Rect.double_nodes (bpow 1000) (Rect.xy mesh) ->
    ((Rect.list_max (Rect.xs mesh) + Rect.list_min (Rect.xs mesh)) / 2 = 0)%R ->
    ((Rect.list_max (Rect.ys mesh) + Rect.list_min (Rect.ys mesh)) / 2 = 0)%R ->
    (Rect.list_max (Rect.ys mesh) - Rect.list_min (Rect.ys mesh) = 180)%R ->
    Rect.center (Rect.xy mesh) = (0%R, 0%R) /\
    Rect.scale (Rect.xy mesh) = 1%R /\
    Rect.node_connectivity (Rect.BoundingBoxNormalizer mesh) = Rect.node_connectivity mesh /\
    Rect.nodes_size (Rect.BoundingBoxNormalizer mesh) = Rect.nodes_size mesh /\
    forall n : nat,
      (n < Rect.nodes_size mesh)%nat ->
      (Rabs (fst (Rect.getXY (Rect.BoundingBoxNormalizer mesh) n) - fst (Rect.getXY mesh n))
       <= 2 * u * (Rect.list_max (Rect.xs mesh) - Rect.list_min (Rect.xs mesh)))%R /\
      (Rabs (snd (Rect.getXY (Rect.BoundingBoxNormalizer mesh) n) - snd (Rect.getXY mesh n))
       <= 360 * u)%R.
Proof.
  intros [nodes conn]. unfold Rect.xs, Rect.ys. cbn [Rect.xy].
  intros Hd Hcx Hcy Hext.
  destruct (normalized_values nodes Hd Hcx Hcy Hext) as (_ & _ & _ & _ & Es).
  destruct (normalized_xMax nodes Hd Hcx Hcy Hext) as (_ & _ & Hmin).
  split; [exact (normalized_center nodes Hd Hcx Hcy Hext) | ].
  split; [exact Es | ].
  split; [reflexivity | ].
  split.
  - unfold Rect.nodes_size, Rect.BoundingBoxNormalizer. cbn [Rect.xy].
    apply normalizer_length.
  - intros n Hn. rewrite normalizer_getXY by exact Hn.
    assert (Hin : In (Rect.getXY (Rect.mkMesh nodes conn) n) nodes)
      by (apply nth_In; exact Hn).
    destruct (normalized_point nodes Hd Hcx Hcy Hext _ Hin) as [Hx Hy].
    rewrite Hmin. split; [ | lra].
    eapply Rle_trans; [exact Hx | ]. apply Req_le. ring.
Qed.

Ltac eval_extremes :=
  unfold Rect.list_max, Rect.list_min, Rect.xs, Rect.ys; simpl;
  unfold Rmax, Rmin; repeat destruct (Rle_dec _ _); lra.

Lemma example_normalized_double :
  Rect.double_nodes (bpow 1000) (Rect.xy Rect.example_normalized).
Proof.
  assert (Hb : (90 <= bpow 1000)%R).
  { apply Rle_trans with (bpow 7); [bpow_num; lra | apply bpow_le; lia]. }
  assert (F60 : format 60) by fl_const_format.
  assert (F90 : format 90) by fl_const_format.
  assert (F0 : format 0) by fl_const_format.
  intros p Hp. simpl in Hp.
  destruct Hp as [<- | [<- | [<- | []]]]; cbn [fst snd].
  - repeat split; try (apply (format_opp _ F60)); try (apply (format_opp _ F90));
      apply Rabs_le; lra.
  - repeat split; try exact F60; try (apply (format_opp _ F90)); apply Rabs_le; lra.
  - repeat split; try exact F0; try exact F90; apply Rabs_le; lra.
Qed.

Lemma BoundingBoxNormalizer_idempotent_witness :
  Rect.scale (Rect.xy Rect.example_normalized) = 1%R.
Proof.
  apply (BoundingBoxNormalizer_idempotent Rect.example_normalized);
    [exact example_normalized_double | eval_extremes | eval_extremes | eval_extremes].
Defined.

(** C4, as stated, fails on a mesh of three nodes: its bounding box is
    centred at the origin and 180 high, and the normalizer moves the node at
    x = 2^-54 to x = 0, since 2^-54 + 1 rounds to 1. *)
Lemma BoundingBoxNormalizer_moves_a_node :
  Rect.double_nodes (bpow 1000) (Rect.xy Rect.example_absorbed) /\
  ((Rect.list_max (Rect.xs Rect.example_absorbed) +
    Rect.list_min (Rect.xs Rect.example_absorbed)) / 2 = 0)%R /\
  ((Rect.list_max (Rect.ys Rect.example_absorbed) +
    Rect.list_min (Rect.ys Rect.example_absorbed)) / 2 = 0)%R /\
  (Rect.list_max (Rect.ys Rect.example_absorbed) -
   Rect.list_min (Rect.ys Rect.example_absorbed) = 180)%R /\
  Rect.BoundingBoxNormalizer Rect.example_absorbed <> Rect.example_absorbed.
Proof.
  destruct absorbed_extremes as (E1 & E2 & E3 & E4).
  split; [exact absorbed_double | ].
  rewrite E1, E2, E3, E4.
  repeat split; try lra.
  intros E. pose proof absorbed_node as Hn. rewrite E in Hn.
  pose proof small_bounds as Hs. simpl in Hn. lra.
Qed.

(** ** The importer: tables *)

Import Netcdf.

Section Tables.
Local Open Scope nat_scope.

Lemma write_length {A : Type} (i : nat) (v : A) (a : list A) :
  List.length (write i v a) = List.length a.
Proof.
  revert i. induction a as [|x a IH]; intros [|i]; simpl; auto.
Qed.

Lemma nth_error_write_eq {A : Type} (i : nat) (v : A) (a : list A) :
  i < List.length a -> nth_error (write i v a) i = Some v.
Proof.
  revert i. induction a as [|x a IH]; intros [|i] Hi; simpl in *; try lia; auto.
  apply IH. lia.
Qed.

Lemma nth_error_write_neq {A : Type} (i j : nat) (v : A) (a : list A) :
  i <> j -> nth_error (write i v a) j = nth_error a j.
Proof.
  revert i j. induction a as [|x a IH]; intros [|i] [|j] Hij; simpl; auto; try congruence.
Qed.

Lemma set_inv (conn conn' : Connectivity) (row : nat) (values : list Z) :
  set conn row values = Ok conn' ->
  exists old, nth_error conn row = Some old /\
              conn' = write row (firstn (List.length old) values) conn.
Proof.
  unfold set. destruct (nth_error conn row) as [old|]; [ | discriminate].
  intros [= <-]. exists old. auto.
Qed.

Lemma set_ok (conn : Connectivity) (row : nat) (values : list Z) :
  row < List.length conn -> exists conn', set conn row values = Ok conn'.
Proof.
  intros Hrow. unfold set.
  destruct (nth_error conn row) as [old|] eqn:E; [eauto | ].
  apply nth_error_None in E. lia.
Qed.

(** The loop that sets rows [a, a + n) of a table sets each of them to its
    values, cut to the width of the row, and leaves the others. *)
Lemma set_loop_inv (f : nat -> list Z) (n : nat) :
  forall (a : nat) (conn conn' : Connectivity),
    for_loop (seq a n) (fun elemIdx c => set c elemIdx (f elemIdx)) conn = Ok conn' ->
    List.length conn' = List.length conn /\
    (forall e, a <= e < a + n ->
       exists old, nth_error conn e = Some old /\
                   nth_error conn' e = Some (firstn (List.length old) (f e))) /\
    (forall e, ~ a <= e < a + n -> nth_error conn' e = nth_error conn e).
Proof.
  induction n as [|n IH]; intros a conn conn' Hloop; simpl in Hloop.
  - injection Hloop as <-. split; [reflexivity | split; [intros; lia | reflexivity]].
  - destruct (set conn a (f a)) as [c1| |] eqn:Hset; simpl in Hloop; try discriminate.
    apply set_inv in Hset. destruct Hset as (old & Hold & ->).
    assert (Ha : a < List.length conn) by (apply nth_error_Some; congruence).
    destruct (IH _ _ _ Hloop) as (Hlen & Hin & Hout).
    rewrite write_length in Hlen. split; [exact Hlen | split].
    + intros e He. destruct (Nat.eq_dec e a) as [-> | Hne].
      * exists old. split; [exact Hold | ].
        rewrite Hout by lia. apply nth_error_write_eq. exact Ha.
      * destruct (Hin e ltac:(lia)) as (old' & Hold' & He').
        rewrite nth_error_write_neq in Hold' by lia. eauto.
    + intros e He. rewrite Hout by lia. apply nth_error_write_neq. lia.
Qed.

Lemma nth_of_nth_error {A : Type} (l : list A) (i : nat) (x d : A) :
  nth_error l i = Some x -> nth i l d = x.
Proof. intros H. apply nth_error_nth. exact H. Qed.

(** Rows of the width of the values are set to the values. *)
Lemma set_loop_rows (f : nat -> list Z) (n width : nat) (conn conn' : Connectivity) :
  Forall (fun row => List.length row = width) conn ->
  (forall e, List.length (f e) = width) ->
  for_loop (seq 0 n) (fun elemIdx c => set c elemIdx (f elemIdx)) conn = Ok conn' ->
  forall e, e < n -> nth e conn' [] = f e.
Proof.
  intros Hrows Hf Hloop e He.
  destruct (set_loop_inv f n 0 conn conn' Hloop) as (_ & Hin & _).
  destruct (Hin e ltac:(lia)) as (old & Hold & He').
  apply nth_of_nth_error with (d := []) in He'. rewrite He'.
  assert (Hw : List.length old = width).
  { rewrite Forall_forall in Hrows. apply Hrows. eapply nth_error_In. exact Hold. }
  rewrite Hw, <- (Hf e). apply firstn_all.
Qed.

(** The loop over rows [0, n) completes only on a table that has them. *)
Lemma set_loop_height (f : nat -> list Z) (n : nat) (conn conn' : Connectivity) :
  for_loop (seq 0 n) (fun elemIdx c => set c elemIdx (f elemIdx)) conn = Ok conn' ->
  n <= List.length conn'.
Proof.
  intros Hloop. destruct (set_loop_inv f n 0 conn conn' Hloop) as (Hlen & Hin & _).
  destruct n as [|n]; [lia | ].
  destruct (Hin n ltac:(lia)) as (old & Hold & _).
  assert (n < List.length conn) by (apply nth_error_Some; congruence). lia.
Qed.

End Tables.

(** Where [v - 1] is an [int], it is what the source computes. *)
Lemma int_sub_1 (v : Z) : (INT_MIN < v <= INT_MAX)%Z -> int_sub v 1 = (v - 1)%Z.
Proof.
  unfold INT_MIN, INT_MAX, int_sub. intros Hv. rewrite Z.mod_small by lia. lia.
Qed.

Section NeighborLists.
Local Open Scope nat_scope.

Lemma Load2DField_int_inv (dataFile : NcFile) (name : string) (xToY : list Z)
  (stride elPerStride : nat) :
  Load2DField asInt dataFile name = Ok (xToY, stride, elPerStride) ->
  (dataFile name = None /\ stride = 0 /\ elPerStride = 0) \/
  (dims_of dataFile name = [stride; elPerStride] /\
   forall k, k < stride * elPerStride ->
             raw_int dataFile name k = Some (nth k xToY 0%Z)).
Proof.
  unfold Load2DField, dims_of, raw_int.
  destruct (dataFile name) as [data|]; [ | intros [= <- <- <-]; left; auto].
  destruct (dimSizes data) as [|d0 [|d1 [|d2 ds]]]; try discriminate.
  destruct (asInt data) as [values|]; [ | discriminate].
  intros [= <- <- <-]. right. split; [reflexivity | ].
  intros k Hk. simpl. rewrite nth_map_seq by exact Hk. reflexivity.
Qed.

Lemma Load2DField_missing {loadT : Type} (get : NcVar -> option (nat -> loadT))
  (dataFile : NcFile) (name : string) :
  dataFile name = None -> Load2DField get dataFile name = Ok ([], 0, 0).
Proof. intros H. unfold Load2DField. rewrite H. reflexivity. Qed.

(** A missing variable is a table of 0 neighbors per element, which fails
    the check of [AddNeighborList]. *)
Lemma AddNeighborList_missing (dataFile : NcFile) (name : string) (yPerXExpected : nat)
  (connectivity : Connectivity) :
  dataFile name = None -> 0 < yPerXExpected ->
  AddNeighborList dataFile name yPerXExpected connectivity = Ok (false, connectivity).
Proof.
  intros Hmiss Hpos. unfold AddNeighborList. rewrite Load2DField_missing by exact Hmiss.
  simpl. destruct yPerXExpected; [lia | reflexivity].
Qed.

Lemma AddNeighborList_converted (dataFile : NcFile) (name : string) (perElem : nat)
  (conn conn' : Connectivity) :
  0 < perElem ->
  Forall (fun row => List.length row = perElem) conn ->
  AddNeighborList dataFile name perElem conn = Ok (true, conn') ->
  converted_table dataFile name perElem conn'.
Proof.
  intros Hpos Hrows. unfold AddNeighborList.
  destruct (Load2DField asInt dataFile name) as [[[xToY yPerX] numY]| |] eqn:Hload;
    simpl; try discriminate.
  destruct (Nat.eqb_spec yPerX perElem) as [-> | Hne]; simpl; [ | discriminate].
  match goal with
  | |- context [for_loop ?l ?body ?c] => destruct (for_loop l body c) as [c'| |] eqn:Hloop
  end; simpl; try discriminate.
  intros [= <-].
  apply Load2DField_int_inv in Hload. destruct Hload as [(_ & H0 & _) | [Hdims Hraw]]; [lia | ].
  exists numY. split; [exact Hdims | ].
  split; [exact (set_loop_height _ _ _ _ Hloop) | ].
  intros elem inner He Hi.
  pose proof (set_loop_rows _ numY perElem conn c' Hrows
                ltac:(intros e; rewrite length_map, length_seq; reflexivity)
                Hloop elem He) as Hrow.
  cbv beta in Hrow. rewrite Hrow.
  split; [rewrite length_map, length_seq; reflexivity | ].
  exists (nth (inner * numY + elem) xToY 0%Z).
  split; [apply Hraw; nia | ].
  intros Hv. rewrite nth_map_seq by exact Hi. apply int_sub_1. exact Hv.
Qed.

Lemma add_missing_rows (missing_value : Z) (conn : Connectivity) (rows cols : Z) :
  Forall (fun row => List.length row = Z.to_nat cols) conn ->
  Forall (fun row => List.length row = Z.to_nat cols) (add_missing missing_value conn rows cols).
Proof.
  intros H. unfold add_missing. apply Forall_app. split; [exact H | ].
  apply Forall_forall. intros row Hrow. apply repeat_spec in Hrow. subst row.
  apply repeat_length.
Qed.

Lemma AllocNbhTable_rows (missing_value : Z) (conn conn' : Connectivity)
  (numElements nbhPerElem : Z) :
  Forall (fun row => List.length row = Z.to_nat nbhPerElem) conn ->
  AllocNbhTable missing_value conn numElements nbhPerElem = Ok conn' ->
  Forall (fun row => List.length row = Z.to_nat nbhPerElem) conn'.
Proof.
  intros H. unfold AllocNbhTable.
  destruct (_ || _); [discriminate | ]. intros [= <-]. apply add_missing_rows. exact H.
Qed.

(** Every slot of a freshly allocated table holds the missing value. *)
Lemma AllocNbhTable_fresh (missing_value : Z) (conn : Connectivity)
  (numElements nbhPerElem : Z) (elem inner : nat) :
  AllocNbhTable missing_value [] numElements nbhPerElem = Ok conn ->
  elem < List.length conn -> inner < Z.to_nat nbhPerElem ->
  nth inner (nth elem conn []) 0%Z = missing_value.
Proof.
  unfold AllocNbhTable. destruct (_ || _); [discriminate | ]. intros [= <-].
  unfold add_missing. simpl. rewrite repeat_length. intros He Hi.
  rewrite nth_repeat_lt by exact He. apply nth_repeat_lt. exact Hi.
Qed.

End NeighborLists.

(** C10, as amended.  [AddNeighborList] subtracts 1 from every entry of a
    neighbor table alike, a padding sentinel or not: in a table that
    [AllocNbhTable] has allocated, a slot whose entry in the file is the
    [int] [s] (above [INT_MIN]) holds the missing value after the
    allocation and [s - 1] after [AddNeighborList], whatever the missing
    value of the table is; so the slot holds the missing value again exactly
    when [s] is the missing value plus 1. *)
Theorem AddNeighborList_uniform :
  forall (missing_value : Z) (dataFile : NcFile) (nbhListName : string)
         (numElements nbhPerElem : Z) (table table' : Connectivity),
    (0 < nbhPerElem)%Z ->
    AllocNbhTable missing_value [] numElements nbhPerElem = Ok table ->
    AddNeighborList dataFile nbhListName (Z.to_nat nbhPerElem) table = Ok (true, table') ->
    exists numY,
      dims_of dataFile nbhListName = [Z.to_nat nbhPerElem; numY] /\
      (numY <= List.length table')%nat /\
      forall (elem inner : nat) (s : Z),
        (elem < numY)%nat -> (inner < Z.to_nat nbhPerElem)%nat ->
        raw_int dataFile nbhListName (inner * numY + elem) = Some s ->
        (INT_MIN < s <= INT_MAX)%Z ->
        nth inner (nth elem table []) 0%Z = missing_value /\
        nth inner (nth elem table' []) 0%Z = (s - 1)%Z /\
        (nth inner (nth elem table' []) 0%Z = missing_value <-> s = (missing_value + 1)%Z).
Proof.
  intros mv dataFile name numElements perElem table table' Hpos Halloc Hadd.
  assert (Hrows : Forall (fun row => List.length row = Z.to_nat perElem) table).
  { apply (AllocNbhTable_rows mv [] table numElements perElem); [constructor | exact Halloc]. }
  destruct (AddNeighborList_converted dataFile name (Z.to_nat perElem) table table'
              ltac:(lia) Hrows Hadd) as (numY & Hdims & Hheight & Hconv).
  exists numY. split; [exact Hdims | ]. split; [exact Hheight | ].
  intros elem inner s He Hi Hs Hint.
  destruct (Hconv elem inner He Hi) as (_ & v & Hv & Hentry).
  rewrite Hs in Hv. injection Hv as <-. specialize (Hentry Hint).
  split; [ | split; [exact Hentry | rewrite Hentry; lia]].
  apply (AllocNbhTable_fresh mv table numElements perElem); try assumption.
  (* the row exists: the loop has set it *)
  unfold AddNeighborList in Hadd.
  destruct (Load2DField asInt dataFile name) as [[[xToY yPerX] numY']| |] eqn:Hload;
    simpl in Hadd; try discriminate.
  destruct (Nat.eqb_spec yPerX (Z.to_nat perElem)) as [-> | Hne]; simpl in Hadd;
    [ | discriminate].
  apply Load2DField_int_inv in Hload.
  destruct Hload as [(_ & H0 & _) | [Hdims' _]]; [lia | ].
  rewrite Hdims in Hdims'. injection Hdims' as <-.
  match type of Hadd with
  | context [for_loop ?l ?body ?c] => destruct (for_loop l body c) as [c'| |] eqn:Hloop
  end; simpl in Hadd; try discriminate.
  destruct (set_loop_inv _ _ _ _ _ Hloop) as (_ & Hin & _).
  destruct (Hin elem ltac:(lia)) as (old & Hold & _).
  apply nth_error_Some. congruence.
Qed.

Lemma AddNeighborList_uniform_witness :
  let table := repeat (repeat (-1)%Z 6) 3 in
  let table' :=
    [[0; -2; -2; -2; -2; -2]; [0; -2; -2; -2; -2; -2]; [0; -2; -2; -2; -2; -2]]%Z in
  nth 1 (nth 0 table []) 0%Z = (-1)%Z /\ nth 1 (nth 0 table' []) 0%Z = (-1 - 1)%Z.
Proof.
  intros table table'.
  destruct (AddNeighborList_uniform (-1) complete_file "cells_of_vertex" 3 6 table table')
    as (numY & Hdims & _ & Hslots); [lia | reflexivity | reflexivity | ].
  injection Hdims as <-.
  destruct (Hslots 0%nat 1%nat (-1)%Z) as (H1 & H2 & _);
    [lia | simpl; lia | reflexivity | unfold INT_MIN, INT_MAX; lia | ].
  split; [exact H1 | exact H2].
Defined.

(** C10, as stated, fails on the example file with its absent neighbors
    padded with 0, for a table whose missing value is -1: the sentinel 0 is
    stored as -1, which is the missing value of the table. *)
Lemma AddNeighborList_sentinel_becomes_marker :
  exists table table' : Connectivity,
    AllocNbhTable (-1) [] 3 6 = Ok table /\
    AddNeighborList zero_padded_file "cells_of_vertex" 6 table = Ok (true, table') /\
    raw_int zero_padded_file "cells_of_vertex" (1 * 3 + 0) = Some 0%Z /\
    nth 1 (nth 0 table' []) 0%Z = (-1)%Z.
Proof.
  exists (repeat (repeat (-1)%Z 6) 3),
    [[0; -1; -1; -1; -1; -1]; [0; -1; -1; -1; -1; -1]; [0; -1; -1; -1; -1; -1]]%Z.
  repeat split; reflexivity.
Qed.

(** ** The importer: the two entry points *)

Lemma try_catch_some {A : Type} (r : result (option A)) (a : A) :
  try_catch r = Ok (Some a) -> r = Ok (Some a).
Proof. destruct r as [[x|]| |]; simpl; congruence. Qed.

(** One step backwards through a computation that has returned. *)
Ltac inv_step H :=
  cbv zeta in H; cbn [bind negb] in H;
  match type of H with
  | bind ?r _ = _ =>
    let E := fresh "E" in destruct r as [?| |] eqn:E; try discriminate H
  | (let '(_, _) := ?p in _) = _ => destruct p
  | (if ?b then _ else _) = _ =>
    let E := fresh "E" in destruct b eqn:E; try discriminate H
  | try_catch _ = Ok (Some _) => apply try_catch_some in H
  | match ?o with Some _ => _ | None => _ end = _ => destruct o; try discriminate H
  end.

Lemma open_inv (disk : Disk) (filename : string) (dataFile : NcFile) :
  open disk filename = Ok dataFile -> disk filename = Some dataFile.
Proof. unfold open. destruct (disk filename); congruence. Qed.

Lemma to_int_le (n : nat) : (to_int n <= Z.of_nat n)%Z.
Proof.
  unfold to_int.
  pose proof (Z.mod_le (Z.of_nat n + 2 ^ 31) (2 ^ 32) ltac:(lia) ltac:(lia)). lia.
Qed.

Lemma to_int_small (n : nat) : (Z.of_nat n < 2 ^ 31)%Z -> to_int n = Z.of_nat n.
Proof. intros H. unfold to_int. rewrite Z.mod_small by lia. lia. Qed.

Lemma LoadField_double_inv (dataFile : NcFile) (name : string) (l : list binary64) :
  LoadField asDouble dataFile name = Ok l ->
  l = [] \/
  (dims_of dataFile name = [List.length l] /\
   forall k, (k < List.length l)%nat ->
             raw_double dataFile name k = Some (nth k l (b64 0 0))).
Proof.
  unfold LoadField, raw_double, dims_of.
  destruct (dataFile name) as [data|]; [ | intros [= <-]; left; reflexivity].
  destruct (dimSizes data) as [|size [|d1 ds]]; try discriminate.
  destruct (asDouble data) as [values|]; [ | discriminate].
  intros [= <-]. right. rewrite length_map, length_seq. split; [reflexivity | ].
  intros k Hk. simpl. rewrite nth_map_seq by exact Hk. reflexivity.
Qed.

(** [0.5 * M_PI] is half of [M_PI], exactly. *)
Lemma half_pi_exact : mul (b64 1 (-1)) M_PI = half_pi.
Proof. vm_compute. reflexivity. Qed.

(** *** [NodesFromNetCDF] *)

Lemma NodesFromNetCDF_inv (dataFile : NcFile) (mesh mesh' : Mesh) :
  NodesFromNetCDF dataFile mesh = Ok (true, mesh') ->
  converted_nodes dataFile (nodes mesh') /\
  n_cell_connectivity (nodes mesh') = n_cell_connectivity (nodes mesh) /\
  n_edge_connectivity (nodes mesh') = n_edge_connectivity (nodes mesh) /\
  cells mesh' = cells mesh /\ edges mesh' = edges mesh.
Proof.
  unfold NodesFromNetCDF. intros H. repeat inv_step H.
  injection H as <-. cbn [nodes cells edges n_cell_connectivity n_edge_connectivity].
  split; [ | auto].
  rename a into vlon, a0 into vlat, E into Hlon, E0 into Hlat, E1 into Hnonempty,
    E2 into Hsize, E3 into Hpos.
  apply LoadField_double_inv in Hlon, Hlat.
  destruct Hlon as [-> | [Dlon Hlon]]; [discriminate | ].
  destruct Hlat as [-> | [Dlat Hlat]]; [rewrite orb_true_r in Hnonempty; discriminate | ].
  apply negb_false_iff, Nat.eqb_eq in Hsize. apply Z.ltb_ge in Hpos.
  apply orb_false_iff in Hnonempty. destruct Hnonempty as [_ Hnonempty].
  apply Nat.eqb_neq in Hnonempty.
  pose proof (to_int_le (List.length vlat)) as Hle.
  exists (List.length vlat). rewrite Hsize in Dlon. cbn [n_size lonlat].
  rewrite length_map, length_seq.
  split; [exact Dlon | split; [exact Dlat | split; [lia | split; [reflexivity | ]]]].
  split; [reflexivity | split; [intros Hsmall; rewrite to_int_small by exact Hsmall; lia | ]].
  intros nodeIdx Hidx.
  exists (nth nodeIdx vlon (b64 0 0)), (nth nodeIdx vlat (b64 0 0)).
  split; [apply Hlon; lia | split; [apply Hlat; lia | ]].
  rewrite nth_map_seq by exact Hidx. unfold radToLon, radToLat.
  rewrite half_pi_exact. reflexivity.
Qed.

(** *** [CellsFromNetCDF] *)

Lemma cell_loop_inv (cellToVertex : list Z) (ncells n : nat) :
  forall (a : nat) (c c' : Cells),
    for_loop (seq a n) (cell_body cellToVertex ncells) c = Ok c' ->
    for_loop (seq a n)
      (fun cellIdx t =>
         set t cellIdx
           (map (fun k => int_sub (nth (k * ncells + cellIdx) cellToVertex 0%Z) 1) (seq 0 3)))
      (c_node_connectivity c) = Ok (c_node_connectivity c') /\
    c_edge_connectivity c' = c_edge_connectivity c.
Proof.
  induction n as [|n IH]; intros a c c' H; simpl in H.
  - injection H as <-. split; reflexivity.
  - destruct (cell_body cellToVertex ncells a c) as [c1| |] eqn:Hbody;
      cbn [bind] in H; try discriminate.
    apply IH in H. destruct H as [Hloop Hedge].
    unfold cell_body in Hbody. inv_step Hbody. injection Hbody as <-.
    cbn [c_node_connectivity c_edge_connectivity] in Hloop, Hedge.
    split; [ | exact Hedge].
    simpl. simpl in E. rewrite E. simpl. exact Hloop.
Qed.

Lemma cell_loop_ok (cellToVertex : list Z) (ncells n : nat) :
  forall (a : nat) (c : Cells),
    (a + n <= List.length (c_node_connectivity c))%nat ->
    exists c', for_loop (seq a n) (cell_body cellToVertex ncells) c = Ok c'.
Proof.
  induction n as [|n IH]; intros a c Hlen; simpl; [eauto | ].
  unfold cell_body at 1.
  match goal with
  | |- context [set ?t ?r ?v] =>
    destruct (set_ok t r v ltac:(lia)) as [t' Hset]; rewrite Hset;
    apply set_inv in Hset; destruct Hset as (old & _ & ->)
  end.
  cbn [bind]. apply IH. cbn [c_node_connectivity]. rewrite write_length. lia.
Qed.

Lemma CellsFromNetCDF_inv (missing_value : Z) (dataFile : NcFile) (mesh mesh' : Mesh) :
  CellsFromNetCDF missing_value dataFile mesh = Ok (true, mesh') ->
  nodes mesh' = nodes mesh /\ edges mesh' = edges mesh /\
  c_edge_connectivity (cells mesh') = c_edge_connectivity (cells mesh) /\
  (c_node_connectivity (cells mesh) = [] ->
   converted_table dataFile "vertex_of_cell" 3 (c_node_connectivity (cells mesh'))).
Proof.
  unfold CellsFromNetCDF. intros H. repeat inv_step H.
  injection H as <-. cbn [nodes cells edges].
  rename l into cellToVertex, n into ncells, E into Hload, E0 into Hthree, E1 into Hadd,
    E2 into Hloop.
  apply cell_loop_inv in Hloop. destruct Hloop as [Hloop Hedge].
  unfold cells_add in Hadd. inv_step Hadd. injection Hadd as <-.
  cbn [c_node_connectivity c_edge_connectivity] in *.
  split; [reflexivity | split; [reflexivity | split; [exact Hedge | ]]].
  intros Hempty. rewrite Hempty in Hloop.
  apply negb_false_iff, Nat.eqb_eq in Hthree. subst n0.
  apply Load2DField_int_inv in Hload.
  destruct Hload as [(_ & H0 & _) | [Hdims Hraw]]; [discriminate | ].
  exists ncells. split; [exact Hdims | ].
  split; [exact (set_loop_height _ _ _ _ Hloop) | ].
  intros elem inner He Hi.
  pose proof (set_loop_rows
                (fun cellIdx =>
                   map (fun k => int_sub (nth (k * ncells + cellIdx) cellToVertex 0%Z) 1)
                       (seq 0 3))
                _ 3%nat _ _
                ltac:(apply (add_missing_rows missing_value [] (to_int ncells) 3); constructor)
                ltac:(intros e; reflexivity) Hloop elem He) as Hrow.
  cbv beta in Hrow. rewrite Hrow. split; [reflexivity | ].
  eexists. split; [apply Hraw; nia | ].
  intros Hv. rewrite nth_map_seq by exact Hi. apply int_sub_1. exact Hv.
Qed.


Lemma Minimal_inv (missing_value : Z) (disk : Disk) (filename : string) (mesh : Mesh) :
  AtlasMeshFromNetCDFMinimal missing_value disk filename = Ok (Some mesh) ->
  exists dataFile,
    disk filename = Some dataFile /\
    converted_nodes dataFile (nodes mesh) /\
    converted_table dataFile "vertex_of_cell" 3 (c_node_connectivity (cells mesh)) /\
    n_cell_connectivity (nodes mesh) = [] /\ n_edge_connectivity (nodes mesh) = [] /\
    c_edge_connectivity (cells mesh) = [] /\ edges mesh = mkEdges 0 [] [].
Proof.
  unfold AtlasMeshFromNetCDFMinimal. intros H. repeat inv_step H.
  injection H as <-.
  rename a into dataFile, E into Hopen, E0 into Hnodes, E2 into Hcells.
  destruct b; [ | discriminate]. destruct b0; [ | discriminate].
  apply open_inv in Hopen.
  apply NodesFromNetCDF_inv in Hnodes. destruct Hnodes as (Hn & Hnc & Hne & Hc & He).
  apply CellsFromNetCDF_inv in Hcells. destruct Hcells as (Hn' & He' & Hce & Hconv).
  exists dataFile. rewrite Hn', He', Hce, Hnc, Hne, Hc, He.
  repeat split; try assumption; try reflexivity.
  apply Hconv. rewrite Hc. reflexivity.
Qed.

(** The steps of [AtlasMeshFromNetCDFComplete] when it returns a mesh. *)
Lemma Complete_inv (missing_value : Z) (disk : Disk) (filename : string) (mesh : Mesh) :
  AtlasMeshFromNetCDFComplete missing_value disk filename = Ok (Some mesh) ->
  exists (mesh0 : Mesh) (dataFile : NcFile) (e : Edges) (numEdges : Z)
         (t1 t2 t3 t4 t5 edge_cell edge_node node_cell node_edge cell_edge : Connectivity),
    AtlasMeshFromNetCDFMinimal missing_value disk filename = Ok (Some mesh0) /\
    disk filename = Some dataFile /\
    edges_add missing_value (edges mesh0) 2 numEdges = Ok e /\
    AllocNbhTable missing_value (e_cell_connectivity e) (e_size e) 2 = Ok t1 /\
    AddNeighborList dataFile "adjacent_cell_of_edge" 2 t1 = Ok (true, edge_cell) /\
    AllocNbhTable missing_value (e_node_connectivity e) (e_size e) 2 = Ok t2 /\
    AddNeighborList dataFile "edge_vertices" 2 t2 = Ok (true, edge_node) /\
    AllocNbhTable missing_value (n_cell_connectivity (nodes mesh0)) (n_size (nodes mesh0)) 6
      = Ok t3 /\
    AddNeighborList dataFile "cells_of_vertex" 6 t3 = Ok (true, node_cell) /\
    AllocNbhTable missing_value (n_edge_connectivity (nodes mesh0)) (n_size (nodes mesh0)) 6
      = Ok t4 /\
    AddNeighborList dataFile "edges_of_vertex" 6 t4 = Ok (true, node_edge) /\
    AllocNbhTable missing_value (c_edge_connectivity (cells mesh0)) (c_size (cells mesh0)) 3
      = Ok t5 /\
    AddNeighborList dataFile "edge_of_cell" 3 t5 = Ok (true, cell_edge) /\
    mesh =
    mkMesh
      (mkNodes (n_size (nodes mesh0)) (lonlat (nodes mesh0)) (n_global_index (nodes mesh0))
               (remote_index (nodes mesh0)) (n_partition (nodes mesh0)) (ghost (nodes mesh0))
               (flags (nodes mesh0)) node_cell node_edge)
      (mkCells (c_size (cells mesh0)) (c_partition (cells mesh0))
               (c_global_index (cells mesh0)) (c_node_connectivity (cells mesh0)) cell_edge)
      (mkEdges (e_size e) edge_cell edge_node).
Proof.
  unfold AtlasMeshFromNetCDFComplete. intros H. repeat inv_step H.
  injection H as <-.
  destruct b; [ | discriminate]. destruct b0; [ | discriminate].
  destruct b1; [ | discriminate]. destruct b2; [ | discriminate].
  destruct b3; [ | discriminate].
  apply open_inv in E0.
  do 14 eexists. repeat (split; [eassumption || reflexivity | ]). reflexivity.
Qed.

(** C9. When [AtlasMeshFromNetCDFComplete] returns a mesh,
    [AtlasMeshFromNetCDFMinimal] returns one on the same file, and the two
    have the same node coordinates, node global and remote indices,
    partitions, ghost flags and cell-to-node connectivity (and node flags,
    sizes, cell partitions and cell global indices): Complete only adds the
    edges and the neighbor tables. *)
Theorem Complete_extends_Minimal :
  forall (missing_value : Z) (disk : Disk) (filename : string) (mesh : Mesh),
    AtlasMeshFromNetCDFComplete missing_value disk filename = Ok (Some mesh) ->
    exists mesh0,
      AtlasMeshFromNetCDFMinimal missing_value disk filename = Ok (Some mesh0) /\
      lonlat (nodes mesh) = lonlat (nodes mesh0) /\
      n_global_index (nodes mesh) = n_global_index (nodes mesh0) /\
      remote_index (nodes mesh) = remote_index (nodes mesh0) /\
      n_partition (nodes mesh) = n_partition (nodes mesh0) /\
      ghost (nodes mesh) = ghost (nodes mesh0) /\
      c_node_connectivity (cells mesh) = c_node_connectivity (cells mesh0) /\
      n_size (nodes mesh) = n_size (nodes mesh0) /\
      flags (nodes mesh) = flags (nodes mesh0) /\
      c_size (cells mesh) = c_size (cells mesh0) /\
      c_partition (cells mesh) = c_partition (cells mesh0) /\
      c_global_index (cells mesh) = c_global_index (cells mesh0).
Proof.
  intros mv disk filename mesh H.
  apply Complete_inv in H.
  destruct H as (mesh0 & dataFile & e & numEdges & t1 & t2 & t3 & t4 & t5 &
                 edge_cell & edge_node & node_cell & node_edge & cell_edge & H).
  decompose [and] H. subst mesh. exists mesh0. repeat split; try assumption.
Qed.

Lemma example_mesh_returned :
  AtlasMeshFromNetCDFComplete (-1) example_disk "grid.nc" = Ok (Some example_mesh).
Proof. reflexivity. Qed.

Lemma Complete_extends_Minimal_witness :
  exists mesh0,
    AtlasMeshFromNetCDFMinimal (-1) example_disk "grid.nc" = Ok (Some mesh0) /\
    lonlat (nodes example_mesh) = lonlat (nodes mesh0) /\
    n_global_index (nodes example_mesh) = n_global_index (nodes mesh0) /\
    remote_index (nodes example_mesh) = remote_index (nodes mesh0) /\
    n_partition (nodes example_mesh) = n_partition (nodes mesh0) /\
    ghost (nodes example_mesh) = ghost (nodes mesh0) /\
    c_node_connectivity (cells example_mesh) = c_node_connectivity (cells mesh0) /\
    n_size (nodes example_mesh) = n_size (nodes mesh0) /\
    flags (nodes example_mesh) = flags (nodes mesh0) /\
    c_size (cells example_mesh) = c_size (cells mesh0) /\
    c_partition (cells example_mesh) = c_partition (cells mesh0) /\
    c_global_index (cells example_mesh) = c_global_index (cells mesh0).
Proof.
  apply (Complete_extends_Minimal (-1) example_disk "grid.nc" example_mesh).
  reflexivity.
Defined.

(** ** The importer: files without edge data or without a neighbor table *)

Lemma try_catch_not_throw {A : Type} (r : result (option A)) : try_catch r <> Throw.
Proof. destruct r; simpl; discriminate. Qed.

(** One step forwards through [AtlasMeshFromNetCDFComplete], towards an
    absent result. *)
Ltac absent_step :=
  cbv zeta; cbn [bind negb];
  match goal with
  | |- try_catch (bind (AddNeighborList ?f ?name ?n ?t) _) = _ \/ _ =>
    first [ rewrite (AddNeighborList_missing f name n t) by (assumption || (simpl; lia))
          | destruct (AddNeighborList f name n t) as [[[|] ?]| |] ]
  | |- try_catch (bind ?r _) = _ \/ _ => destruct r as [?| |]
  | |- try_catch (if ?b then _ else _) = _ \/ _ => destruct b
  | |- try_catch _ = _ \/ _ => simpl; auto
  end.

(** C7, as amended.  When one of the five neighbor-table variables is
    missing from the file, [AtlasMeshFromNetCDFComplete] does not return a
    mesh: the missing variable loads as a table of 0 neighbors per element,
    [AddNeighborList] reports that the number is not as expected, and the
    result is absent (unless the import has stopped on a failed assertion
    before). *)
Theorem Complete_missing_table_absent :
  forall (missing_value : Z) (disk : Disk) (filename : string) (dataFile : NcFile)
         (name : string),
    disk filename = Some dataFile ->
    In name neighbor_tables ->
    dataFile name = None ->
    AtlasMeshFromNetCDFComplete missing_value disk filename = Ok None \/
    AtlasMeshFromNetCDFComplete missing_value disk filename = Aborted.
Proof.
  intros mv disk filename dataFile name Hdisk Hin Hmiss.
  unfold AtlasMeshFromNetCDFComplete.
  destruct (AtlasMeshFromNetCDFMinimal mv disk filename) as [[mesh|]| |] eqn:Hmin;
    cbn [bind]; auto.
  2: { exfalso. exact (try_catch_not_throw _ Hmin). }
  unfold open. rewrite Hdisk.
  unfold neighbor_tables in Hin. simpl in Hin.
  destruct Hin as [<- | [<- | [<- | [<- | [<- | []]]]]]; repeat absent_step.
Qed.

Lemma Complete_missing_table_absent_witness :
  AtlasMeshFromNetCDFComplete (-1) example_disk_no_edge_of_cell "grid.nc" = Ok None \/
  AtlasMeshFromNetCDFComplete (-1) example_disk_no_edge_of_cell "grid.nc" = Aborted.
Proof.
  apply (Complete_missing_table_absent (-1) example_disk_no_edge_of_cell "grid.nc"
           (without "edge_of_cell" complete_file) "edge_of_cell").
  - reflexivity.
  - unfold neighbor_tables. simpl. tauto.
  - reflexivity.
Defined.

(** C7, as stated, fails: the example file has edge data and is imported,
    and without its [edge_of_cell] variable the result is absent. *)
Lemma Complete_rejects_missing_edge_of_cell :
  AtlasMeshFromNetCDFComplete (-1) example_disk "grid.nc" = Ok (Some example_mesh) /\
  readable_int (without "edge_of_cell" complete_file) "edge_index" [3%nat] /\
  without "edge_of_cell" complete_file "edge_of_cell"%string = None /\
  ~ (exists mesh,
        AtlasMeshFromNetCDFComplete (-1) example_disk_no_edge_of_cell "grid.nc"
        = Ok (Some mesh)).
Proof.
  split; [reflexivity | split; [ | split; [reflexivity | ]]].
  - do 2 eexists. repeat split; reflexivity.
  - intros [mesh H].
    assert (E : AtlasMeshFromNetCDFComplete (-1) example_disk_no_edge_of_cell "grid.nc"
                = Ok None) by reflexivity.
    rewrite E in H. discriminate.
Qed.

Section MinimalOnly.
Variables (missing_value : Z) (dataFile : NcFile).

Lemma LoadField_readable (name : string) (size : nat) :
  readable_double dataFile name [size] ->
  exists l, LoadField asDouble dataFile name = Ok l /\ List.length l = size.
Proof.
  intros (data & values & Hvar & Hdims & Hget). unfold LoadField.
  rewrite Hvar, Hdims, Hget. eexists. split; [reflexivity | ].
  rewrite length_map, length_seq. reflexivity.
Qed.

Lemma NodesFromNetCDF_ok (mesh : Mesh) (numNodes : nat) :
  readable_double dataFile "vlon" [numNodes] ->
  readable_double dataFile "vlat" [numNodes] ->
  (0 < Z.of_nat numNodes < 2 ^ 31)%Z ->
  exists mesh', NodesFromNetCDF dataFile mesh = Ok (true, mesh').
Proof.
  intros Hlon Hlat Hsize. unfold NodesFromNetCDF.
  destruct (LoadField_readable _ _ Hlon) as (lon & -> & Llon).
  destruct (LoadField_readable _ _ Hlat) as (lat & -> & Llat).
  cbn [bind]. rewrite Llon, Llat, Nat.eqb_refl.
  destruct (Nat.eqb_spec numNodes 0) as [-> | _]; [lia | ].
  cbn [orb negb]. rewrite to_int_small by lia.
  destruct (Z.ltb_spec (Z.of_nat numNodes) 0); [lia | ]. eauto.
Qed.

Lemma CellsFromNetCDF_ok (mesh : Mesh) (numCells : nat) :
  readable_int dataFile "vertex_of_cell" [3; numCells]%nat ->
  (Z.of_nat numCells < 2 ^ 31)%Z ->
  exists mesh', CellsFromNetCDF missing_value dataFile mesh = Ok (true, mesh').
Proof.
  intros (data & values & Hvar & Hdims & Hget) Hsize.
  unfold CellsFromNetCDF, Load2DField. rewrite Hvar, Hdims, Hget.
  cbn [bind negb Nat.eqb]. unfold cells_add. rewrite to_int_small by exact Hsize.
  destruct (Z.ltb_spec (Z.of_nat numCells) 0); [lia | ]. cbn [bind].
  match goal with
  | |- context [for_loop ?l (cell_body ?v ?n) ?c] =>
    destruct (cell_loop_ok v n numCells 0 c) as [c' Hloop]
  end.
  - cbn [c_node_connectivity]. unfold add_missing.
    rewrite length_app, repeat_length, Nat2Z.id. lia.
  - rewrite Hloop. cbn [bind]. eauto.
Qed.

End MinimalOnly.

(** C8. On a file with readable [vlon] and [vlat] of one, non-zero, size and
    a readable [vertex_of_cell] of 3 rows, but with neither [edge_index] nor
    [elat], [AtlasMeshFromNetCDFMinimal] returns a mesh and
    [AtlasMeshFromNetCDFComplete] returns an absent result.  (The sizes fit
    an [int].) *)
Theorem Complete_absent_without_edges :
  forall (missing_value : Z) (disk : Disk) (filename : string) (dataFile : NcFile)
         (numNodes numCells : nat),
    disk filename = Some dataFile ->
    readable_double dataFile "vlon" [numNodes] ->
    readable_double dataFile "vlat" [numNodes] ->
    (0 < Z.of_nat numNodes < 2 ^ 31)%Z ->
    readable_int dataFile "vertex_of_cell" [3; numCells]%nat ->
    (Z.of_nat numCells < 2 ^ 31)%Z ->
    dataFile "edge_index"%string = None ->
    dataFile "elat"%string = None ->
    (exists mesh, AtlasMeshFromNetCDFMinimal missing_value disk filename = Ok (Some mesh)) /\
    AtlasMeshFromNetCDFComplete missing_value disk filename = Ok None.
Proof.
  intros mv disk filename dataFile numNodes numCells Hdisk Hlon Hlat Hn Hcells Hc Hei Hel.
  assert (Hmin : exists mesh, AtlasMeshFromNetCDFMinimal mv disk filename = Ok (Some mesh)).
  { unfold AtlasMeshFromNetCDFMinimal, open. rewrite Hdisk. cbn [bind].
    destruct (NodesFromNetCDF_ok dataFile empty_mesh numNodes Hlon Hlat Hn) as [m1 ->].
    cbn [bind negb].
    destruct (CellsFromNetCDF_ok mv dataFile m1 numCells Hcells Hc) as [m2 ->].
    cbn [bind negb try_catch]. eauto. }
  split; [exact Hmin | ].
  destruct Hmin as [mesh Hmin]. unfold AtlasMeshFromNetCDFComplete.
  rewrite Hmin. cbn [bind]. unfold open. rewrite Hdisk. cbn [bind].
  unfold LoadField. rewrite Hei. cbn [bind]. rewrite Hel. reflexivity.
Qed.

Lemma Complete_absent_without_edges_witness :
  (exists mesh,
      AtlasMeshFromNetCDFMinimal (-1) example_disk_minimal "grid.nc" = Ok (Some mesh)) /\
  AtlasMeshFromNetCDFComplete (-1) example_disk_minimal "grid.nc" = Ok None.
Proof.
  apply (Complete_absent_without_edges (-1) example_disk_minimal "grid.nc" minimal_file
           3 1).
  - reflexivity.
  - do 2 eexists. repeat split; reflexivity.
  - do 2 eexists. repeat split; reflexivity.
  - lia.
  - do 2 eexists. repeat split; reflexivity.
  - lia.
  - reflexivity.
  - reflexivity.
Defined.

(** ** The importer: unit and index conversion *)

Lemma Complete_tables (missing_value : Z) (disk : Disk) (filename : string) (mesh : Mesh) :
  AtlasMeshFromNetCDFComplete missing_value disk filename = Ok (Some mesh) ->
  exists dataFile,
    disk filename = Some dataFile /\
    converted_nodes dataFile (nodes mesh) /\
    converted_table dataFile "vertex_of_cell" 3 (c_node_connectivity (cells mesh)) /\
    converted_table dataFile "adjacent_cell_of_edge" 2 (e_cell_connectivity (edges mesh)) /\
    converted_table dataFile "edge_vertices" 2 (e_node_connectivity (edges mesh)) /\
    converted_table dataFile "cells_of_vertex" 6 (n_cell_connectivity (nodes mesh)) /\
    converted_table dataFile "edges_of_vertex" 6 (n_edge_connectivity (nodes mesh)) /\
    converted_table dataFile "edge_of_cell" 3 (c_edge_connectivity (cells mesh)).
Proof.
  intros H. apply Complete_inv in H.
  destruct H as (mesh0 & dataFile & e & numEdges & t1 & t2 & t3 & t4 & t5 &
                 edge_cell & edge_node & node_cell & node_edge & cell_edge &
                 Hmin & Hdisk & Hedges & A1 & L1 & A2 & L2 & A3 & L3 & A4 & L4 & A5 & L5 & ->).
  apply Minimal_inv in Hmin.
  destruct Hmin as (dataFile' & Hdisk' & Hnodes & Hcells & Enc & Ene & Ece & Ee).
  rewrite Hdisk in Hdisk'. injection Hdisk' as <-.
  rewrite Enc in A3. rewrite Ene in A4. rewrite Ece in A5.
  unfold edges_add in Hedges. rewrite Ee in Hedges. inv_step Hedges.
  injection Hedges as <-. cbn [e_cell_connectivity e_node_connectivity e_size] in A1, A2.
  exists dataFile. cbn [nodes cells edges n_cell_connectivity n_edge_connectivity
                         c_node_connectivity c_edge_connectivity e_cell_connectivity
                         e_node_connectivity].
  split; [exact Hdisk | split; [exact Hnodes | split; [exact Hcells | ]]].
  repeat split.
  - apply (AddNeighborList_converted dataFile _ 2%nat t1 edge_cell); [lia | | exact L1].
    apply (AllocNbhTable_rows missing_value [] t1 numEdges 2); [constructor | exact A1].
  - apply (AddNeighborList_converted dataFile _ 2%nat t2 edge_node); [lia | | exact L2].
    apply (AllocNbhTable_rows missing_value (add_missing missing_value [] numEdges 2) t2
             numEdges 2); [ | exact A2].
    apply (add_missing_rows missing_value [] numEdges 2). constructor.
  - apply (AddNeighborList_converted dataFile _ 6%nat t3 node_cell); [lia | | exact L3].
    apply (AllocNbhTable_rows missing_value [] t3 (n_size (nodes mesh0)) 6);
      [constructor | exact A3].
  - apply (AddNeighborList_converted dataFile _ 6%nat t4 node_edge); [lia | | exact L4].
    apply (AllocNbhTable_rows missing_value [] t4 (n_size (nodes mesh0)) 6);
      [constructor | exact A4].
  - apply (AddNeighborList_converted dataFile _ 3%nat t5 cell_edge); [lia | | exact L5].
    apply (AllocNbhTable_rows missing_value [] t5 (c_size (cells mesh0)) 3);
      [constructor | exact A5].
Qed.

(** C6. In a mesh that the importer returns, the nodes are those of the
    file: [vlon] and [vlat] have one non-zero number of values, the mesh has
    as many nodes (the number as an [int]), and every node has the file's
    [vlon] and [vlat] converted from radians to degrees by
    [lon = rad / pi * 180] and [lat = rad / (pi / 2) * 90], in double
    arithmetic with [M_PI] for pi.  The cell-to-node connectivity has a row
    of 3 for every cell of the file, and every entry of it is the file's
    [vertex_of_cell] entry, read column-major, less 1 (for every entry but
    [INT_MIN], whose predecessor is no [int]); in a mesh that
    [AtlasMeshFromNetCDFComplete] returns the same holds of the five
    neighbor tables. *)
Theorem import_converts_units_and_indices :
  forall (missing_value : Z) (disk : Disk) (filename : string) (mesh : Mesh),
    AtlasMeshFromNetCDFMinimal missing_value disk filename = Ok (Some mesh) \/
    AtlasMeshFromNetCDFComplete missing_value disk filename = Ok (Some mesh) ->
    exists dataFile,
      disk filename = Some dataFile /\
      converted_nodes dataFile (nodes mesh) /\
      converted_table dataFile "vertex_of_cell" 3 (c_node_connectivity (cells mesh)) /\
      (AtlasMeshFromNetCDFComplete missing_value disk filename = Ok (Some mesh) ->
       converted_table dataFile "adjacent_cell_of_edge" 2 (e_cell_connectivity (edges mesh)) /\
       converted_table dataFile "edge_vertices" 2 (e_node_connectivity (edges mesh)) /\
       converted_table dataFile "cells_of_vertex" 6 (n_cell_connectivity (nodes mesh)) /\
       converted_table dataFile "edges_of_vertex" 6 (n_edge_connectivity (nodes mesh)) /\
       converted_table dataFile "edge_of_cell" 3 (c_edge_connectivity (cells mesh))).
Proof.
  intros mv disk filename mesh [Hmin | Hcomplete].
  - destruct (Minimal_inv _ _ _ _ Hmin) as (dataFile & Hdisk & Hnodes & Hcells & Hrest).
    exists dataFile. split; [exact Hdisk | split; [exact Hnodes | split; [exact Hcells | ]]].
    intros Hcomplete.
    destruct (Complete_tables _ _ _ _ Hcomplete) as (dataFile' & Hdisk' & _ & _ & Htables).
    rewrite Hdisk in Hdisk'. injection Hdisk' as <-. exact Htables.
  - destruct (Complete_tables _ _ _ _ Hcomplete)
      as (dataFile & Hdisk & Hnodes & Hcells & Htables).
    exists dataFile. split; [exact Hdisk | split; [exact Hnodes | split; [exact Hcells | ]]].
    intros _. exact Htables.
Qed.

Lemma import_converts_units_and_indices_witness :
  exists dataFile,
    example_disk "grid.nc"%string = Some dataFile /\
    converted_nodes dataFile (nodes example_mesh) /\
    converted_table dataFile "vertex_of_cell" 3 (c_node_connectivity (cells example_mesh)) /\
    (AtlasMeshFromNetCDFComplete (-1) example_disk "grid.nc" = Ok (Some example_mesh) ->
     converted_table dataFile "adjacent_cell_of_edge" 2
       (e_cell_connectivity (edges example_mesh)) /\
     converted_table dataFile "edge_vertices" 2 (e_node_connectivity (edges example_mesh)) /\
     converted_table dataFile "cells_of_vertex" 6 (n_cell_connectivity (nodes example_mesh)) /\
     converted_table dataFile "edges_of_vertex" 6 (n_edge_connectivity (nodes example_mesh)) /\
     converted_table dataFile "edge_of_cell" 3 (c_edge_connectivity (cells example_mesh))).
Proof.
  apply (import_converts_units_and_indices (-1) example_disk "grid.nc" example_mesh).
  right. reflexivity.
Defined.

(** * Further properties of the code *)

(** ** The containment predicate: boxes and vertices *)

#[export] Instance CoordStrict_R : CoordStrict R.
Proof. split; simpl; intros a b c; rewrite !Rltb_true; lra. Qed.

Lemma SFltb_trans (a b c : spec_float) :
  SFltb a b = true -> SFltb b c = true -> SFltb a c = true.
Proof.
  unfold SFltb.
  destruct a as [sa|sa| |sa ma ea], b as [sb|sb| |sb mb eb], c as [sc|sc| |sc mc ec];
    simpl; try discriminate;
    try (destruct sa; simpl; try discriminate); try (destruct sb; simpl; try discriminate);
    try (destruct sc; simpl; try discriminate); try reflexivity;
    intros Hab Hbc; order_cases.
Qed.

#[export] Instance CoordStrict_binary64 : CoordStrict binary64.
Proof. split; simpl; exact SFltb_trans. Qed.

Lemma bool_eq_iff (a b : bool) : (a = true <-> b = true) -> a = b.
Proof.
  destruct a, b; intros [H1 H2]; try reflexivity.
  - symmetry. apply H1. reflexivity.
  - apply H2. reflexivity.
Qed.

Lemma empty_box_selects_nothing {T : Type} {C : Coord T} {S : CoordStrict T}
  (mesh : Rect.Mesh T) (cellIdx : nat) (bblo bbhi : Rect.Point T) :
  cltb (fst bblo) (fst bbhi) = false \/ cltb (snd bblo) (snd bbhi) = false ->
  Rect.TriangleInBB mesh cellIdx bblo bbhi = false.
Proof.
  intros Hempty.
  destruct (Rect.TriangleInBB mesh cellIdx bblo bbhi) eqn:E; [ | reflexivity].
  apply TriangleInBB_true in E. destruct E as (p & _ & (Hx1 & Hx2) & (Hy1 & Hy2)).
  pose proof (ltb_trans _ _ _ Hx1 Hx2) as Hx. pose proof (ltb_trans _ _ _ Hy1 Hy2) as Hy.
  destruct Hempty as [H | H]; congruence.
Qed.

(** X1. A box that is empty on one axis (its low bound is not below its
    high bound there, as for a degenerate or an inverted box) selects no
    triangle. *)
Theorem TriangleInBB_empty_box :
  forall (T : Type) (C : Coord T) (S : CoordStrict T)
         (mesh : Rect.Mesh T) (cellIdx : nat) (bblo bbhi : Rect.Point T),
    cltb (fst bblo) (fst bbhi) = false \/ cltb (snd bblo) (snd bbhi) = false ->
    Rect.TriangleInBB mesh cellIdx bblo bbhi = false.
Proof.
  intros T C S mesh cellIdx bblo bbhi Hempty.
  exact (empty_box_selects_nothing mesh cellIdx bblo bbhi Hempty).
Qed.

Lemma TriangleInBB_empty_box_witness :
  Rect.TriangleInBB Rect.example_triangle 0 Rect.example_hi1 Rect.example_lo1 = false.
Proof.
  apply (TriangleInBB_empty_box binary64 _ CoordStrict_binary64).
  left. vm_compute. reflexivity.
Defined.

(** X2. In binary64 a NaN selects nothing: a triangle is not selected when
    one of the four coordinates of the box is a NaN, nor when each of its
    three vertices has a NaN coordinate. *)
Theorem TriangleInBB_nan :
  forall (mesh : Rect.Mesh binary64) (cellIdx : nat) (bblo bbhi : Rect.Point binary64),
    (fst bblo = S754_nan \/ snd bblo = S754_nan \/
     fst bbhi = S754_nan \/ snd bbhi = S754_nan) \/
    Forall (fun p => fst p = S754_nan \/ snd p = S754_nan)
           (Rect.cell_vertices mesh cellIdx) ->
    Rect.TriangleInBB mesh cellIdx bblo bbhi = false.
Proof.
  intros mesh cellIdx bblo bbhi.
  assert (Hl : forall a, SFltb S754_nan a = false) by reflexivity.
  assert (Hr : forall a, SFltb a S754_nan = false) by (intros a; destruct a; reflexivity).
  intros [Hbox | Hvertices].
  - apply (@empty_box_selects_nothing binary64 _ CoordStrict_binary64). simpl.
    destruct Hbox as [-> | [-> | [-> | ->]]]; auto.
  - destruct (Rect.TriangleInBB mesh cellIdx bblo bbhi) eqn:E; [ | reflexivity].
    apply TriangleInBB_true in E. destruct E as (p & Hin & (Hx1 & Hx2) & (Hy1 & Hy2)).
    rewrite Forall_forall in Hvertices.
    specialize (Hvertices p Hin). destruct p as [x y].
    cbn [fst snd cltb Coord_binary64] in Hx1, Hy1, Hvertices.
    destruct Hvertices as [-> | ->].
    + rewrite Hr in Hx1. discriminate.
    + rewrite Hr in Hy1. discriminate.
Qed.

Lemma TriangleInBB_nan_witness :
  Rect.TriangleInBB Rect.example_triangle 0 (S754_nan, b64 0 0) Rect.example_hi2 = false.
Proof.
  apply (TriangleInBB_nan Rect.example_triangle 0 (S754_nan, b64 0 0) Rect.example_hi2).
  left. left. reflexivity.
Defined.

(** X3. [TriangleInBB] looks at the set of the three vertices only: two
    cells whose vertices are the same up to their order are selected by the
    same boxes. *)
Theorem TriangleInBB_vertex_order :
  forall (T : Type) (C : Coord T) (mesh mesh' : Rect.Mesh T) (cellIdx cellIdx' : nat)
         (bblo bbhi : Rect.Point T),
    Permutation (Rect.cell_vertices mesh cellIdx) (Rect.cell_vertices mesh' cellIdx') ->
    Rect.TriangleInBB mesh cellIdx bblo bbhi = Rect.TriangleInBB mesh' cellIdx' bblo bbhi.
Proof.
  intros T C mesh mesh' cellIdx cellIdx' bblo bbhi Hperm.
  apply bool_eq_iff. rewrite !TriangleInBB_true.
  split; intros (p & Hin & Hp); exists p; (split; [ | exact Hp]).
  - exact (Permutation_in _ Hperm Hin).
  - exact (Permutation_in _ (Permutation_sym Hperm) Hin).
Qed.

Lemma TriangleInBB_vertex_order_witness :
  Rect.TriangleInBB Rect.example_triangle 0 Rect.example_lo1 Rect.example_hi1 =
  Rect.TriangleInBB Rect.example_triangle_reordered 0 Rect.example_lo1 Rect.example_hi1.
Proof.
  apply (TriangleInBB_vertex_order binary64 _ Rect.example_triangle
           Rect.example_triangle_reordered 0 0).
  vm_compute.
  match goal with
  | |- Permutation (?a :: ?l) _ => apply (Permutation_cons_app l [] a)
  end.
  rewrite app_nil_r. apply Permutation_refl.
Defined.

(** ** The Bounding-Box Normalizer on any mesh *)

Section NormalizerContract.
Local Open Scope R_scope.
Variable nodes : list (Rect.Point R).
Hypothesis Hdouble : Rect.double_nodes (bpow 500) nodes.
Hypothesis Hne : nodes <> [].

Lemma bpow_500_le : bpow 500 <= Rect.DBL_MAX.
Proof.
  apply Rle_trans with (bpow 1000); [apply bpow_le; lia | ].
  apply Rle_trans with (2 ^ 1000); [ | apply DBL_MAX_ge_pow; lia].
  rewrite bpow_nonneg_IZR, pow_IZR by lia. apply Req_le. reflexivity.
Qed.

Lemma contract_scan :
  Rect.scan nodes =
  (Rect.list_min (map fst nodes), Rect.list_min (map snd nodes),
   Rect.list_max (map fst nodes), Rect.list_max (map snd nodes)).
Proof using Hdouble Hne.
  pose proof bpow_500_le as Hb.
  destruct nodes as [|p rest] eqn:E; [congruence | ].
  destruct (Hdouble p ltac:(left; reflexivity)) as [[_ Hx] [_ Hy]].
  apply Rabs_le_inv in Hx, Hy.
  apply (scan_extremes _ (fst p) (fst p) (snd p) (snd p)); try lra;
    apply in_map; left; reflexivity.
Qed.

Lemma contract_lY_le : Rect.lY nodes <= bpow 1000.
Proof using Hdouble Hne.
  destruct (normalizer_unfold _ _ _ _ _ contract_scan) as (_ & HY & _). rewrite HY.
  assert (Hny : map snd nodes <> []) by (destruct nodes; [congruence | discriminate]).
  destruct (list_min_is_min _ Hny) as [Hmin _], (list_max_is_max _ Hny) as [Hmax _].
  apply in_map_iff in Hmin, Hmax.
  destruct Hmin as (p & Ep & Hp), Hmax as (q & Eq & Hq).
  destruct (Hdouble p Hp) as [_ [_ Hpy]], (Hdouble q Hq) as [_ [_ Hqy]].
  rewrite Ep in Hpy. rewrite Eq in Hqy. apply Rabs_le_inv in Hpy, Hqy.
  apply Rle_trans with (bpow 501); [ | apply bpow_le; lia].
  apply fl_le_const.
  - apply format_fl. exists 1%Z, 501%Z. split; [ring | split; lia].
  - replace (bpow 501) with (bpow 500 + bpow 500); [lra | ].
    change 501%Z with (500 + 1)%Z. rewrite bpow_add.
    replace (bpow 1) with 2 by (unfold bpow; simpl; lra). ring.
Qed.

End NormalizerContract.

(** X6. On any mesh whose coordinates are doubles of magnitude at most
    2^500, whose y-extent [lY] is at least 2^-500 and whose x-extent [lX] is
    either 0 or at least 2^-1021, the Bounding-Box Normalizer returns a mesh
    whose bounding box is centred at the origin on both axes, exactly, and
    whose y-extent differs from 180 by at most [180 * (2 * u + u * u)], with
    the same cells and as many nodes. *)
Theorem BoundingBoxNormalizer_contract :
  forall mesh : Rect.Mesh R,
    Rect.double_nodes (bpow 500) (Rect.xy mesh) ->
    Rect.xy mesh <> [] ->
    (Rect.lX (Rect.xy mesh) = 0 \/ bpow (-1021) <= Rect.lX (Rect.xy mesh))%R ->
    (bpow (-500) <= Rect.lY (Rect.xy mesh))%R ->
    let out := Rect.BoundingBoxNormalizer mesh in
    (Rabs (Rect.list_max (Rect.ys out) - Rect.list_min (Rect.ys out) - 180)
     <= 180 * (2 * u + u * u))%R /\
    ((Rect.list_max (Rect.xs out) + Rect.list_min (Rect.xs out)) / 2 = 0)%R /\
    ((Rect.list_max (Rect.ys out) + Rect.list_min (Rect.ys out)) / 2 = 0)%R /\
    Rect.node_connectivity out = Rect.node_connectivity mesh /\
    Rect.nodes_size out = Rect.nodes_size mesh.
Proof.
  intros mesh Hd Hne HlX HlY out. subst out.
  destruct mesh as [nodes conn]. cbn [Rect.xy] in *.
  pose proof (contract_scan nodes Hd Hne) as Hscan.
  assert (HlY' : (bpow (-1021) <= Rect.lY nodes)%R).
  { eapply Rle_trans; [ | exact HlY]. apply bpow_le. lia. }
  destruct (normalizer_centred nodes Hscan Hne HlX HlY') as [C1 C2].
  pose proof (normalizer_extent nodes Hscan Hne HlX HlY' (contract_lY_le nodes Hd Hne)) as E.
  unfold Rect.xs, Rect.ys, Rect.BoundingBoxNormalizer, Rect.nodes_size.
  cbn [Rect.xy Rect.node_connectivity].
  split; [exact E | ]. split; [exact C1 | ]. split; [exact C2 | ].
  split; [reflexivity | ]. apply normalizer_length.
Qed.

Lemma example_raw_double : Rect.double_nodes (bpow 500) (Rect.xy Rect.example_raw).
Proof.
  assert (Hb : (3 <= bpow 500)%R).
  { apply Rle_trans with (bpow 2); [bpow_num; lra | apply bpow_le; lia]. }
  assert (F0 : format 0) by fl_const_format.
  assert (F1 : format 1) by fl_const_format.
  assert (F2 : format 2) by fl_const_format.
  assert (F3 : format 3) by fl_const_format.
  intros p Hp. simpl in Hp.
  destruct Hp as [<- | [<- | [<- | []]]]; cbn [fst snd];
    repeat split; try assumption; apply Rabs_le; lra.
Qed.

Lemma example_raw_extents :
  Rect.lX (Rect.xy Rect.example_raw) = 2%R /\ Rect.lY (Rect.xy Rect.example_raw) = 3%R.
Proof.
  assert (Hne : Rect.xy Rect.example_raw <> []) by discriminate.
  destruct (normalizer_unfold _ _ _ _ _ (contract_scan _ example_raw_double Hne))
    as (HX & HY & _).
  rewrite HX, HY.
  assert (E1 : Rect.list_max (map fst (Rect.xy Rect.example_raw)) = 2%R) by eval_extremes.
  assert (E2 : Rect.list_min (map fst (Rect.xy Rect.example_raw)) = 0%R) by eval_extremes.
  assert (E3 : Rect.list_max (map snd (Rect.xy Rect.example_raw)) = 3%R) by eval_extremes.
  assert (E4 : Rect.list_min (map snd (Rect.xy Rect.example_raw)) = 0%R) by eval_extremes.
  rewrite E1, E2, E3, E4. rewrite !Rminus_0_r. split; fl_const.
Qed.

Lemma BoundingBoxNormalizer_contract_witness :
  (Rabs (Rect.list_max (Rect.ys (Rect.BoundingBoxNormalizer Rect.example_raw)) -
         Rect.list_min (Rect.ys (Rect.BoundingBoxNormalizer Rect.example_raw)) - 180)
   <= 180 * (2 * u + u * u))%R.
Proof.
  destruct example_raw_extents as [EX EY].
  apply (BoundingBoxNormalizer_contract Rect.example_raw).
  - exact example_raw_double.
  - discriminate.
  - right. rewrite EX. apply Rle_trans with (bpow 0); [apply bpow_le; lia | bpow_num; lra].
  - rewrite EY. apply Rle_trans with (bpow 0); [apply bpow_le; lia | bpow_num; lra].
Defined.

(** ** The Geometry Transform on the lattice *)

Section Shear.
Local Open Scope R_scope.

(** The rows of the sheared lattice are strictly ascending. *)
Lemma row_step (i i' j : nat) :
  INR (S j) <= bpow 31 ->
  snd (Rect.sheared i j) < snd (Rect.sheared i' (S j)).
Proof.
  intros Hj. pose proof sqrt3_double as Hc.
  destruct j as [|j].
  - pose proof (row_1 i') as H1.
    replace (snd (Rect.sheared i 0)) with 0; [lra | ].
    rewrite sheared_snd. cbn [INR]. rewrite Rmult_0_l, fl_0. unfold Rdiv.
    rewrite Rmult_0_l. symmetry. apply fl_0.
  - rewrite !sheared_snd.
    set (c := fl (sqrt 3)) in *.
    assert (Hj1 : 1 <= INR (S j)) by (rewrite S_INR; pose proof (pos_INR j); lra).
    assert (Hj2 : INR (S (S j)) = INR (S j) + 1) by (rewrite (S_INR (S j)); reflexivity).
    set (x := INR (S j)) in *. rewrite Hj2 in *.
    assert (Hu : u * bpow 33 <= / 4).
    { unfold u. rewrite <- bpow_add. simpl Z.add. bpow_num. lra. }
    assert (Hb : bpow 33 = 4 * bpow 31).
    { change 33%Z with (2 + 31)%Z. rewrite bpow_add. bpow_num. lra. }
    pose proof u_pos as Hup.
    assert (Ha : 1 <= x * c) by nra.
    assert (Hb' : 1 <= (x + 1) * c) by nra.
    pose proof (fl_error_ge1 _ Ha) as Ea. pose proof (fl_error_ge1 _ Hb') as Eb.
    apply Rabs_le_inv in Ea, Eb.
    assert (Hxc : (x + 1) * c <= bpow 33 / 2) by nra.
    assert (Hxc' : x * c <= bpow 33 / 2) by nra.
    assert (Hua : u * (x * c) <= / 8).
    { apply Rle_trans with (u * (bpow 33 / 2)); [apply Rmult_le_compat_l; lra | lra]. }
    assert (Hub : u * ((x + 1) * c) <= / 8).
    { apply Rle_trans with (u * (bpow 33 / 2)); [apply Rmult_le_compat_l; lra | lra]. }
    assert (H1021 : bpow (-1021) <= 1 / 2).
    { apply Rle_trans with (bpow (-1)); [apply bpow_le; lia | bpow_num; lra]. }
    rewrite (half_exact (fl (x * c))), (half_exact (fl ((x + 1) * c)));
      try apply fl_format; try (right; rewrite Rabs_pos_eq; lra).
    lra.
Qed.

Lemma row_lt (i i' j j' : nat) :
  (j < j')%nat -> INR j' <= bpow 31 ->
  snd (Rect.sheared i j) < snd (Rect.sheared i' j').
Proof.
  intros Hlt Hj'.
  apply Rlt_le_trans with (snd (Rect.sheared i (S j))).
  - apply row_step. apply Rle_trans with (INR j'); [apply le_INR; lia | exact Hj'].
  - apply row_le. lia.
Qed.

End Shear.

(** X5. The shear keeps the nodes of the lattice apart: for every [ny >= 2]
    for which [nx = 3 * ny] is an [int], two nodes (i, j) and (i', j') of
    the [nx] by [ny] lattice that the shear sends to one point are one
    node. *)
Theorem shear_injective :
  forall (ny : Z) (i j i' j' : nat),
    (2 <= ny)%Z -> (3 * ny <= Rect.INT_MAX)%Z ->
    (i < Z.to_nat (3 * ny))%nat -> (j < Z.to_nat ny)%nat ->
    (i' < Z.to_nat (3 * ny))%nat -> (j' < Z.to_nat ny)%nat ->
    Rect.sheared i j = Rect.sheared i' j' -> i = i' /\ j = j'.
Proof.
  intros ny i j i' j' Hny Hmax Hi Hj Hi' Hj' E.
  assert (Hb : forall k : nat, (k < Z.to_nat ny)%nat -> (INR k <= bpow 31)%R).
  { intros k Hk. rewrite INR_IZR_INZ, bpow_nonneg_IZR by lia. apply IZR_le.
    unfold Rect.INT_MAX in Hmax. lia. }
  assert (Ej : j = j').
  { destruct (Nat.lt_trichotomy j j') as [H | [H | H]]; [ | exact H | ].
    - pose proof (row_lt i i' j j' H (Hb _ Hj')) as Hlt. rewrite E in Hlt. lra.
    - pose proof (row_lt i' i j' j H (Hb _ Hj)) as Hlt. rewrite E in Hlt. lra. }
  subst j'. split; [ | reflexivity].
  apply (f_equal fst) in E.
  rewrite (sheared_fst ny Hny Hmax i j Hi Hj), (sheared_fst ny Hny Hmax i' j Hi' Hj) in E.
  assert (E' : IZR (2 * Z.of_nat i - Z.of_nat j) = IZR (2 * Z.of_nat i' - Z.of_nat j))
    by lra.
  apply eq_IZR in E'. lia.
Qed.

Lemma shear_injective_witness : (1 = 1 /\ 1 = 1)%nat.
Proof.
  apply (shear_injective 2 1 1 1 1); try lia; try reflexivity.
  unfold Rect.INT_MAX. lia.
Defined.

(** ** The selection loop *)

Lemma StronglySorted_seq (a n : nat) : StronglySorted lt (seq a n).
Proof.
  revert a. induction n as [|n IH]; intros a; simpl; constructor; [apply IH | ].
  apply Forall_forall. intros x Hx. apply in_seq in Hx. lia.
Qed.

Lemma StronglySorted_filter (f : nat -> bool) (l : list nat) :
  StronglySorted lt l -> StronglySorted lt (filter f l).
Proof.
  induction 1 as [|a l Hs IH Ha]; simpl; [constructor | ].
  destruct (f a); [ | exact IH]. constructor; [exact IH | ].
  rewrite Forall_forall in *. intros x Hx. apply filter_In in Hx. apply Ha. tauto.
Qed.

(** X9. The list [keep] that the selection loop of [AtlasMeshRect] builds is
    strictly ascending (so without repetitions), and it holds exactly the
    cell indices of the mesh for which [TriangleInBB] is true. *)
Theorem keep_ascending :
  forall ny : Z,
    StronglySorted lt (Rect.keep ny) /\
    forall cellIdx,
      In cellIdx (Rect.keep ny) <->
      (cellIdx < Rect.cells_size (Rect.transformedMesh ny))%nat /\
      Rect.TriangleInBB (Rect.transformedMesh ny) cellIdx Rect.lo (Rect.hi ny) = true.
Proof.
  intros ny. split.
  - unfold Rect.keep. apply StronglySorted_filter. apply StronglySorted_seq.
  - intros cellIdx. apply keep_in.
Qed.

(** ** The importer: faults and rejected files *)

(** X10. No exception leaves the importer: neither entry point lets an
    [NcException] propagate, whatever the file. *)
Theorem importer_never_throws :
  forall (missing_value : Z) (disk : Disk) (filename : string),
    AtlasMeshFromNetCDFMinimal missing_value disk filename <> Throw /\
    AtlasMeshFromNetCDFComplete missing_value disk filename <> Throw.
Proof.
  intros mv disk filename.
  assert (Hmin : AtlasMeshFromNetCDFMinimal mv disk filename <> Throw)
    by apply try_catch_not_throw.
  split; [exact Hmin | ].
  unfold AtlasMeshFromNetCDFComplete.
  destruct (AtlasMeshFromNetCDFMinimal mv disk filename) as [[mesh|]| |];
    cbn [bind]; try discriminate; [ | congruence].
  apply try_catch_not_throw.
Qed.

(** X11. A file that cannot be opened gives an absent result from both
    entry points. *)
Theorem unopened_file_absent :
  forall (missing_value : Z) (disk : Disk) (filename : string),
    disk filename = None ->
    AtlasMeshFromNetCDFMinimal missing_value disk filename = Ok None /\
    AtlasMeshFromNetCDFComplete missing_value disk filename = Ok None.
Proof.
  intros mv disk filename Hdisk.
  assert (Hmin : AtlasMeshFromNetCDFMinimal mv disk filename = Ok None).
  { unfold AtlasMeshFromNetCDFMinimal, open. rewrite Hdisk. reflexivity. }
  split; [exact Hmin | ].
  unfold AtlasMeshFromNetCDFComplete. rewrite Hmin. reflexivity.
Qed.

Lemma unopened_file_absent_witness :
  AtlasMeshFromNetCDFMinimal (-1) example_disk "other.nc" = Ok None /\
  AtlasMeshFromNetCDFComplete (-1) example_disk "other.nc" = Ok None.
Proof.
  apply (unopened_file_absent (-1) example_disk "other.nc"). reflexivity.
Defined.

Lemma LoadField_double_readable (dataFile : NcFile) (name : string) (l : list binary64) :
  LoadField asDouble dataFile name = Ok l -> l <> [] ->
  readable_double dataFile name [List.length l].
Proof.
  unfold LoadField, readable_double.
  destruct (dataFile name) as [data|]; [ | intros [= <-]; congruence].
  destruct (dimSizes data) as [|size [|d1 ds]] eqn:Hdims; try discriminate.
  destruct (asDouble data) as [values|] eqn:Hget; [ | discriminate].
  intros [= <-] _. exists data, values.
  rewrite length_map, length_seq. auto.
Qed.

Lemma NodesFromNetCDF_shape (dataFile : NcFile) (mesh mesh' : Mesh) :
  NodesFromNetCDF dataFile mesh = Ok (true, mesh') ->
  exists numNodes,
    readable_double dataFile "vlon" [numNodes] /\
    readable_double dataFile "vlat" [numNodes] /\
    numNodes <> 0%nat /\
    (0 <= to_int numNodes)%Z /\
    nodes mesh' =
    (let indices := seq 0 (Z.to_nat (to_int numNodes)) in
     mkNodes (to_int numNodes) (lonlat (nodes mesh'))
       (map Z.of_nat indices) (map Z.of_nat indices)
       (map (fun _ => 0%Z) indices) (map (fun _ => 0%Z) indices)
       (map (fun _ => 0%Z) indices)
       (n_cell_connectivity (nodes mesh)) (n_edge_connectivity (nodes mesh))) /\
    List.length (lonlat (nodes mesh')) = Z.to_nat (to_int numNodes).
Proof.
  unfold NodesFromNetCDF. intros H. repeat inv_step H.
  injection H as <-.
  rename a into vlon, a0 into vlat, E into Hlon, E0 into Hlat, E1 into Hnonempty,
    E2 into Hsize, E3 into Hpos.
  apply orb_false_iff in Hnonempty. destruct Hnonempty as [Hn1 Hn2].
  apply Nat.eqb_neq in Hn1, Hn2.
  apply negb_false_iff, Nat.eqb_eq in Hsize. apply Z.ltb_ge in Hpos.
  apply LoadField_double_readable in Hlon; [ | intros ->; apply Hn1; reflexivity].
  apply LoadField_double_readable in Hlat; [ | intros ->; apply Hn2; reflexivity].
  exists (List.length vlat). rewrite Hsize in Hlon.
  cbn [nodes lonlat]. rewrite length_map, length_seq.
  repeat split; assumption || reflexivity.
Qed.

(** X12. [AtlasMeshFromNetCDFMinimal] returns a mesh only for a file whose
    [vlon] and [vlat] are both present, one-dimensional, readable and of one
    size that is not 0; the mesh then has as many nodes as that size is as
    an [int], never more than the file has values.  So a file without [vlon]
    or [vlat], with an empty one or with two sizes is not imported. *)
Theorem Minimal_requires_coordinates :
  forall (missing_value : Z) (disk : Disk) (filename : string) (mesh : Mesh),
    AtlasMeshFromNetCDFMinimal missing_value disk filename = Ok (Some mesh) ->
    exists dataFile numNodes,
      disk filename = Some dataFile /\
      readable_double dataFile "vlon" [numNodes] /\
      readable_double dataFile "vlat" [numNodes] /\
      numNodes <> 0%nat /\
      n_size (nodes mesh) = to_int numNodes /\
      List.length (lonlat (nodes mesh)) = Z.to_nat (to_int numNodes) /\
      (List.length (lonlat (nodes mesh)) <= numNodes)%nat.
Proof.
  intros mv disk filename mesh H.
  unfold AtlasMeshFromNetCDFMinimal in H. repeat inv_step H.
  injection H as <-.
  rename a into dataFile, E into Hopen, E0 into Hnodes, E2 into Hcells.
  destruct b; [ | discriminate]. destruct b0; [ | discriminate].
  apply open_inv in Hopen.
  apply NodesFromNetCDF_shape in Hnodes.
  destruct Hnodes as (numNodes & Hlon & Hlat & Hne & Hpos & Hn & Hlen).
  apply CellsFromNetCDF_inv in Hcells. destruct Hcells as (Hn' & _).
  exists dataFile, numNodes. rewrite Hn'.
  repeat split; try assumption.
  - rewrite Hn. reflexivity.
  - rewrite Hlen. pose proof (to_int_le numNodes). lia.
Qed.

Lemma Minimal_requires_coordinates_witness :
  exists dataFile numNodes,
    example_disk_minimal "grid.nc"%string = Some dataFile /\
    readable_double dataFile "vlon" [numNodes] /\
    readable_double dataFile "vlat" [numNodes] /\
    numNodes <> 0%nat /\
    n_size (nodes example_minimal_mesh) = to_int numNodes /\
    List.length (lonlat (nodes example_minimal_mesh)) = Z.to_nat (to_int numNodes) /\
    (List.length (lonlat (nodes example_minimal_mesh)) <= numNodes)%nat.
Proof.
  apply (Minimal_requires_coordinates (-1) example_disk_minimal "grid.nc"
           example_minimal_mesh).
  reflexivity.
Defined.

(** X13. A file whose nodes are fine but whose [vertex_of_cell] is missing
    or does not have 3 as its first dimension ("not a triangle mesh") gives
    an absent result from both entry points. *)
Theorem Minimal_rejects_non_triangles :
  forall (missing_value : Z) (disk : Disk) (filename : string) (dataFile : NcFile)
         (numNodes : nat),
    disk filename = Some dataFile ->
    readable_double dataFile "vlon" [numNodes] ->
    readable_double dataFile "vlat" [numNodes] ->
    (0 < Z.of_nat numNodes < 2 ^ 31)%Z ->
    (dataFile "vertex_of_cell"%string = None \/
     exists perCell numCells,
       readable_int dataFile "vertex_of_cell" [perCell; numCells] /\ perCell <> 3%nat) ->
    AtlasMeshFromNetCDFMinimal missing_value disk filename = Ok None /\
    AtlasMeshFromNetCDFComplete missing_value disk filename = Ok None.
Proof.
  intros mv disk filename dataFile numNodes Hdisk Hlon Hlat Hn Hcells.
  assert (Hmin : AtlasMeshFromNetCDFMinimal mv disk filename = Ok None).
  { unfold AtlasMeshFromNetCDFMinimal, open. rewrite Hdisk. cbn [bind].
    destruct (NodesFromNetCDF_ok dataFile empty_mesh numNodes Hlon Hlat Hn) as [m1 ->].
    cbn [bind negb]. unfold CellsFromNetCDF, Load2DField.
    destruct Hcells as [-> | (perCell & numCells & (data & values & -> & -> & ->) & Hne)].
    - reflexivity.
    - cbn [bind]. destruct (Nat.eqb_spec perCell 3) as [-> | _]; [congruence | reflexivity]. }
  split; [exact Hmin | ].
  unfold AtlasMeshFromNetCDFComplete. rewrite Hmin. reflexivity.
Qed.

Lemma Minimal_rejects_non_triangles_witness :
  AtlasMeshFromNetCDFMinimal (-1) example_disk_quad "grid.nc" = Ok None /\
  AtlasMeshFromNetCDFComplete (-1) example_disk_quad "grid.nc" = Ok None.
Proof.
  apply (Minimal_rejects_non_triangles (-1) example_disk_quad "grid.nc" quad_file 4).
  - reflexivity.
  - do 2 eexists. repeat split; reflexivity.
  - do 2 eexists. repeat split; reflexivity.
  - lia.
  - right. exists 4%nat, 1%nat. split; [ | lia].
    do 2 eexists. repeat split; reflexivity.
Defined.

(** ** The importer: the shape of the mesh *)

Section Shapes.
Local Open Scope nat_scope.

Lemma nth_error_write (A : Type) (i j : nat) (v : A) (a : list A) :
  nth_error (write i v a) j =
  if (j =? i) && (j <? List.length a) then Some v else nth_error a j.
Proof.
  destruct (Nat.eqb_spec j i) as [-> | Hne]; simpl.
  - destruct (Nat.ltb_spec i (List.length a)) as [Hlt | Hge].
    + apply nth_error_write_eq. exact Hlt.
    + assert (Hnone : nth_error a i = None) by (apply nth_error_None; exact Hge).
      rewrite Hnone. apply nth_error_None. rewrite write_length. exact Hge.
  - apply nth_error_write_neq. congruence.
Qed.

(** The loop that sets rows keeps the width of the rows. *)
Lemma set_loop_widths (f : nat -> list Z) (n width : nat) (a : nat)
  (conn conn' : Connectivity) :
  Forall (fun row => List.length row = width) conn ->
  (forall e, List.length (f e) = width) ->
  for_loop (seq a n) (fun elemIdx c => set c elemIdx (f elemIdx)) conn = Ok conn' ->
  Forall (fun row => List.length row = width) conn'.
Proof.
  intros Hrows Hf Hloop.
  destruct (set_loop_inv f n a conn conn' Hloop) as (_ & Hin & Hout).
  rewrite Forall_forall in *. intros row Hrow.
  apply In_nth_error in Hrow. destruct Hrow as [e He].
  destruct (le_lt_dec a e) as [Hae | Hae]; [destruct (le_lt_dec (a + n) e) as [Hen | Hen] | ].
  - rewrite Hout in He by lia. apply Hrows. eapply nth_error_In. exact He.
  - destruct (Hin e ltac:(lia)) as (old & Hold & He').
    rewrite He' in He. injection He as <-.
    rewrite length_firstn, Hf. apply nth_error_In in Hold. rewrite (Hrows _ Hold). lia.
  - rewrite Hout in He by lia. apply Hrows. eapply nth_error_In. exact He.
Qed.

(** What the loop of [CellsFromNetCDF] leaves in the two field arrays. *)
Lemma cell_loop_fields (cellToVertex : list Z) (ncells n : nat) :
  forall (a : nat) (c c' : Cells),
    for_loop (seq a n) (cell_body cellToVertex ncells) c = Ok c' ->
    c_size c' = c_size c /\
    (forall i, nth_error (c_partition c') i =
               if (a <=? i) && (i <? a + n) && (i <? List.length (c_partition c))
               then Some defaultPartition else nth_error (c_partition c) i) /\
    (forall i, nth_error (c_global_index c') i =
               if (a <=? i) && (i <? a + n) && (i <? List.length (c_global_index c))
               then Some (Z.of_nat i) else nth_error (c_global_index c) i).
Proof.
  induction n as [|n IH]; intros a c c' H; simpl in H.
  - injection H as <-. split; [reflexivity | ].
    split; intros i; destruct (Nat.leb_spec a i), (Nat.ltb_spec i (a + 0));
      try lia; reflexivity.
  - destruct (cell_body cellToVertex ncells a c) as [c1| |] eqn:Hbody;
      cbn [bind] in H; try discriminate.
    apply IH in H. destruct H as (Hsize & Hpart & Hglb).
    unfold cell_body in Hbody. inv_step Hbody. injection Hbody as <-.
    cbn [c_size c_partition c_global_index] in Hsize, Hpart, Hglb.
    split; [exact Hsize | ].
    split; intros i; [rewrite Hpart | rewrite Hglb];
      rewrite write_length, nth_error_write;
      destruct (Nat.leb_spec (S a) i), (Nat.leb_spec a i), (Nat.ltb_spec i (S a + n)),
        (Nat.ltb_spec i (a + S n)), (Nat.eqb_spec i a);
      try lia; simpl; try reflexivity;
      match goal with
      | |- context [i <? ?len] => destruct (Nat.ltb_spec i len)
      end; subst; reflexivity.
Qed.

Lemma list_eq_nth_error (A : Type) (l l' : list A) :
  (forall i, nth_error l i = nth_error l' i) -> l = l'.
Proof. apply nth_error_ext. Qed.

End Shapes.

Section MinimalShape.
Local Open Scope nat_scope.

Lemma nth_error_map_seq (A : Type) (f : nat -> A) (n i : nat) :
  nth_error (map f (seq 0 n)) i = if i <? n then Some (f i) else None.
Proof.
  destruct (Nat.ltb_spec i n) as [Hlt | Hge].
  - rewrite nth_error_map, nth_error_seq.
    destruct (Nat.ltb_spec i n); [reflexivity | lia].
  - apply nth_error_None. rewrite length_map, length_seq. exact Hge.
Qed.

Lemma nth_error_repeat_if (A : Type) (v : A) (n i : nat) :
  nth_error (repeat v n) i = if i <? n then Some v else None.
Proof.
  destruct (Nat.ltb_spec i n) as [Hlt | Hge].
  - apply nth_error_repeat. exact Hlt.
  - apply nth_error_None. rewrite repeat_length. exact Hge.
Qed.

Lemma CellsFromNetCDF_shape (missing_value : Z) (dataFile : NcFile) (mesh mesh' : Mesh) :
  cells mesh = cells empty_mesh ->
  CellsFromNetCDF missing_value dataFile mesh = Ok (true, mesh') ->
  exists ncells,
    dims_of dataFile "vertex_of_cell" = [3; ncells] /\
    c_size (cells mesh') = Z.of_nat ncells /\
    c_global_index (cells mesh') = map Z.of_nat (seq 0 ncells) /\
    c_partition (cells mesh') = repeat defaultPartition ncells /\
    List.length (c_node_connectivity (cells mesh')) = ncells /\
    Forall (fun row => List.length row = 3) (c_node_connectivity (cells mesh')).
Proof.
  intros Hempty. unfold CellsFromNetCDF. intros H. repeat inv_step H.
  injection H as <-. cbn [cells].
  rename l into cellToVertex, n into ncells, E into Hload, E0 into Hthree, E1 into Hadd,
    E2 into Hloop.
  apply negb_false_iff, Nat.eqb_eq in Hthree. subst n0.
  apply Load2DField_int_inv in Hload.
  destruct Hload as [(_ & H0 & _) | [Hdims _]]; [discriminate | ].
  unfold cells_add in Hadd. rewrite Hempty in Hadd. inv_step Hadd. injection Hadd as <-.
  apply Z.ltb_ge in E.
  pose proof (cell_loop_fields _ _ _ _ _ _ Hloop) as (Hsize & Hpart & Hglb).
  apply cell_loop_inv in Hloop. destruct Hloop as [Hloop _].
  cbn [c_size c_partition c_global_index c_node_connectivity empty_mesh cells app] in *.
  pose proof (set_loop_inv _ _ _ _ _ Hloop) as (Hlen & Hin & _).
  pose proof (to_int_le ncells) as Hle.
  assert (Hrows : List.length (add_missing missing_value [] (to_int ncells) 3)
                  = Z.to_nat (to_int ncells)).
  { unfold add_missing. simpl. apply repeat_length. }
  assert (Hn : Z.to_nat (to_int ncells) = ncells).
  { destruct ncells as [|k]; [lia | ].
    destruct (Hin k ltac:(lia)) as (old & Hold & _).
    assert (k < Z.to_nat (to_int (S k))) by (rewrite <- Hrows; apply nth_error_Some; congruence).
    lia. }
  exists ncells. split; [exact Hdims | ].
  split; [rewrite Hsize; lia | ].
  split; [ | split; [ | split]].
  - apply nth_error_ext. intros i.
    rewrite Hglb, nth_error_map_seq, repeat_length, nth_error_repeat_if, !Hn.
    cbn [Nat.add Nat.leb].
    destruct (Nat.ltb_spec i ncells); simpl; rewrite ?andb_false_r; reflexivity.
  - apply nth_error_ext. intros i.
    rewrite Hpart, repeat_length, !nth_error_repeat_if, !Hn.
    cbn [Nat.add Nat.leb].
    destruct (Nat.ltb_spec i ncells); simpl; rewrite ?andb_false_r; reflexivity.
  - rewrite Hlen, Hrows. exact Hn.
  - apply (set_loop_widths
             (fun cellIdx =>
                map (fun k => int_sub (nth (k * ncells + cellIdx) cellToVertex 0%Z) 1) (seq 0 3))
             ncells 3 0 (add_missing missing_value [] (to_int ncells) 3));
      [ | intros e; reflexivity | exact Hloop].
    apply (add_missing_rows missing_value [] (to_int ncells) 3). constructor.
Qed.

End MinimalShape.

(** X14. In a mesh that [AtlasMeshFromNetCDFMinimal] returns, the global and
    the remote index of node [i] are [i], every node has partition 0, is no
    ghost and has no flag set; the global index of cell [c] is [c], every
    cell has partition 0, and the cell-to-node connectivity has one row of 3
    entries per cell, as many as [vertex_of_cell] has columns. *)
Theorem Minimal_mesh_shape :
  forall (missing_value : Z) (disk : Disk) (filename : string) (mesh : Mesh),
    AtlasMeshFromNetCDFMinimal missing_value disk filename = Ok (Some mesh) ->
    exists (dataFile : NcFile) (numNodes numCells : nat),
      disk filename = Some dataFile /\
      n_size (nodes mesh) = Z.of_nat numNodes /\
      List.length (lonlat (nodes mesh)) = numNodes /\
      n_global_index (nodes mesh) = map Z.of_nat (seq 0 numNodes) /\
      remote_index (nodes mesh) = map Z.of_nat (seq 0 numNodes) /\
      n_partition (nodes mesh) = repeat defaultPartition numNodes /\
      ghost (nodes mesh) = repeat 0%Z numNodes /\
      flags (nodes mesh) = repeat 0%Z numNodes /\
      dims_of dataFile "vertex_of_cell" = [3; numCells]%nat /\
      c_size (cells mesh) = Z.of_nat numCells /\
      c_global_index (cells mesh) = map Z.of_nat (seq 0 numCells) /\
      c_partition (cells mesh) = repeat defaultPartition numCells /\
      table_shape (c_node_connectivity (cells mesh)) (Z.of_nat numCells) 3.
Proof.
  intros mv disk filename mesh H.
  unfold AtlasMeshFromNetCDFMinimal in H. repeat inv_step H.
  injection H as <-.
  rename a into dataFile, E into Hopen, E0 into Hnodes, E2 into Hcells.
  destruct b; [ | discriminate]. destruct b0; [ | discriminate].
  apply open_inv in Hopen.
  pose proof (NodesFromNetCDF_inv _ _ _ Hnodes) as (_ & _ & _ & Hc & _).
  apply NodesFromNetCDF_shape in Hnodes.
  destruct Hnodes as (size & _ & _ & _ & Hpos & Hn & Hlen).
  pose proof (CellsFromNetCDF_inv _ _ _ _ Hcells) as (Hn' & _).
  apply CellsFromNetCDF_shape in Hcells; [ | exact Hc].
  destruct Hcells as (ncells & Hdims & Hsize & Hglb & Hpart & Hrows & Hwidth).
  exists dataFile, (Z.to_nat (to_int size)), ncells.
  rewrite Hn', Hn. cbn [n_size lonlat n_global_index remote_index n_partition ghost flags].
  rewrite !map_const, length_seq, Z2Nat.id by exact Hpos.
  unfold table_shape. rewrite Nat2Z.id.
  repeat split; try assumption; try reflexivity.
Qed.

Lemma Minimal_mesh_shape_witness :
  exists (dataFile : NcFile) (numNodes numCells : nat),
    example_disk_minimal "grid.nc"%string = Some dataFile /\
    n_size (nodes example_minimal_mesh) = Z.of_nat numNodes /\
    List.length (lonlat (nodes example_minimal_mesh)) = numNodes /\
    n_global_index (nodes example_minimal_mesh) = map Z.of_nat (seq 0 numNodes) /\
    remote_index (nodes example_minimal_mesh) = map Z.of_nat (seq 0 numNodes) /\
    n_partition (nodes example_minimal_mesh) = repeat defaultPartition numNodes /\
    ghost (nodes example_minimal_mesh) = repeat 0%Z numNodes /\
    flags (nodes example_minimal_mesh) = repeat 0%Z numNodes /\
    dims_of dataFile "vertex_of_cell" = [3; numCells]%nat /\
    c_size (cells example_minimal_mesh) = Z.of_nat numCells /\
    c_global_index (cells example_minimal_mesh) = map Z.of_nat (seq 0 numCells) /\
    c_partition (cells example_minimal_mesh) = repeat defaultPartition numCells /\
    table_shape (c_node_connectivity (cells example_minimal_mesh)) (Z.of_nat numCells) 3.
Proof.
  apply (Minimal_mesh_shape (-1) example_disk_minimal "grid.nc" example_minimal_mesh).
  reflexivity.
Defined.

(** ** The importer: loaded tables *)

(** X15. [Load2DField] returns as many values as the two dimensions
    multiply to, so that the column-major index [inner * elPerStride + elem]
    that [CellsFromNetCDF] and [AddNeighborList] read at is inside the
    vector for every [inner] below the first and [elem] below the second
    dimension. *)
Theorem Load2DField_reads_in_bounds :
  forall (loadT : Type) (get : NcVar -> option (nat -> loadT)) (dataFile : NcFile)
         (name : string) (values : list loadT) (stride elPerStride : nat),
    Load2DField get dataFile name = Ok (values, stride, elPerStride) ->
    List.length values = (stride * elPerStride)%nat /\
    forall inner elem,
      (inner < stride)%nat -> (elem < elPerStride)%nat ->
      (inner * elPerStride + elem < List.length values)%nat.
Proof.
  intros loadT get dataFile name values stride elPerStride H.
  assert (Hlen : List.length values = (stride * elPerStride)%nat).
  { unfold Load2DField in H.
    destruct (dataFile name) as [data|]; [ | injection H as <- <- <-; reflexivity].
    destruct (dimSizes data) as [|d0 [|d1 [|d2 ds]]]; try discriminate.
    destruct (get data) as [f|]; [ | discriminate].
    injection H as <- <- <-. rewrite length_map, length_seq. reflexivity. }
  split; [exact Hlen | ].
  intros inner elem Hi He. rewrite Hlen. nia.
Qed.

Lemma Load2DField_reads_in_bounds_witness :
  List.length [1; 2; 3; 2; 3; 1]%Z = (2 * 3)%nat /\
  forall inner elem,
    (inner < 2)%nat -> (elem < 3)%nat ->
    (inner * 3 + elem < List.length [1; 2; 3; 2; 3; 1]%Z)%nat.
Proof.
  apply (Load2DField_reads_in_bounds Z asInt complete_file "edge_vertices").
  reflexivity.
Defined.

Lemma AddNeighborList_unfold (dataFile : NcFile) (name : string) (perElem : nat)
  (conn conn' : Connectivity) (ok : bool) :
  AddNeighborList dataFile name perElem conn = Ok (ok, conn') ->
  exists xToY yPerX numY,
    Load2DField asInt dataFile name = Ok (xToY, yPerX, numY) /\
    ((yPerX <> perElem /\ ok = false /\ conn' = conn) \/
     (yPerX = perElem /\ ok = true /\
      for_loop (seq 0 numY)
        (fun elemIdx c =>
           set c elemIdx
             (map (fun innerIdx => int_sub (nth (innerIdx * numY + elemIdx) xToY 0%Z) 1)
                  (seq 0 yPerX)))
        conn = Ok conn')).
Proof.
  unfold AddNeighborList. intros H.
  destruct (Load2DField asInt dataFile name) as [[[xToY yPerX] numY]| |] eqn:Hload;
    cbn [bind] in H; try discriminate.
  exists xToY, yPerX, numY. split; [reflexivity | ].
  destruct (Nat.eqb_spec yPerX perElem) as [Heq | Hne]; cbn [negb] in H.
  - right. inv_step H. injection H as <- <-. auto.
  - left. injection H as <- <-. auto.
Qed.

(** X16. [AddNeighborList] returns false, and leaves the table as it was,
    exactly when the first dimension of the variable is not the expected
    number of neighbors.  When it returns true it has set the first [numY]
    rows, [numY] being the second dimension of the variable, which is not
    compared with the number of elements: the table has at least [numY]
    rows, keeps its number of rows, and its rows from [numY] on are as
    before. *)
Theorem AddNeighborList_outcomes :
  forall (dataFile : NcFile) (nbhListName : string) (yPerXExpected : nat)
         (connectivity connectivity' : Connectivity) (ok : bool),
    (0 < yPerXExpected)%nat ->
    AddNeighborList dataFile nbhListName yPerXExpected connectivity = Ok (ok, connectivity') ->
    (ok = false /\ connectivity' = connectivity /\
     forall numY, dims_of dataFile nbhListName <> [yPerXExpected; numY]) \/
    (ok = true /\
     exists numY,
       dims_of dataFile nbhListName = [yPerXExpected; numY] /\
       (numY <= List.length connectivity)%nat /\
       List.length connectivity' = List.length connectivity /\
       forall elem, (numY <= elem)%nat ->
                    nth_error connectivity' elem = nth_error connectivity elem).
Proof.
  intros dataFile name perElem conn conn' ok Hpos H.
  apply AddNeighborList_unfold in H.
  destruct H as (xToY & yPerX & numY & Hload & [(Hne & -> & ->) | (-> & -> & Hloop)]).
  - left. split; [reflexivity | split; [reflexivity | ]].
    intros numY' Hdims. apply Load2DField_int_inv in Hload.
    destruct Hload as [(Hmiss & _) | [Hdims' _]].
    + unfold dims_of in Hdims. rewrite Hmiss in Hdims. discriminate.
    + rewrite Hdims in Hdims'. injection Hdims' as H1 H2. congruence.
  - right. split; [reflexivity | ].
    apply Load2DField_int_inv in Hload.
    destruct Hload as [(_ & H0 & _) | [Hdims _]]; [lia | ].
    destruct (set_loop_inv _ _ _ _ _ Hloop) as (Hlen & Hin & Hout).
    exists numY. split; [exact Hdims | split; [ | split; [exact Hlen | ]]].
    + destruct numY as [|k]; [lia | ].
      destruct (Hin k ltac:(lia)) as (old & Hold & _).
      assert (k < List.length conn)%nat by (apply nth_error_Some; congruence). lia.
    + intros elem He. apply Hout. lia.
Qed.

Lemma AddNeighborList_outcomes_witness :
  let table := repeat (repeat (-1)%Z 3) 2 in
  let table' := [[0; 1; 2]; [-1; -1; -1]]%Z in
  (true = false /\ table' = table /\
   forall numY, dims_of complete_file "edge_of_cell" <> [3%nat; numY]) \/
  (true = true /\
   exists numY,
     dims_of complete_file "edge_of_cell" = [3%nat; numY] /\
     (numY <= List.length table)%nat /\
     List.length table' = List.length table /\
     forall elem, (numY <= elem)%nat -> nth_error table' elem = nth_error table elem).
Proof.
  intros table table'.
  apply (AddNeighborList_outcomes complete_file "edge_of_cell" 3 table table' true).
  - lia.
  - reflexivity.
Defined.

Lemma LoadField_length {loadT : Type} (get : NcVar -> option (nat -> loadT))
  (dataFile : NcFile) (name : string) (l : list loadT) :
  LoadField get dataFile name = Ok l -> List.length l = field_size dataFile name.
Proof.
  unfold LoadField, field_size, dims_of.
  destruct (dataFile name) as [data|]; [ | intros [= <-]; reflexivity].
  destruct (dimSizes data) as [|size [|d1 ds]]; try discriminate.
  destruct (get data) as [values|]; [ | discriminate].
  intros [= <-]. rewrite length_map, length_seq. reflexivity.
Qed.

Lemma AllocNbhTable_shape (missing_value : Z) (conn : Connectivity)
  (numElements nbhPerElem : Z) :
  AllocNbhTable missing_value [] numElements nbhPerElem = Ok conn ->
  table_shape conn numElements (Z.to_nat nbhPerElem).
Proof.
  intros H. split.
  - unfold AllocNbhTable in H. destruct (_ || _); [discriminate | ].
    injection H as <-. unfold add_missing. simpl. apply repeat_length.
  - apply (AllocNbhTable_rows missing_value [] conn numElements nbhPerElem);
      [constructor | exact H].
Qed.

Lemma AddNeighborList_rows (dataFile : NcFile) (name : string) (perElem : nat)
  (conn conn' : Connectivity) :
  Forall (fun row => List.length row = perElem) conn ->
  AddNeighborList dataFile name perElem conn = Ok (true, conn') ->
  List.length conn' = List.length conn /\
  Forall (fun row => List.length row = perElem) conn'.
Proof.
  intros Hrows H. apply AddNeighborList_unfold in H.
  destruct H as (xToY & yPerX & numY & _ & [(_ & Hok & _) | (-> & _ & Hloop)]);
    [discriminate | ].
  destruct (set_loop_inv _ _ _ _ _ Hloop) as (Hlen & _).
  split; [exact Hlen | ].
  apply (set_loop_widths
           (fun elemIdx =>
              map (fun innerIdx => int_sub (nth (innerIdx * numY + elemIdx) xToY 0%Z) 1)
                  (seq 0 perElem))
           numY perElem 0 conn conn' Hrows); [ | exact Hloop].
  intros e. rewrite length_map, length_seq. reflexivity.
Qed.

Lemma AddNeighborList_shape (dataFile : NcFile) (name : string) (perElem : nat)
  (rows : Z) (conn conn' : Connectivity) :
  table_shape conn rows perElem ->
  AddNeighborList dataFile name perElem conn = Ok (true, conn') ->
  table_shape conn' rows perElem.
Proof.
  intros [Hlen Hrows] H.
  destruct (AddNeighborList_rows _ _ _ _ _ Hrows H) as [Hlen' Hrows'].
  split; [congruence | exact Hrows'].
Qed.

Lemma Complete_edges (missing_value : Z) (disk : Disk) (filename : string) (mesh : Mesh) :
  AtlasMeshFromNetCDFComplete missing_value disk filename = Ok (Some mesh) ->
  exists dataFile,
    disk filename = Some dataFile /\
    e_size (edges mesh) =
    Z.max (to_int (field_size dataFile "edge_index")) (to_int (field_size dataFile "elat")) /\
    (0 < e_size (edges mesh))%Z.
Proof.
  unfold AtlasMeshFromNetCDFComplete. intros H. repeat inv_step H.
  injection H as <-. cbn [edges e_size].
  apply open_inv in E0. apply LoadField_length in E1, E2.
  apply Minimal_inv in E. destruct E as (dataFile & Hdisk & _ & _ & _ & _ & _ & Hedges).
  rewrite Hdisk in E0. injection E0 as <-.
  unfold edges_add in E5. rewrite Hedges in E5. inv_step E5. injection E5 as <-.
  cbn [e_size]. rewrite E1, E2 in *.
  apply negb_false_iff, Z.ltb_lt in E4.
  exists dataFile. split; [exact Hdisk | split; [reflexivity | exact E4]].
Qed.

(** X17. In a mesh that [AtlasMeshFromNetCDFComplete] returns, the number of
    edges is the larger of the sizes of [edge_index] and [elat] (a missing
    one counting as 0) and is positive, and each neighbor table has one row
    per element, of the fixed width: edge to cell 2 per edge, node to cell
    and node to edge 6 per node, cell to edge 3 per cell; the rows of the
    edge-to-node table have 2 entries. *)
Theorem Complete_mesh_shape :
  forall (missing_value : Z) (disk : Disk) (filename : string) (mesh : Mesh),
    AtlasMeshFromNetCDFComplete missing_value disk filename = Ok (Some mesh) ->
    exists dataFile,
      disk filename = Some dataFile /\
      e_size (edges mesh) =
      Z.max (to_int (field_size dataFile "edge_index"))
            (to_int (field_size dataFile "elat")) /\
      (0 < e_size (edges mesh))%Z /\
      table_shape (e_cell_connectivity (edges mesh)) (e_size (edges mesh)) 2 /\
      Forall (fun row => List.length row = 2%nat) (e_node_connectivity (edges mesh)) /\
      table_shape (n_cell_connectivity (nodes mesh)) (n_size (nodes mesh)) 6 /\
      table_shape (n_edge_connectivity (nodes mesh)) (n_size (nodes mesh)) 6 /\
      table_shape (c_edge_connectivity (cells mesh)) (c_size (cells mesh)) 3.
Proof.
  intros mv disk filename mesh H.
  destruct (Complete_edges _ _ _ _ H) as (dataFile & Hdisk & Hsize & Hpos).
  exists dataFile. split; [exact Hdisk | split; [exact Hsize | split; [exact Hpos | ]]].
  clear Hsize Hpos.
  apply Complete_inv in H.
  destruct H as (mesh0 & dataFile' & e & numEdges & t1 & t2 & t3 & t4 & t5 &
                 edge_cell & edge_node & node_cell & node_edge & cell_edge &
                 Hmin & Hdisk' & Hedges & A1 & L1 & A2 & L2 & A3 & L3 & A4 & L4 & A5 & L5 & ->).
  apply Minimal_inv in Hmin.
  destruct Hmin as (dataFile'' & _ & _ & _ & Enc & Ene & Ece & Ee).
  rewrite Enc in A3. rewrite Ene in A4. rewrite Ece in A5.
  unfold edges_add in Hedges. rewrite Ee in Hedges. inv_step Hedges.
  injection Hedges as <-. cbn [e_cell_connectivity e_node_connectivity e_size] in A1, A2.
  cbn [nodes cells edges n_cell_connectivity n_edge_connectivity n_size c_size
         c_edge_connectivity e_cell_connectivity e_node_connectivity e_size].
  split; [ | split; [ | split; [ | split]]].
  - exact (AddNeighborList_shape _ _ 2%nat _ _ _ (AllocNbhTable_shape _ _ _ 2 A1) L1).
  - apply (AddNeighborList_rows dataFile' "edge_vertices" 2%nat t2 edge_node); [ | exact L2].
    apply (AllocNbhTable_rows mv (add_missing mv [] numEdges 2) t2 numEdges 2);
      [ | exact A2].
    apply (add_missing_rows mv [] numEdges 2). constructor.
  - exact (AddNeighborList_shape _ _ 6%nat _ _ _ (AllocNbhTable_shape _ _ _ 6 A3) L3).
  - exact (AddNeighborList_shape _ _ 6%nat _ _ _ (AllocNbhTable_shape _ _ _ 6 A4) L4).
  - exact (AddNeighborList_shape _ _ 3%nat _ _ _ (AllocNbhTable_shape _ _ _ 3 A5) L5).
Qed.

Lemma Complete_mesh_shape_witness :
  exists dataFile,
    example_disk "grid.nc"%string = Some dataFile /\
    e_size (edges example_mesh) =
    Z.max (to_int (field_size dataFile "edge_index"))
          (to_int (field_size dataFile "elat")) /\
    (0 < e_size (edges example_mesh))%Z /\
    table_shape (e_cell_connectivity (edges example_mesh)) (e_size (edges example_mesh)) 2 /\
    Forall (fun row => List.length row = 2%nat) (e_node_connectivity (edges example_mesh)) /\
    table_shape (n_cell_connectivity (nodes example_mesh)) (n_size (nodes example_mesh)) 6 /\
    table_shape (n_edge_connectivity (nodes example_mesh)) (n_size (nodes example_mesh)) 6 /\
    table_shape (c_edge_connectivity (cells example_mesh)) (c_size (cells example_mesh)) 3.
Proof.
  apply (Complete_mesh_shape (-1) example_disk "grid.nc" example_mesh).
  reflexivity.
Defined.
